(** * Translator: the live audio pipeline of [App.tsx] and [geminiService.ts]

    A shallow embedding of the PCM codec ([encode], [decode],
    [decodeAudioData]), of the session callbacks ([startSession],
    [stopSession], [onmessage]) and of [translateText], with the properties
    of the specification stated over them. The times of the playback
    schedule are binary64 numbers. *)

From Stdlib Require Import ZArith NArith QArith Qabs Qround Lia ZifyNat ZifyN SpecFloat.
From Stdlib.Strings Require Import Byte Ascii String.
From stdpp Require Import base option list gmap.

Local Open Scope N_scope.

(** * JavaScript values *)

(** A JavaScript string is a sequence of UTF-16 code units. *)
Definition jsstring : Type := list N.

(** An ASCII literal of the source as a JavaScript string. *)
Definition lit (s : string) : jsstring := map N_of_ascii (list_ascii_of_string s).

(** The exceptions the platform raises in the modelled code. *)
Inductive exn : Type :=
  | RangeError
  | InvalidCharacterError
  | NotSupportedError
  | TypeError
  | Rejection (reason : jsstring).

(** Outcome of a call that may throw. *)
Inductive result (A : Type) : Type :=
  | Ok (a : A)
  | Throw (e : exn).
Arguments Ok {A} a.
Arguments Throw {A} e.

#[global] Instance result_ret : MRet result := fun _ a => Ok a.

#[global] Instance result_bind : MBind result := fun _ _ k r =>
  match r with
  | Ok a => k a
  | Throw e => Throw e
  end.

(** [for (let i = 0; i < n; i++) body] as a fold over the indices. *)
Definition for_loop {S : Type} (n : nat) (body : nat -> S -> S) (init : S) : S :=
  fold_left (fun s i => body i s) (seq 0 n) init.

(** [String.fromCharCode(n)]: one code unit, reduced modulo 2^16. *)
Definition fromCharCode (n : N) : jsstring := [n mod 65536].

(** [s.charCodeAt(i)]: [None] stands for NaN (index out of range). *)
Definition charCodeAt (s : jsstring) (i : nat) : option N := s !! i.

(** Storing a number into a [Uint8Array] slot: NaN becomes 0, an integer
    is reduced modulo 256. *)
Definition ToUint8 (v : option N) : byte :=
  match v with
  | None => x00
  | Some n => default x00 (Byte.of_N (n mod 256))
  end.

(** * Base64: [btoa] and [atob] *)

Module Base64.

Definition alphabet : jsstring :=
  lit "ABCDEFGHIJKLMNOPQRSTUVWXYZabcdefghijklmnopqrstuvwxyz0123456789+/".

Definition pad : N := 61.

(** The character of a six-bit value. *)
Definition char_of (i : N) : N := nth (N.to_nat i) alphabet pad.

(** The six-bit value of a character of the alphabet. *)
Definition index_of (c : N) : option N :=
  if (65 <=? c) && (c <=? 90) then Some (c - 65)
  else if (97 <=? c) && (c <=? 122) then Some (c - 71)
  else if (48 <=? c) && (c <=? 57) then Some (c + 4)
  else if c =? 43 then Some 62
  else if c =? 47 then Some 63
  else None.

(** Three octets give four characters; a final group of one or two octets
    is completed with [=]. *)
Fixpoint encode_units (l : list N) : list N :=
  match l with
  | [] => []
  | [a] => [char_of (a / 4); char_of ((a mod 4) * 16); pad; pad]
  | [a; b] =>
      [char_of (a / 4); char_of ((a mod 4) * 16 + b / 16);
       char_of ((b mod 16) * 4); pad]
  | a :: b :: c :: rest =>
      char_of (a / 4) :: char_of ((a mod 4) * 16 + b / 16)
      :: char_of ((b mod 16) * 4 + c / 64) :: char_of (c mod 64)
      :: encode_units rest
  end.

(** [btoa(s)]: throws when a code unit is above 255. *)
Definition btoa (s : jsstring) : result jsstring :=
  if forallb (fun c => c <=? 255) s then Ok (encode_units s)
  else Throw InvalidCharacterError.

Definition is_ascii_whitespace (c : N) : bool :=
  (c =? 9) || (c =? 10) || (c =? 12) || (c =? 13) || (c =? 32).

(** Forgiving decode, step 2: when the length is a multiple of four, one
    or two trailing [=] are removed. *)
Definition ends_with_pad (d : list N) : bool := bool_decide (last d = Some pad).

Definition strip_padding (d : list N) : list N :=
  if (N.of_nat (length d) mod 4 =? 0) && ends_with_pad d then
    let d := removelast d in
    if ends_with_pad d then removelast d else d
  else d.

(** Four six-bit values give three octets; a final group of two or three
    values gives one or two octets, the spare bits being dropped. *)
Fixpoint decode_units (l : list N) : list N :=
  match l with
  | c0 :: c1 :: c2 :: c3 :: rest =>
      (c0 * 4 + c1 / 16) :: ((c1 mod 16) * 16 + c2 / 4)
      :: ((c2 mod 4) * 64 + c3) :: decode_units rest
  | [c0; c1; c2] => [c0 * 4 + c1 / 16; (c1 mod 16) * 16 + c2 / 4]
  | [c0; c1] => [c0 * 4 + c1 / 16]
  | _ => []
  end.

(** [atob(s)]: the forgiving-base64 decode of the HTML standard. *)
Definition atob (s : jsstring) : result jsstring :=
  let d := strip_padding (List.filter (fun c => negb (is_ascii_whitespace c)) s) in
  if (N.of_nat (length d) mod 4 =? 1) then Throw InvalidCharacterError
  else match mapM index_of d with
       | Some sextets => Ok (decode_units sextets)
       | None => Throw InvalidCharacterError
       end.

(** The six-bit values of a byte string, before they are spelled. *)
Fixpoint sextets (l : list N) : list N :=
  match l with
  | [] => []
  | [a] => [a / 4; (a mod 4) * 16]
  | [a; b] => [a / 4; (a mod 4) * 16 + b / 16; (b mod 16) * 4]
  | a :: b :: c :: rest =>
      a / 4 :: (a mod 4) * 16 + b / 16 :: (b mod 16) * 4 + c / 64 :: c mod 64
      :: sextets rest
  end.

(** The number of [=] that complete the last group. *)
Definition padding (l : list N) : nat :=
  match (length l mod 3)%nat with
  | 0%nat => 0%nat
  | 1%nat => 2%nat
  | _ => 1%nat
  end.

End Base64.

(** * PCM codec: [encode] and [decode] *)

(** [encode(bytes)]: the bytes as a binary string, then [btoa]. *)
Definition encode (bytes : list byte) : result jsstring :=
  let len := length bytes in
  let binary :=
    for_loop len
      (fun i binary => binary ++ fromCharCode (Byte.to_N (default x00 (bytes !! i))))
      [] in
  Base64.btoa binary.

(** [decode(base64)]: [atob], then one byte per code unit. *)
Definition decode (base64 : jsstring) : result (list byte) :=
  binaryString ← Base64.atob base64;
  let len := length binaryString in
  let bytes := replicate len x00 in
  Ok (for_loop len (fun i bytes => <[i := ToUint8 (charCodeAt binaryString i)]> bytes) bytes).

(** * 16-bit PCM: typed arrays and [decodeAudioData] *)

Local Open Scope Z_scope.

(** A JavaScript number held in a [Float32Array]: a finite value or NaN.
    Finite samples are exact rationals; the scalings by 32768 of the codec
    are exact in floating point as well (a power of two, 16 significant
    bits). *)
Inductive num : Type :=
  | Fin (q : Q)
  | NaN.

(** Storing a number into an [Int16Array] slot: truncate toward zero,
    reduce modulo 2^16, read the result as a signed 16-bit value. No
    clamping takes place. *)
Definition ToInt16 (x : Q) : Z :=
  let int := Z.quot (Qnum x) (Zpos (Qden x)) in
  let int16bit := int mod 65536 in
  if 32768 <=? int16bit then int16bit - 65536 else int16bit.

Definition byte_of_Z (z : Z) : byte := default x00 (Byte.of_N (Z.to_N z)).

Definition Z_of_byte (b : byte) : Z := Z.of_N (Byte.to_N b).

(** [new Uint8Array(int16.buffer)]: the two bytes of each element, low
    byte first. *)
Definition Uint8Array_of_Int16Array (int16 : list Z) : list byte :=
  flat_map (fun z => let u := z mod 65536 in [byte_of_Z (u mod 256); byte_of_Z (u / 256)])
    int16.

Definition int16_le (lo hi : byte) : Z :=
  let u := Z_of_byte lo + 256 * Z_of_byte hi in
  if 32768 <=? u then u - 65536 else u.

Fixpoint int16_pairs (buf : list byte) : list Z :=
  match buf with
  | lo :: hi :: rest => int16_le lo hi :: int16_pairs rest
  | _ => []
  end.

(** [new Int16Array(data.buffer)]: a RangeError when the byte length of
    the buffer is not a multiple of two. The array [data] covers its whole
    buffer, as the result of [decode] does. *)
Definition Int16Array_of_buffer (buf : list byte) : result (list Z) :=
  if Nat.even (length buf) then Ok (int16_pairs buf) else Throw RangeError.

(** * Times: IEEE 754 binary64 *)

(** The clock of an audio context, the playback anchor and the duration
    of a buffer are JavaScript numbers: binary64 values, whose sums and
    quotients are rounded to nearest, ties to even. Their arithmetic is
    that of [SpecFloat] at 53 bits of precision. *)
Definition double : Type := spec_float.

Definition prec : Z := 53.

Definition emax : Z := 1024.

(** [a + b] *)
Definition fadd : double -> double -> double := SFadd prec emax.

(** [a / b] *)
Definition fdiv : double -> double -> double := SFdiv prec emax.

(** An integer as a number: the nearest double. *)
Definition double_of_Z (z : Z) : double := binary_normalize prec emax z 0 false.

(** A rational as a number: the quotient of its numerator by its
    denominator, which is the rational itself when it is an integer below
    2^53, as the sample rates and the clock values of the scenarios are. *)
Definition double_of_Q (q : Q) : double :=
  fdiv (double_of_Z (Qnum q)) (double_of_Z (Zpos (Qden q))).

(** [0] *)
Definition zero : double := S754_zero false.

(** [Math.max(a, b)]: NaN when an argument is NaN, and +0 is taken to be
    above -0. *)
Definition Math_max (a b : double) : double :=
  match a, b with
  | S754_nan, _ | _, S754_nan => S754_nan
  | S754_zero sa, S754_zero sb => S754_zero (sa && sb)
  | _, _ => if SFltb a b then b else a
  end.

Arguments fadd : simpl never.
Arguments fdiv : simpl never.
Arguments double_of_Z : simpl never.
Arguments double_of_Q : simpl never.
Arguments Math_max : simpl never.

(** An [AudioBuffer]: planar channel data at a sample rate. *)
Record AudioBuffer : Type := mkAudioBuffer {
  sampleRate : Q;
  channels : list (list num)
}.

(** [buffer.length]: the number of sample frames. *)
Definition frames (b : AudioBuffer) : nat := length (default [] (channels b !! 0%nat)).

(** [buffer.duration], in seconds: the quotient of the length by the
    sample rate, as a number. *)
Definition duration (b : AudioBuffer) : double :=
  fdiv (double_of_Z (Z.of_nat (frames b))) (double_of_Q (sampleRate b)).

(** [ctx.createBuffer(numberOfChannels, length, sampleRate)]: the length
    argument is converted to an unsigned integer by truncation; a
    NotSupportedError is thrown when the channel count or the length is
    zero. The sample rate is not checked: the code passes 24000, which
    every implementation accepts. The buffer starts out silent. *)
Definition createBuffer (numberOfChannels : nat) (length : Q) (rate : Q) : result AudioBuffer :=
  let len := Z.to_nat (Z.quot (Qnum length) (Zpos (Qden length))) in
  if (numberOfChannels =? 0)%nat || (len =? 0)%nat then Throw NotSupportedError
  else Ok (mkAudioBuffer rate (replicate numberOfChannels (replicate len (Fin 0)))).

(** The number of iterations of [for (let i = 0; i < bound; i++)] for a
    bound that need not be an integer. *)
Definition iterations (bound : Q) : nat :=
  Z.to_nat (Qceiling bound).

(** [dataInt16[k] / 32768.0]: reading past the end gives [undefined],
    whose quotient is NaN. *)
Definition sample_of (v : option Z) : num :=
  match v with
  | Some z => Fin (inject_Z z / 32768)
  | None => NaN
  end.

(** [dataInt16.length / numChannels], a number that need not be whole. *)
Definition frameCountOf (samples numChannels : nat) : Q :=
  (inject_Z (Z.of_nat samples) / inject_Z (Z.of_nat numChannels))%Q.

(** [decodeAudioData(data, ctx, sampleRate, numChannels)]. A store into a
    channel at an index past its length is dropped, as typed arrays do. *)
Definition decodeAudioData (data : list byte) (rate : Q) (numChannels : nat)
  : result AudioBuffer :=
  dataInt16 ← Int16Array_of_buffer data;
  let frameCount : Q := frameCountOf (length dataInt16) numChannels in
  buffer ← createBuffer numChannels frameCount rate;
  mret (for_loop numChannels
    (fun channel buffer =>
       let channelData := default [] (channels buffer !! channel) in
       let channelData :=
         for_loop (iterations frameCount)
           (fun i channelData =>
              <[i := sample_of (dataInt16 !! (i * numChannels + channel)%nat)]> channelData)
           channelData in
       mkAudioBuffer (sampleRate buffer) (<[channel := channelData]> (channels buffer)))
    buffer).

(** The body of [scriptProcessor.onaudioprocess]: the captured samples
    scaled by 32768, stored into an [Int16Array], and the bytes of that
    array encoded for the transport. *)
Definition onaudioprocess (inputData : list Q) : result jsstring :=
  let l := length inputData in
  let int16 :=
    for_loop l
      (fun i int16 => <[i := ToInt16 (default 0%Q (inputData !! i) * 32768)]> int16)
      (replicate l 0) in
  encode (Uint8Array_of_Int16Array int16).

(** * The application state of [App] *)

(** [types.ts] *)
Inductive Language : Type := Danish | English | German | Turkish | Japanese.

Inductive Gender : Type := male | female.

(** ['Klar' | 'Lytter...' | 'Oversætter...' | 'Taler...' | 'Error'] *)
Inductive AppStatus : Type := Klar | Lytter | Oversaetter | Taler | Error.

(** [constants.ts] *)
Definition LANGUAGE_NAMES (l : Language) : jsstring :=
  match l with
  | Danish => lit "Dansk"
  | English => lit "English"
  | German => lit "Deutsch"
  | Turkish => (lit "T" ++ [252] ++ lit "rk" ++ [231] ++ lit "e")%N
  | Japanese => [26085; 26412; 35486]%N
  end.

(** A transcript text as a message carries it: a string or [undefined]. *)
Definition text : Type := option jsstring.

(** Truthiness of a text: defined and not the empty string. *)
Definition truthy (t : text) : bool :=
  match t with
  | Some (_ :: _) => true
  | _ => false
  end.

(** [a || b] on texts. *)
Definition or_else (a b : text) : text := if truthy a then a else b.

Record HistoryItem : Type := mkHistoryItem {
  timestamp : Z;
  originalText : text;
  translatedText : text;
  itemSourceLang : jsstring;
  itemTargetLang : jsstring
}.

(** A [MediaStream], given by the identities of its tracks. *)
Definition MediaStream : Type := list nat.

(** The values held by [useState]. A render of the component binds them
    as constants, and the callbacks created by that render see those
    constants, not later updates. *)
Record ReactState : Type := mkReact {
  sourceLang : option Language;   (* [None] is ['auto'] *)
  targetLang : Language;
  gender : Gender;
  status : AppStatus;
  isRecording : bool;
  transcript : text;
  translation : text;
  history : list HistoryItem;
  stream : option MediaStream
}.

(** The values held by [useRef]: shared, mutated in place. *)
Record Refs : Type := mkRefs {
  sessionRef : option nat;
  inputAudioContextRef : option nat;
  outputAudioContextRef : option nat;
  nextStartTimeRef : double;
  sourcesRef : gset nat
}.

(** A release request made to the platform. *)
Inductive call : Type :=
  | SessionClose (session : nat)
  | TrackStop (track : nat)
  | ContextClose (ctx : nat)
  | SourceStop (node : nat).

(** The platform objects the component has created, each known by its
    index, and the release requests made so far (oldest first). *)
Record Platform : Type := mkPlatform {
  contexts : list bool;        (* AudioContexts: [true] until closed *)
  tracks : list bool;          (* microphone tracks: [true] while live *)
  sessions : list bool;        (* live sessions: [true] while open *)
  nodes : list (double * double);   (* started source nodes: start time, duration *)
  calls : list call
}.

Record App : Type := mkApp {
  react : ReactState;
  refs : Refs;
  plat : Platform
}.

Definition initialReact : ReactState :=
  mkReact None English male Klar false (Some []) (Some []) [] None.

Definition initialApp : App :=
  mkApp initialReact (mkRefs None None None zero ∅) (mkPlatform [] [] [] [] []).

(** ** State and exceptions *)

(** A computation over the application state that returns or throws; the
    state changes made before a throw remain. *)
Definition M (A : Type) : Type := App -> result A * App.

#[global] Instance M_ret : MRet M := fun _ a s => (Ok a, s).

#[global] Instance M_bind : MBind M := fun _ _ k m s =>
  match m s with
  | (Ok a, s') => k a s'
  | (Throw e, s') => (Throw e, s')
  end.

Definition gets {A} (f : App -> A) : M A := fun s => (Ok (f s), s).

Definition modify (f : App -> App) : M unit := fun s => (Ok tt, f s).

Definition lift {A} (r : result A) : M A := fun s => (r, s).

(** [try { body } catch (err) { handler }] *)
Definition try_catch {A} (body : M A) (handler : exn -> M A) : M A := fun s =>
  match body s with
  | (Throw e, s') => handler e s'
  | r => r
  end.

(** [if (c) { body }] *)
Definition when (c : bool) (body : M unit) : M unit :=
  if c then body else mret tt.

(** [xs.forEach(x => f x)] *)
Fixpoint forEach {A} (xs : list A) (f : A -> M unit) : M unit :=
  match xs with
  | [] => mret tt
  | x :: xs => f x ;; forEach xs f
  end.

Definition modify_react (f : ReactState -> ReactState) : M unit :=
  modify (fun s => mkApp (f (react s)) (refs s) (plat s)).

Definition modify_refs (f : Refs -> Refs) : M unit :=
  modify (fun s => mkApp (react s) (f (refs s)) (plat s)).

Definition modify_plat (f : Platform -> Platform) : M unit :=
  modify (fun s => mkApp (react s) (refs s) (f (plat s))).

(** The state setters of [useState]. *)
Definition setStatus (v : AppStatus) : M unit :=
  modify_react (fun r =>
    mkReact (sourceLang r) (targetLang r) (gender r) v (isRecording r)
      (transcript r) (translation r) (history r) (stream r)).

Definition setIsRecording (v : bool) : M unit :=
  modify_react (fun r =>
    mkReact (sourceLang r) (targetLang r) (gender r) (status r) v
      (transcript r) (translation r) (history r) (stream r)).

Definition setTranscript (f : text -> text) : M unit :=
  modify_react (fun r =>
    mkReact (sourceLang r) (targetLang r) (gender r) (status r) (isRecording r)
      (f (transcript r)) (translation r) (history r) (stream r)).

Definition setTranslation (f : text -> text) : M unit :=
  modify_react (fun r =>
    mkReact (sourceLang r) (targetLang r) (gender r) (status r) (isRecording r)
      (transcript r) (f (translation r)) (history r) (stream r)).

Definition setHistory (f : list HistoryItem -> list HistoryItem) : M unit :=
  modify_react (fun r =>
    mkReact (sourceLang r) (targetLang r) (gender r) (status r) (isRecording r)
      (transcript r) (translation r) (f (history r)) (stream r)).

Definition setStream (v : option MediaStream) : M unit :=
  modify_react (fun r =>
    mkReact (sourceLang r) (targetLang r) (gender r) (status r) (isRecording r)
      (transcript r) (translation r) (history r) v).

(** Assignments to the [current] field of the refs. *)
Definition set_sessionRef (v : option nat) : M unit :=
  modify_refs (fun r =>
    mkRefs v (inputAudioContextRef r) (outputAudioContextRef r)
      (nextStartTimeRef r) (sourcesRef r)).

Definition set_inputAudioContextRef (v : option nat) : M unit :=
  modify_refs (fun r =>
    mkRefs (sessionRef r) v (outputAudioContextRef r)
      (nextStartTimeRef r) (sourcesRef r)).

Definition set_outputAudioContextRef (v : option nat) : M unit :=
  modify_refs (fun r =>
    mkRefs (sessionRef r) (inputAudioContextRef r) v
      (nextStartTimeRef r) (sourcesRef r)).

Definition set_nextStartTimeRef (v : double) : M unit :=
  modify_refs (fun r =>
    mkRefs (sessionRef r) (inputAudioContextRef r) (outputAudioContextRef r)
      v (sourcesRef r)).

Definition set_sourcesRef (v : gset nat) : M unit :=
  modify_refs (fun r =>
    mkRefs (sessionRef r) (inputAudioContextRef r) (outputAudioContextRef r)
      (nextStartTimeRef r) v).

(** ** Platform operations *)

Definition log (c : call) (p : Platform) : list call := calls p ++ [c].

(** [new AudioContext(...)]: a fresh, open context. *)
Definition newAudioContext : M nat := fun s =>
  let p := plat s in
  (Ok (length (contexts p)),
   mkApp (react s) (refs s)
     (mkPlatform (contexts p ++ [true]) (tracks p) (sessions p) (nodes p) (calls p))).

(** [ctx.close()] *)
Definition context_close (c : nat) : M unit :=
  modify_plat (fun p =>
    mkPlatform (<[c := false]> (contexts p)) (tracks p) (sessions p) (nodes p)
      (log (ContextClose c) p)).

(** [track.stop()]: ends the track; nothing happens to an ended one. *)
Definition track_stop (t : nat) : M unit :=
  modify_plat (fun p =>
    mkPlatform (contexts p) (<[t := false]> (tracks p)) (sessions p) (nodes p)
      (log (TrackStop t) p)).

(** [session.close()] *)
Definition session_close (h : nat) : M unit :=
  modify_plat (fun p =>
    mkPlatform (contexts p) (tracks p) (<[h := false]> (sessions p)) (nodes p)
      (log (SessionClose h) p)).

(** The [when] that [start] accepts: a finite number that is not
    negative. *)
Definition accepted (when : double) : bool :=
  match when with
  | S754_zero _ | S754_finite false _ _ => true
  | _ => false
  end.

(** [source.start(when)] of a new buffer source playing [buffer]: the
    node is known by its index in [nodes]. A [when] that is not finite is
    a TypeError, a negative one a RangeError. *)
Definition source_start (when : double) (buffer : AudioBuffer) : M nat := fun s =>
  let p := plat s in
  if accepted when then
    (Ok (length (nodes p)),
     mkApp (react s) (refs s)
       (mkPlatform (contexts p) (tracks p) (sessions p)
          (nodes p ++ [(when, duration buffer)]) (calls p)))
  else
    (Throw match when with
           | S754_finite _ _ _ => RangeError
           | _ => TypeError
           end,
     s).

(** [source.stop()] *)
Definition source_stop (n : nat) : M unit :=
  modify_plat (fun p =>
    mkPlatform (contexts p) (tracks p) (sessions p) (nodes p) (log (SourceStop n) p)).

(** * The session callbacks of [App] *)

(** The file holds several revisions of the live component. Two are
    embedded: the first, whose turn-complete handler records every turn,
    and the last, which resumes the audio contexts on start, overwrites
    the transcripts and guards the history update. *)
Inductive Variant : Type := FirstVariant | GuardedVariant.

(** [stopSession], as created by [useCallback(..., [stream])] in the
    render [render]: [stream] is the stream of that render. *)
Definition stopSession (render : ReactState) : M unit :=
  setIsRecording false;;
  session ← gets (fun s => sessionRef (refs s));
  match session with
  | Some h => session_close h;; set_sessionRef None
  | None => mret tt
  end;;
  match stream render with
  | Some st => forEach st track_stop;; setStream None
  | None => mret tt
  end;;
  ctx ← gets (fun s => inputAudioContextRef (refs s));
  match ctx with
  | Some c => context_close c;; set_inputAudioContextRef None
  | None => mret tt
  end;;
  setStatus Klar.

(** What the platform answers to the awaited requests of [startSession]. *)
Record StartEnv : Type := mkStartEnv {
  resumeInput : result unit;     (* [await inputCtx.resume()] *)
  resumeOutput : result unit;    (* [await outputCtx.resume()] *)
  getUserMedia : result nat;     (* the number of tracks of the granted stream *)
  connect : result unit          (* [await sessionPromise] *)
}.

(** A granted [MediaStream]: [k] fresh live tracks. *)
Definition newMediaStream (k : nat) : M MediaStream := fun s =>
  let p := plat s in
  (Ok (seq (length (tracks p)) k),
   mkApp (react s) (refs s)
     (mkPlatform (contexts p) (tracks p ++ replicate k true) (sessions p) (nodes p)
        (calls p))).

(** An established session. *)
Definition newSession : M nat := fun s =>
  let p := plat s in
  (Ok (length (sessions p)),
   mkApp (react s) (refs s)
     (mkPlatform (contexts p) (tracks p) (sessions p ++ [true]) (nodes p) (calls p))).

(** [startSession]. A rejected connection is taken to reject the promise
    without a callback having run; an accepted one runs [onopen], which
    sets [isRecording], before the promise resolves. *)
Definition startSession (v : Variant) (env : StartEnv) : M unit :=
  try_catch
    (setStatus Lytter;;
     inputCtx ← newAudioContext;
     outputCtx ← newAudioContext;
     match v with
     | FirstVariant => mret tt
     | GuardedVariant => lift (resumeInput env);; lift (resumeOutput env)
     end;;
     set_inputAudioContextRef (Some inputCtx);;
     set_outputAudioContextRef (Some outputCtx);;
     k ← lift (getUserMedia env);
     mediaStream ← newMediaStream k;
     setStream (Some mediaStream);;
     lift (connect env);;
     session ← newSession;
     setIsRecording true;;
     set_sessionRef (Some session))
    (fun err => setStatus Error).

(** A [Part] of a model turn, as far as the handler reads it. *)
Record Part : Type := mkPart {
  inlineData : text                    (* [inlineData?.data] *)
}.

(** A [Content]: its [parts] may be absent. *)
Record Content : Type := mkContent {
  parts : option (list Part)
}.

(** The fields of a [LiveServerMessage] the handler reads; each is absent
    when a link of its optional chain is. *)
Record LiveServerMessage : Type := mkMessage {
  inputTranscription : option text;    (* [serverContent?.inputTranscription], with its [text] *)
  outputTranscription : option text;   (* [serverContent?.outputTranscription], with its [text] *)
  modelTurn : option Content;          (* [serverContent?.modelTurn] *)
  turnComplete : bool;
  interrupted : bool
}.

(** [message.serverContent?.modelTurn?.parts[0]?.inlineData?.data]. The
    chain is optional at every link but [parts]: the index [0] of a model
    turn that has no [parts] is a TypeError. *)
Definition audioDataOf (message : LiveServerMessage) : result text :=
  match modelTurn message with
  | None => Ok None
  | Some content =>
      match parts content with
      | None => Throw TypeError
      | Some ps => Ok (ps !! 0%nat ≫= inlineData)
      end
  end.

(** What the handler reads from its surroundings: [ctx.currentTime] of
    the output context and [new Date()]. The decoder never suspends, so
    the handler runs within one task, in which the clock value is fixed. *)
Record MessageEnv : Type := mkMessageEnv {
  currentTime : double;
  date : Z
}.

Definition sourceLabel (render : ReactState) : jsstring :=
  match sourceLang render with
  | None => lit "Auto"
  | Some l => LANGUAGE_NAMES l
  end.

(** The handler [onmessage], as created by [startSession] in the render
    [render]: [transcript], [translation], [sourceLang] and [targetLang]
    are the constants of that render. Its four parts, in the order of the
    source. *)

(** Transcriptions. *)
Definition handleTranscriptions (v : Variant) (message : LiveServerMessage) : M unit :=
  match inputTranscription message with
  | Some t =>
      match v with
      | FirstVariant => setTranscript (fun prev => or_else t prev)
      | GuardedVariant => setTranscript (fun _ => t)
      end
  | None => mret tt
  end;;
  match outputTranscription message with
  | Some t =>
      match v with
      | FirstVariant => setTranslation (fun prev => or_else t prev)
      | GuardedVariant => setTranslation (fun _ => t)
      end
  | None => mret tt
  end.

(** Audio output: the buffer is scheduled at the later of the anchor and
    the clock, and the anchor moves on by its duration. *)
Definition handleAudioOutput (message : LiveServerMessage) (env : MessageEnv) : M unit :=
  audioData ← lift (audioDataOf message);
  ctx ← gets (fun s => outputAudioContextRef (refs s));
  when (truthy audioData && bool_decide (is_Some ctx))
    (next ← gets (fun s => nextStartTimeRef (refs s));
     set_nextStartTimeRef (Math_max next (currentTime env));;
     bytes ← lift (decode (default [] audioData));
     audioBuffer ← lift (decodeAudioData bytes 24000 1);
     next ← gets (fun s => nextStartTimeRef (refs s));
     source ← source_start next audioBuffer;
     set_nextStartTimeRef (fadd next (duration audioBuffer));;
     sources ← gets (fun s => sourcesRef (refs s));
     set_sourcesRef ({[source]} ∪ sources);;
     setStatus Taler).

(** Turn complete: the history update. *)
Definition handleTurnComplete (v : Variant) (render : ReactState)
    (message : LiveServerMessage) (env : MessageEnv) : M unit :=
  when (turnComplete message)
    (setStatus Lytter;;
     when (match v with
           | FirstVariant => true
           | GuardedVariant => truthy (transcript render) && truthy (translation render)
           end)
       (setHistory (fun prev =>
          mkHistoryItem (date env) (transcript render) (translation render)
            (sourceLabel render) (LANGUAGE_NAMES (targetLang render)) :: prev))).

(** Interrupted. *)
Definition handleInterrupted (message : LiveServerMessage) : M unit :=
  when (interrupted message)
    (sources ← gets (fun s => sourcesRef (refs s));
     forEach (elements sources) source_stop;;
     set_sourcesRef ∅;;
     set_nextStartTimeRef zero).

Definition onmessage (v : Variant) (render : ReactState)
    (message : LiveServerMessage) (env : MessageEnv) : M unit :=
  handleTranscriptions v message;;
  handleAudioOutput message env;;
  handleTurnComplete v render message env;;
  handleInterrupted message.

(** [source.onended] *)
Definition onended (source : nat) : M unit :=
  sources ← gets (fun s => sourcesRef (refs s));
  set_sourcesRef (sources ∖ {[source]}).

(** [onerror] *)
Definition onerror (render : ReactState) : M unit :=
  setStatus Error;;
  stopSession render.

(** ** Runs of the component *)

(** What happens to the component: the user presses the button, or the
    platform delivers a callback of the session started last. *)
Inductive event : Type :=
  | Toggle (env : StartEnv)
  | Message (message : LiveServerMessage) (env : MessageEnv)
  | Ended (source : nat)
  | Closed
  | Errored.

(** The component together with the render whose [startSession] created
    the callbacks of the current session. *)
Record Live : Type := mkLive {
  app : App;
  sessionRender : ReactState
}.

Definition initialLive : Live := mkLive initialApp initialReact.

(** One event. The button handler belongs to the latest render; the
    session callbacks belong to the render that started the session. An
    exception escaping a callback is dropped, the state stays as it is. *)
Definition step (v : Variant) (l : Live) (e : event) : Live :=
  let s := app l in
  match e with
  | Toggle env =>
      if isRecording (react s)
      then mkLive (snd (stopSession (react s) s)) (sessionRender l)
      else mkLive (snd (startSession v env s)) (react s)
  | Message message env =>
      mkLive (snd (onmessage v (sessionRender l) message env s)) (sessionRender l)
  | Ended source => mkLive (snd (onended source s)) (sessionRender l)
  | Closed => mkLive (snd (stopSession (sessionRender l) s)) (sessionRender l)
  | Errored => mkLive (snd (onerror (sessionRender l) s)) (sessionRender l)
  end.

Definition run (v : Variant) (es : list event) (l : Live) : Live :=
  fold_left (step v) es l.

(** * [translateText] of [geminiService.ts] *)

(** White space and line terminators, as [String.prototype.trim] removes
    them. *)
Definition is_js_whitespace (c : N) : bool :=
  ((c =? 9) || (c =? 10) || (c =? 11) || (c =? 12) || (c =? 13) || (c =? 32)
   || (c =? 160) || (c =? 5760) || ((8192 <=? c) && (c <=? 8202))
   || (c =? 8232) || (c =? 8233) || (c =? 8239) || (c =? 8287)
   || (c =? 12288) || (c =? 65279))%N.

Fixpoint trimStart (s : jsstring) : jsstring :=
  match s with
  | c :: s' => if is_js_whitespace c then trimStart s' else s
  | [] => []
  end.

Definition trim (s : jsstring) : jsstring := rev (trimStart (rev (trimStart s))).

(** The request sent to the model. *)
Definition prompt (text targetLang : jsstring) : jsstring :=
  (lit "Translate the following text into " ++ targetLang
   ++ lit ". Provide ONLY the translation without any preamble or quotes: "
   ++ [34] ++ text ++ [34])%N.

(** [translateText(text, targetLang, modelName)]. [generateContent] is
    the backend: given the model and the request it throws or answers
    with a response, whose [text] may be [undefined]. *)
Definition translateText (generateContent : jsstring -> jsstring -> result text)
    (text targetLang modelName : jsstring) : result jsstring :=
  match trim text with
  | [] => Ok []
  | _ :: _ =>
      match generateContent modelName (prompt text targetLang) with
      | Ok response =>
          match trim <$> response with
          | Some (c :: t) => Ok (c :: t)
          | _ => Ok (lit "Translation failed")
          end
      | Throw error => Ok (lit "Error in translation service")
      end
  end.

(** * Vocabulary of the statements *)

(** The range of a signed 16-bit sample. *)
Definition int16 (z : Z) : Prop := -32768 <= z <= 32767.

(** The planar layout of interleaved samples: channel [c] holds the
    samples [c], [n + c], [2n + c], ... of the whole frames. *)
Definition planar (dataInt16 : list Z) (n : nat) : list (list num) :=
  map (fun c =>
         map (fun i => sample_of (dataInt16 !! (i * n + c)%nat))
           (seq 0 (length dataInt16 / n)))
    (seq 0 n).

(** The fill of one channel, as [decodeAudioData] writes it. *)
Definition fill_channel (dataInt16 : list Z) (n channel : nat) (channelData : list num)
  : list num :=
  for_loop (iterations (frameCountOf (length dataInt16) n))
    (fun i channelData =>
       <[i := sample_of (dataInt16 !! (i * n + channel)%nat)]> channelData)
    channelData.

(** The 16-bit value a sample is sent as, read back as a sample. *)
Definition quantize (x : Q) : Q := (inject_Z (ToInt16 (x * 32768)) / 32768)%Q.

(** The whole path of a captured frame: [onaudioprocess], the transport,
    [decode] and [decodeAudioData] on one channel. *)
Definition roundtrip (samples : list Q) : result AudioBuffer :=
  pcmBase64 ← onaudioprocess samples;
  bytes ← decode pcmBase64;
  decodeAudioData bytes 24000 1.

(** Stopping the tracks of a stream, one after the other. *)
Definition stop_all (st : MediaStream) (tr : list bool) : list bool :=
  fold_left (fun tr t => <[t := false]> tr) st tr.

Definition is_throw {A} (r : result A) : bool :=
  match r with
  | Throw _ => true
  | Ok _ => false
  end.

(** An awaited step up to the microphone request throws. *)
Definition fails_acquiring (v : Variant) (env : StartEnv) : bool :=
  match v with
  | FirstVariant => false
  | GuardedVariant => is_throw (resumeInput env) || is_throw (resumeOutput env)
  end
  || is_throw (getUserMedia env).

(** An awaited step of [startSession] throws. *)
Definition start_fails (v : Variant) (env : StartEnv) : bool :=
  fails_acquiring v env || is_throw (connect env).

(** A handler part that leaves the refs and the platform alone. *)
Definition display_only (s s' : App) : Prop := refs s' = refs s /\ plat s' = plat s.

(** [a <= b] on numbers: false when one of them is NaN. *)
Definition fle (a b : double) : Prop := SFleb a b = true.

(** A time: a number that is not NaN and not negative (+0, a positive
    value in the canonical form of a double, or +Infinity, which a sum
    can overflow to). The clock of an audio context is one. *)
Definition is_time (t : double) : bool :=
  match t with
  | S754_zero s | S754_infinity s => negb s
  | S754_finite s m e => negb s && bounded prec emax m e
  | S754_nan => false
  end.

(** A finite number. *)
Definition is_finite (t : double) : bool :=
  match t with
  | S754_zero _ | S754_finite _ _ _ => true
  | _ => false
  end.

(** A value of the clock of an audio context: a finite time. *)
Definition is_clock (t : double) : bool := is_time t && is_finite t.

(** The real number a finite double stands for. *)
Definition exact (t : double) : option Q :=
  match t with
  | S754_zero _ => Some 0%Q
  | S754_finite s m e => Some (inject_Z (cond_Zopp s (Zpos m)) * Qpower 2 e)%Q
  | _ => None
  end.

(** The buffer a message gives to play, if any, as the audio part of the
    handler computes it. *)
Definition audioBufferOf (message : LiveServerMessage) : result (option AudioBuffer) :=
  audioData ← audioDataOf message;
  if truthy audioData then
    bytes ← decode (default [] audioData);
    audioBuffer ← decodeAudioData bytes 24000 1;
    mret (Some audioBuffer)
  else mret None.

(** The ways the audio part of a message can end: nothing to play; the
    model turn has no parts; the payload does not decode or the start is
    refused, after the anchor was raised to the clock; a buffer of
    duration [d] is started. *)
Inductive audio_outcome (env : MessageEnv) (s : App) : result unit * App -> Prop :=
  | audio_skipped : audio_outcome env s (Ok tt, s)
  | audio_unread : audio_outcome env s (Throw TypeError, s)
  | audio_failed e :
      audio_outcome env s
        (Throw e,
         mkApp (react s)
           (mkRefs (sessionRef (refs s)) (inputAudioContextRef (refs s))
              (outputAudioContextRef (refs s))
              (Math_max (nextStartTimeRef (refs s)) (currentTime env)) (sourcesRef (refs s)))
           (plat s))
  | audio_scheduled d :
      is_time d = true ->
      let start := Math_max (nextStartTimeRef (refs s)) (currentTime env) in
      let r := react s in
      let p := plat s in
      audio_outcome env s
        (Ok tt,
         mkApp
           (mkReact (sourceLang r) (targetLang r) (gender r) Taler (isRecording r)
              (transcript r) (translation r) (history r) (stream r))
           (mkRefs (sessionRef (refs s)) (inputAudioContextRef (refs s))
              (outputAudioContextRef (refs s)) (fadd start d)
              ({[length (nodes p)]} ∪ sourcesRef (refs s)))
           (mkPlatform (contexts p) (tracks p) (sessions p) (nodes p ++ [(start, d)])
              (calls p))).

(** The schedule: the started nodes and the anchor. *)
Definition schedule (s : App) : list (double * double) * double :=
  (nodes (plat s), nextStartTimeRef (refs s)).

(** What a message without interruption does to the schedule. *)
Inductive schedule_step (now : double)
  : list (double * double) * double -> list (double * double) * double -> Prop :=
  | schedule_kept ns next : schedule_step now (ns, next) (ns, next)
  | schedule_raised ns next : schedule_step now (ns, next) (ns, Math_max next now)
  | schedule_appended ns next d :
      is_time d = true ->
      schedule_step now (ns, next)
        (ns ++ [(Math_max next now, d)], fadd (Math_max next now) d).

(** Consecutive nodes start in order, each one no earlier than the sum,
    as the handler computes it, of the start and the duration of the one
    before. *)
Definition ordered (ns : list (double * double)) : Prop :=
  forall i a b, ns !! i = Some a -> ns !! S i = Some b ->
    fle (fst a) (fst b) /\ fle (fadd (fst a) (snd a)) (fst b).

(** The anchor is a time, and the nodes started since [base] are in
    order and end by the anchor. *)
Definition scheduled_since (base : nat) (sch : list (double * double) * double) : Prop :=
  (base <= length (fst sch))%nat
  /\ is_time (snd sch) = true
  /\ ordered (drop base (fst sch))
  /\ Forall (fun a => fle (fst a) (snd sch) /\ fle (fadd (fst a) (snd a)) (snd sch))
       (drop base (fst sch)).

Definition no_interrupt (e : event) : Prop :=
  match e with
  | Message message _ => interrupted message = false
  | _ => True
  end.

(** The clock read by a message handler is a finite time. *)
Definition clocked (e : event) : Prop :=
  match e with
  | Message _ env => is_clock (currentTime env) = true
  | _ => True
  end.

(** ** Scenarios *)

(** Every request of [startSession] is granted; the stream has one track. *)
Definition granted : StartEnv := mkStartEnv (Ok tt) (Ok tt) (Ok 1%nat) (Ok tt).

(** The user refuses the microphone. *)
Definition denied : StartEnv :=
  mkStartEnv (Ok tt) (Ok tt) (Throw (Rejection (lit "NotAllowedError"))) (Ok tt).

Definition at_time (t : Q) : MessageEnv := mkMessageEnv (double_of_Q t) 0.

(** A model turn whose first part carries the payload [data]. *)
Definition playing (data : string) : option Content :=
  Some (mkContent (Some [mkPart (Some (lit data))])).

(** A model turn without [parts]. *)
Definition no_parts : option Content := Some (mkContent None).

Definition audio (data : string) : LiveServerMessage :=
  mkMessage None None (playing data) false false.

Definition heard (t : string) : LiveServerMessage :=
  mkMessage (Some (Some (lit t))) None None false false.

Definition said (t : string) : LiveServerMessage :=
  mkMessage None (Some (Some (lit t))) None false false.

Definition turn_complete : LiveServerMessage := mkMessage None None None true false.

Definition barge_in : LiveServerMessage := mkMessage None None None false true.

(** A backend that answers every request with [reply]. *)
Definition answering (reply : text) : jsstring -> jsstring -> result text :=
  fun _ _ => Ok reply.

(** * The second revision of the live component *)

(** The second revision of the file differs from the last one in its
    message handler: the output context is resumed when the platform has
    suspended it, the payload is decoded before the anchor is raised, the
    history update does not touch the status, and the status follows the
    active set. Its start and stop are those of [GuardedVariant]. *)

(** What the second revision reads while it handles a message: the clock
    and the date as before, whether the output context is suspended, and
    what [await ctx.resume()] answers. The handler is taken to run without
    another one in between. *)
Record MessageEnv2 : Type := mkMessageEnv2 {
  base : MessageEnv;
  suspended : bool;
  resume : result unit
}.

Definition handleAudioOutput2 (message : LiveServerMessage) (env : MessageEnv2) : M unit :=
  audioData ← lift (audioDataOf message);
  ctx ← gets (fun s => outputAudioContextRef (refs s));
  when (truthy audioData && bool_decide (is_Some ctx))
    (when (suspended env) (lift (resume env));;
     bytes ← lift (decode (default [] audioData));
     audioBuffer ← lift (decodeAudioData bytes 24000 1);
     next ← gets (fun s => nextStartTimeRef (refs s));
     set_nextStartTimeRef (Math_max next (currentTime (base env)));;
     next ← gets (fun s => nextStartTimeRef (refs s));
     source ← source_start next audioBuffer;
     set_nextStartTimeRef (fadd next (duration audioBuffer));;
     sources ← gets (fun s => sourcesRef (refs s));
     set_sourcesRef ({[source]} ∪ sources);;
     setStatus Taler).

Definition handleTurnComplete2 (render : ReactState)
    (message : LiveServerMessage) (env : MessageEnv2) : M unit :=
  when (turnComplete message)
    (when (truthy (transcript render) && truthy (translation render))
       (setHistory (fun prev =>
          mkHistoryItem (date (base env)) (transcript render) (translation render)
            (sourceLabel render) (LANGUAGE_NAMES (targetLang render)) :: prev))).

Definition handleInterrupted2 (message : LiveServerMessage) : M unit :=
  when (interrupted message)
    (sources ← gets (fun s => sourcesRef (refs s));
     forEach (elements sources) source_stop;;
     set_sourcesRef ∅;;
     set_nextStartTimeRef zero;;
     setStatus Lytter).

Definition onmessage2 (render : ReactState)
    (message : LiveServerMessage) (env : MessageEnv2) : M unit :=
  handleTranscriptions GuardedVariant message;;
  handleAudioOutput2 message env;;
  handleTurnComplete2 render message env;;
  handleInterrupted2 message.

(** [sourceNode.onended] of the second revision. *)
Definition onended2 (source : nat) : M unit :=
  sources ← gets (fun s => sourcesRef (refs s));
  set_sourcesRef (sources ∖ {[source]});;
  sources ← gets (fun s => sourcesRef (refs s));
  when (bool_decide (size sources = 0%nat)) (setStatus Lytter).

(** * The speech-recognition variant of [App] *)

(** The last component of the file recognizes speech locally, translates
    each final transcript with [translateText] and speaks the result. *)

(** The values of the [Language] enum of [types.ts]. *)
Definition languageTag (l : Language) : jsstring :=
  match l with
  | Danish => lit "da-DK"
  | English => lit "en-US"
  | German => lit "de-DE"
  | Turkish => lit "tr-TR"
  | Japanese => lit "ja-JP"
  end.

(** [s.startsWith(p)] *)
Fixpoint startsWith (s p : jsstring) : bool :=
  match p, s with
  | [], _ => true
  | c :: p', d :: s' => (c =? d)%N && startsWith s' p'
  | _ :: _, [] => false
  end.

(** [s.includes(sub)] *)
Fixpoint includes (s sub : jsstring) : bool :=
  startsWith s sub
  || match s with
     | [] => false
     | _ :: s' => includes s' sub
     end.

(** [s.split('-')[0]]: the part before the first hyphen. *)
Fixpoint beforeHyphen (s : jsstring) : jsstring :=
  match s with
  | [] => []
  | c :: s' => if (c =? 45)%N then [] else c :: beforeHyphen s'
  end.

(** A [SpeechSynthesisVoice]. *)
Record Voice : Type := mkVoice {
  voiceLang : jsstring;
  voiceName : jsstring
}.

(** The utterance handed to [speechSynthesis.speak]. *)
Record Utterance : Type := mkUtterance {
  utteranceText : jsstring;
  utteranceLang : jsstring;
  utteranceVoice : option Voice
}.

(** One entry of [event.results], with the transcript of its first
    alternative. *)
Record SpeechRecognitionResult : Type := mkSpeechResult {
  isFinal : bool;
  resultTranscript : jsstring
}.

Record SpeechRecognitionEvent : Type := mkSpeechEvent {
  resultIndex : nat;
  results : list SpeechRecognitionResult
}.

(** [for (let i = a; i < n; ++i) body] *)
Definition for_range {S : Type} (a n : nat) (body : nat -> S -> S) (init : S) : S :=
  fold_left (fun s i => body i s) (seq a (n - a)) init.

(** The loop of [recognition.onresult]: the interim and the final
    transcript of the event. *)
Definition collectTranscripts (event : SpeechRecognitionEvent) : jsstring * jsstring :=
  for_range (resultIndex event) (length (results event))
    (fun i acc =>
       match results event !! i with
       | Some r =>
           if isFinal r then (fst acc, snd acc ++ resultTranscript r)
           else (fst acc ++ resultTranscript r, snd acc)
       | None => acc
       end)
    ([], []).

Section SpeechVariant.

(** [String.prototype.toLowerCase], left to the platform. *)
Variable toLowerCase : jsstring -> jsstring.

(** The test of the first [voices.find] of [speak]. *)
Definition matchesGender (g : Gender) (v : Voice) : bool :=
  match g with
  | male => includes (toLowerCase (voiceName v)) (lit "male")
  | female => includes (toLowerCase (voiceName v)) (lit "female")
  end.

Definition matchesLanguage (targetLang : Language) (v : Voice) : bool :=
  startsWith (voiceLang v) (beforeHyphen (languageTag targetLang)).

(** The voice [speak] chooses: the first of the language and the gender,
    else the first of the language. *)
Definition pickVoice (targetLang : Language) (g : Gender) (voices : list Voice)
  : option Voice :=
  match List.find (fun v => matchesLanguage targetLang v && matchesGender g v) voices with
  | Some v => Some v
  | None => List.find (matchesLanguage targetLang) voices
  end.

(** [speak(text)], as created in the render [render]; [synthesis] is
    [None] when the platform has no speech synthesis, else the voices it
    offers. The result is the utterance spoken, if any. *)
Definition speak (render : ReactState) (synthesis : option (list Voice))
    (text : jsstring) : option Utterance :=
  match synthesis, text with
  | Some voices, _ :: _ =>
      Some (mkUtterance text (languageTag (targetLang render))
              (pickVoice (targetLang render) (gender render) voices))
  | _, _ => None
  end.

(** [recognition.onresult], as created by [startListening] in the
    render [render] with the model name [model]. The status
    ['Oversætter...'] is set while the translation is awaited. *)
Definition onresult (generateContent : jsstring -> jsstring -> result text)
    (render : ReactState) (model : jsstring) (synthesis : option (list Voice))
    (event : SpeechRecognitionEvent) (now : Z) : M (option Utterance) :=
  let interimTranscript := fst (collectTranscripts event) in
  let finalTranscript := snd (collectTranscripts event) in
  when (truthy (Some interimTranscript)) (setTranscript (fun _ => Some interimTranscript));;
  if truthy (Some finalTranscript) then
    setTranscript (fun _ => Some finalTranscript);;
    setStatus Oversaetter;;
    translated ← lift (translateText generateContent finalTranscript
                         (LANGUAGE_NAMES (targetLang render)) model);
    setTranslation (fun _ => Some translated);;
    setHistory (fun prev =>
      mkHistoryItem now (Some finalTranscript) (Some translated)
        (match sourceLang render with
         | None => lit "Auto-detected"
         | Some l => LANGUAGE_NAMES l
         end)
        (LANGUAGE_NAMES (targetLang render)) :: prev);;
    mret (speak render synthesis translated)
  else mret None.

End SpeechVariant.

(** * Further vocabulary *)

(** Every request of [startSession] is granted, the stream having [k]
    tracks. *)
Definition all_granted (env : StartEnv) (k : nat) : Prop :=
  resumeInput env = Ok tt /\ resumeOutput env = Ok tt
  /\ getUserMedia env = Ok k /\ connect env = Ok tt.

(** The turn-complete messages of a run. *)
Definition turns (es : list event) : nat :=
  length (List.filter (fun e => match e with
                                | Message message _ => turnComplete message
                                | _ => false
                                end) es).

(** The output context in use is open and is not the input context. *)
Definition output_kept (s : App) : Prop :=
  forall o, outputAudioContextRef (refs s) = Some o ->
    contexts (plat s) !! o = Some true
    /\ inputAudioContextRef (refs s) <> Some o.

(** The ways the audio part of a message of the second revision can end:
    as [audio_outcome], but a payload that does not decode leaves the
    anchor alone; only a start that is refused comes after the anchor was
    raised. *)
Inductive audio_outcome2 (env : MessageEnv2) (s : App) : result unit * App -> Prop :=
  | audio2_skipped : audio_outcome2 env s (Ok tt, s)
  | audio2_failed e : audio_outcome2 env s (Throw e, s)
  | audio2_refused e :
      accepted (Math_max (nextStartTimeRef (refs s)) (currentTime (base env))) = false ->
      audio_outcome2 env s
        (Throw e,
         mkApp (react s)
           (mkRefs (sessionRef (refs s)) (inputAudioContextRef (refs s))
              (outputAudioContextRef (refs s))
              (Math_max (nextStartTimeRef (refs s)) (currentTime (base env)))
              (sourcesRef (refs s)))
           (plat s))
  | audio2_scheduled d :
      is_time d = true ->
      let start := Math_max (nextStartTimeRef (refs s)) (currentTime (base env)) in
      let r := react s in
      let p := plat s in
      audio_outcome2 env s
        (Ok tt,
         mkApp
           (mkReact (sourceLang r) (targetLang r) (gender r) Taler (isRecording r)
              (transcript r) (translation r) (history r) (stream r))
           (mkRefs (sessionRef (refs s)) (inputAudioContextRef (refs s))
              (outputAudioContextRef (refs s)) (fadd start d)
              ({[length (nodes p)]} ∪ sourcesRef (refs s)))
           (mkPlatform (contexts p) (tracks p) (sessions p) (nodes p ++ [(start, d)])
              (calls p))).

(** The resources a message handler leaves alone. *)
Definition same_resources (s s' : App) : Prop :=
  contexts (plat s') = contexts (plat s)
  /\ tracks (plat s') = tracks (plat s)
  /\ sessions (plat s') = sessions (plat s)
  /\ sessionRef (refs s') = sessionRef (refs s)
  /\ inputAudioContextRef (refs s') = inputAudioContextRef (refs s)
  /\ outputAudioContextRef (refs s') = outputAudioContextRef (refs s)
  /\ stream (react s') = stream (react s)
  /\ isRecording (react s') = isRecording (react s).

(** The history is the old one, or the old one with one item in front. *)
Definition history_step (grows : bool) (h h' : list HistoryItem) : Prop :=
  h' = h \/ (grows = true /\ exists item, h' = item :: h).

(** * Proofs *)

Ltac euclid := cbv beta in *; zify; Z.to_euclidean_division_equations; lia.

(** ** Loops *)

Lemma for_loop_S {S : Type} (n : nat) (body : nat -> S -> S) (init : S) :
  for_loop (Datatypes.S n) body init = body n (for_loop n body init).
Proof. unfold for_loop. rewrite seq_S, fold_left_app. reflexivity. Qed.

(** Filling an array slot by slot, each store reading the slot it
    replaces: stores past the end are dropped. *)
Lemma for_loop_fill_read {A : Type} (h : nat -> A -> A) (d0 d : A) (L K : nat) :
  for_loop K (fun i a => <[i := h i (default d0 (a !! i))]> a) (replicate L d)
  = map (fun i => h i d) (seq 0 (Nat.min K L)) ++ replicate (L - K) d.
Proof.
  induction K as [|K IH].
  - simpl. rewrite Nat.sub_0_r. reflexivity.
  - rewrite for_loop_S, IH. destruct (decide (K < L)%nat) as [Hlt|Hge].
    + replace (Nat.min K L) with K by lia.
      replace (Nat.min (S K) L) with (S K) by lia.
      replace (L - K)%nat with (S (L - S K)) by lia.
      rewrite seq_S, map_app, <- app_assoc. simpl.
      rewrite lookup_app_r by (rewrite length_map, length_seq; lia).
      rewrite insert_app_r_alt by (rewrite length_map, length_seq; lia).
      rewrite length_map, length_seq, Nat.sub_diag. reflexivity.
    + replace (Nat.min K L) with L by lia.
      replace (Nat.min (S K) L) with L by lia.
      replace (L - K)%nat with 0%nat by lia.
      replace (L - S K)%nat with 0%nat by lia.
      apply list_insert_ge. rewrite length_app, length_map, length_seq. simpl. lia.
Qed.

Lemma for_loop_fill_all {A : Type} (g : nat -> A) (d : A) (L K : nat) :
  (L <= K)%nat ->
  for_loop K (fun i a => <[i := g i]> a) (replicate L d) = map g (seq 0 L).
Proof.
  intros H. rewrite (for_loop_fill_read (fun i _ => g i) d d).
  replace (Nat.min K L) with L by lia. replace (L - K)%nat with 0%nat by lia.
  apply app_nil_r.
Qed.

Lemma map_lookup_seq {A B : Type} (f : option A -> B) (l : list A) :
  map (fun i => f (l !! i)) (seq 0 (length l)) = map (fun x => f (Some x)) l.
Proof.
  apply list_eq. intros i. rewrite !list_lookup_fmap.
  destruct (l !! i) as [x|] eqn:E; simpl.
  - rewrite lookup_seq_lt by (eapply lookup_lt_Some; eauto). simpl. rewrite E. reflexivity.
  - rewrite lookup_seq_ge by (apply lookup_ge_None; auto). reflexivity.
Qed.

Lemma for_loop_append {A B : Type} (f : option A -> list B) (l : list A) (n : nat) :
  for_loop n (fun i acc => acc ++ f (l !! i)) [] = flat_map (fun i => f (l !! i)) (seq 0 n).
Proof.
  induction n as [|n IH]; [reflexivity|].
  rewrite for_loop_S, IH, seq_S, flat_map_app. simpl. rewrite app_nil_r. reflexivity.
Qed.

(** ** Base64 *)

Module Base64Facts.
Import Base64.
Local Open Scope N_scope.

(** Induction over a list three elements at a time. *)
Lemma list_ind3 {A : Type} (P : list A -> Prop) :
  P [] -> (forall a, P [a]) -> (forall a b, P [a; b]) ->
  (forall a b c l, P l -> P (a :: b :: c :: l)) ->
  forall l, P l.
Proof.
  intros H0 H1 H2 H3 l.
  assert (H : P l /\ (forall a, P (a :: l)) /\ (forall a b, P (a :: b :: l))).
  { induction l as [|x l (IHa & IHb & IHc)]; [auto|].
    split; [apply IHb|]. split; [intros a; apply IHc|].
    intros a b. apply H3, IHa. }
  apply H.
Qed.

Lemma padding_step (a b c : N) (l : list N) : padding (a :: b :: c :: l) = padding l.
Proof.
  unfold padding. replace (length (a :: b :: c :: l)) with (length l + 1 * 3)%nat
    by (simpl; lia).
  rewrite Nat.Div0.mod_add. reflexivity.
Qed.

Lemma encode_units_sextets (l : list N) :
  encode_units l = map char_of (sextets l) ++ replicate (padding l) pad.
Proof.
  induction l as [|a|a b|a b c l IH] using list_ind3; try reflexivity.
  rewrite padding_step. cbn [encode_units sextets map app]. rewrite IH. reflexivity.
Qed.

Lemma sextets_small (l : list N) :
  Forall (fun c => c <= 255) l -> Forall (fun i => i < 64) (sextets l).
Proof.
  induction l as [|a|a b|a b c l IH] using list_ind3; intros H; cbn [sextets].
  - constructor.
  - inversion_clear H. repeat apply Forall_cons_2; try apply Forall_nil_2; euclid.
  - inversion_clear H as [|? ? Ha H']. inversion_clear H' as [|? ? Hb _].
    repeat apply Forall_cons_2; try apply Forall_nil_2; euclid.
  - inversion_clear H as [|? ? Ha H']. inversion_clear H' as [|? ? Hb H''].
    inversion_clear H'' as [|? ? Hc Hl].
    repeat (apply Forall_cons_2; [euclid|]). auto.
Qed.

Lemma decode_units_sextets (l : list N) :
  Forall (fun c => c <= 255) l -> decode_units (sextets l) = l.
Proof.
  induction l as [|a|a b|a b c l IH] using list_ind3; intros H; cbn [sextets].
  - reflexivity.
  - inversion_clear H. cbn [decode_units]. f_equal. euclid.
  - inversion_clear H as [|? ? Ha H']. inversion_clear H' as [|? ? Hb _].
    cbn [decode_units]. f_equal; [|f_equal]; euclid.
  - inversion_clear H as [|? ? Ha H']. inversion_clear H' as [|? ? Hb H''].
    inversion_clear H'' as [|? ? Hc Hl].
    cbn [decode_units]. rewrite IH by assumption.
    f_equal; [|f_equal; [|f_equal]]; euclid.
Qed.

Lemma sextets_length (l : list N) :
  ((length (sextets l) + padding l) mod 4 = 0
   /\ length (sextets l) mod 4 <> 1 /\ padding l <= 2)%nat.
Proof.
  induction l as [|a|a b|a b c l IH] using list_ind3;
    try (cbn; repeat split; lia).
  rewrite padding_step. cbn [sextets length].
  destruct IH as (IH1 & IH2 & IH3).
  replace (S (S (S (S (length (sextets l))))))
    with (length (sextets l) + 1 * 4)%nat by lia.
  replace (length (sextets l) + 1 * 4 + padding l)%nat
    with (length (sextets l) + padding l + 1 * 4)%nat by lia.
  rewrite !Nat.Div0.mod_add. auto.
Qed.

(** A fact about all six-bit values, checked on each of them. *)
Lemma all_sextets (P : N -> bool) :
  forallb P (map N.of_nat (seq 0 64)) = true -> forall i, i < 64 -> P i = true.
Proof.
  intros H i Hi. rewrite forallb_forall in H. apply H.
  apply in_map_iff. exists (N.to_nat i). split; [lia|].
  apply in_seq. lia.
Qed.

Lemma index_of_char_of (i : N) : i < 64 -> index_of (char_of i) = Some i.
Proof.
  intros Hi.
  pose proof (all_sextets
    (fun i => bool_decide (index_of (char_of i) = Some i)) eq_refl i Hi) as H.
  apply bool_decide_eq_true in H. exact H.
Qed.

Lemma char_of_plain (i : N) :
  i < 64 -> is_ascii_whitespace (char_of i) = false /\ char_of i <> pad.
Proof.
  intros Hi.
  pose proof (all_sextets
    (fun i => negb (is_ascii_whitespace (char_of i)) && negb (char_of i =? pad))
    eq_refl i Hi) as H.
  apply andb_true_iff in H. destruct H as [H1 H2].
  apply negb_true_iff in H1, H2. apply N.eqb_neq in H2. auto.
Qed.

Lemma encode_units_plain (sx : list N) (k : nat) :
  Forall (fun i => i < 64) sx ->
  List.filter (fun c => negb (is_ascii_whitespace c)) (map char_of sx ++ replicate k pad)
  = map char_of sx ++ replicate k pad.
Proof.
  intros H. apply forallb_filter_id, forallb_forall. intros c Hc.
  apply in_app_or in Hc. destruct Hc as [Hc|Hc].
  - apply in_map_iff in Hc. destruct Hc as (i & <- & Hi).
    rewrite Forall_forall in H. apply list_elem_of_In, H, char_of_plain in Hi.
    destruct Hi as [-> _]. reflexivity.
  - apply list_elem_of_In, elem_of_replicate in Hc. destruct Hc as [-> _]. reflexivity.
Qed.

Lemma ends_with_pad_chars (sx : list N) :
  Forall (fun i => i < 64) sx -> ends_with_pad (map char_of sx) = false.
Proof.
  intros H. unfold ends_with_pad. apply bool_decide_eq_false.
  destruct sx as [|x sx _] using rev_ind; [discriminate|].
  rewrite map_app. simpl. rewrite last_snoc. intros [=E].
  apply Forall_app in H. destruct H as [_ H]. inversion_clear H as [|? ? Hx _].
  apply char_of_plain in Hx. destruct Hx as [_ Hx]. auto.
Qed.

Lemma ends_with_pad_snoc (d : list N) : ends_with_pad (d ++ [pad]) = true.
Proof. unfold ends_with_pad. rewrite last_snoc. apply bool_decide_eq_true. reflexivity. Qed.

Lemma strip_padding_chars (sx : list N) (k : nat) :
  Forall (fun i => i < 64) sx -> (k <= 2)%nat ->
  ((length sx + k) mod 4 = 0)%nat ->
  strip_padding (map char_of sx ++ replicate k pad) = map char_of sx.
Proof.
  intros H Hk Hlen. unfold strip_padding.
  assert (Hmod : (N.of_nat (length (map char_of sx ++ replicate k pad)) mod 4 =? 0) = true).
  { rewrite length_app, length_map, length_replicate. apply N.eqb_eq. euclid. }
  rewrite Hmod. clear Hmod Hlen.
  destruct k as [|[|[|k]]]; [| | |lia]; cbn [replicate].
  - rewrite app_nil_r, ends_with_pad_chars by assumption. reflexivity.
  - rewrite ends_with_pad_snoc. cbn [andb]. rewrite removelast_last.
    rewrite ends_with_pad_chars by assumption. reflexivity.
  - change [pad; pad] with ([pad] ++ [pad]). rewrite app_assoc.
    rewrite ends_with_pad_snoc. cbn [andb]. rewrite removelast_last.
    rewrite ends_with_pad_snoc, removelast_last. reflexivity.
Qed.

Lemma mapM_index_of_chars (sx : list N) :
  Forall (fun i => i < 64) sx -> mapM index_of (map char_of sx) = Some sx.
Proof.
  induction 1 as [|i sx Hi _ IH]; [reflexivity|].
  cbn [map mapM]. rewrite index_of_char_of by assumption. cbn.
  rewrite IH. reflexivity.
Qed.

(** [atob] undoes [btoa] on every binary string. *)
Lemma atob_btoa (s : jsstring) :
  Forall (fun c => c <= 255) s ->
  btoa s = Ok (encode_units s) /\ atob (encode_units s) = Ok s.
Proof.
  intros H. split.
  - unfold btoa. replace (forallb (fun c => c <=? 255) s) with true; [reflexivity|].
    symmetry. apply forallb_forall. intros c Hc. apply N.leb_le.
    rewrite Forall_forall in H. apply H, list_elem_of_In, Hc.
  - pose proof (sextets_small s H) as Hsx.
    destruct (sextets_length s) as (Hlen & Hrem & Hpad).
    unfold atob. rewrite encode_units_sextets, encode_units_plain by assumption.
    rewrite strip_padding_chars by assumption.
    replace (N.of_nat (length (map char_of (sextets s))) mod 4 =? 1) with false.
    + rewrite mapM_index_of_chars by assumption.
      rewrite decode_units_sextets by assumption. reflexivity.
    + symmetry. apply N.eqb_neq. rewrite length_map. euclid.
Qed.

End Base64Facts.

(** ** The byte layer of the codec *)

Lemma to_N_small (b : byte) : (Byte.to_N b <= 255)%N.
Proof. apply Byte.to_N_bounded. Qed.

Lemma ToUint8_to_N (b : byte) : ToUint8 (Some (Byte.to_N b)) = b.
Proof.
  unfold ToUint8. pose proof (to_N_small b).
  rewrite N.mod_small by lia. rewrite Byte.of_to_N. reflexivity.
Qed.

Lemma encode_binary (bytes : list byte) :
  encode bytes = Base64.btoa (map Byte.to_N bytes).
Proof.
  unfold encode. f_equal.
  rewrite (for_loop_append (fun o => fromCharCode (Byte.to_N (default x00 o)))).
  rewrite flat_map_concat_map.
  rewrite (map_lookup_seq (fun o => fromCharCode (Byte.to_N (default x00 o)))).
  induction bytes as [|b bytes IH]; [reflexivity|].
  cbn [map concat]. rewrite IH. unfold fromCharCode, default, id. cbn [from_option app].
  pose proof (to_N_small b). rewrite N.mod_small by lia. reflexivity.
Qed.

Lemma binary_small (bytes : list byte) :
  Forall (fun c => (c <= 255)%N) (map Byte.to_N bytes).
Proof.
  apply Forall_forall. intros c Hc. apply list_elem_of_fmap in Hc.
  destruct Hc as (b & -> & _). apply to_N_small.
Qed.

Lemma decode_binary (bytes : list byte) :
  decode (Base64.encode_units (map Byte.to_N bytes)) = Ok bytes.
Proof.
  unfold decode.
  destruct (Base64Facts.atob_btoa _ (binary_small bytes)) as [_ ->]. cbn.
  f_equal. rewrite for_loop_fill_all by lia. unfold charCodeAt.
  rewrite (map_lookup_seq ToUint8), map_map.
  induction bytes as [|b bytes IH]; [reflexivity|].
  cbn [map]. rewrite ToUint8_to_N, IH. reflexivity.
Qed.

(** The transport hands back the bytes it was given. *)
Lemma transport_lossless (b : list byte) :
  exists base64, encode b = Ok base64 /\ decode base64 = Ok b.
Proof.
  exists (Base64.encode_units (map Byte.to_N b)). split.
  - rewrite encode_binary. apply Base64Facts.atob_btoa, binary_small.
  - apply decode_binary.
Qed.

(** C10. For every byte array [b], [decode(encode(b))] returns a byte
    array equal to [b]: neither call throws, and the base64 transport is
    lossless. *)
Theorem decode_encode (b : list byte) : encode b ≫= decode = Ok b.
Proof.
  destruct (transport_lossless b) as (base64 & -> & E). exact E.
Qed.

(** ** The sample layer of the codec *)

Lemma Z_of_byte_of_Z (x : Z) : 0 <= x < 256 -> Z_of_byte (byte_of_Z x) = x.
Proof.
  intros H. unfold Z_of_byte, byte_of_Z.
  destruct (Byte.of_N (Z.to_N x)) as [b|] eqn:E.
  - apply Byte.to_of_N in E. cbn. lia.
  - apply Byte.of_N_None_iff in E. lia.
Qed.

Lemma ToInt16_range (x : Q) : int16 (ToInt16 x).
Proof.
  unfold int16, ToInt16. cbv zeta.
  destruct (Z.leb_spec 32768 (Z.quot (Qnum x) (Z.pos (Qden x)) mod 65536)); euclid.
Qed.

Lemma Uint8Array_cons (z : Z) (l : list Z) :
  Uint8Array_of_Int16Array (z :: l)
  = byte_of_Z (z mod 65536 mod 256) :: byte_of_Z (z mod 65536 / 256)
    :: Uint8Array_of_Int16Array l.
Proof. reflexivity. Qed.

(** Reading the bytes of an [Int16Array] back gives its elements. *)
Lemma int16_pairs_bytes (l : list Z) :
  Forall int16 l -> int16_pairs (Uint8Array_of_Int16Array l) = l.
Proof.
  induction 1 as [|z l Hz _ IH]; [reflexivity|].
  rewrite Uint8Array_cons. cbn [int16_pairs]. rewrite IH.
  f_equal. unfold int16_le, int16 in *.
  rewrite !Z_of_byte_of_Z by euclid.
  destruct (Z.leb_spec 32768 (z mod 65536 mod 256 + 256 * (z mod 65536 / 256))); euclid.
Qed.

Lemma Uint8Array_length (l : list Z) :
  length (Uint8Array_of_Int16Array l) = (2 * length l)%nat.
Proof.
  induction l as [|z l IH]; [reflexivity|].
  rewrite Uint8Array_cons. cbn [length]. rewrite IH. lia.
Qed.

Lemma int16_pairs_length (buf : list byte) :
  length (int16_pairs buf) = (length buf / 2)%nat.
Proof.
  assert (H : length (int16_pairs buf) = (length buf / 2)%nat
              /\ forall a, length (int16_pairs (a :: buf)) = (S (length buf) / 2)%nat).
  { induction buf as [|b buf [IH1 IH2]]; [split; reflexivity|].
    split; [apply IH2|]. intros a. cbn [int16_pairs length]. rewrite IH1.
    clear. euclid. }
  apply H.
Qed.

(** *** [decodeAudioData] *)

Lemma for_loop_channels (rate : Q) (f : nat -> list num -> list num) (n : nat)
    (chans : list (list num)) :
  for_loop n
    (fun channel buffer =>
       mkAudioBuffer (sampleRate buffer)
         (<[channel := f channel (default [] (channels buffer !! channel))]>
            (channels buffer)))
    (mkAudioBuffer rate chans)
  = mkAudioBuffer rate
      (for_loop n (fun channel a => <[channel := f channel (default [] (a !! channel))]> a)
         chans).
Proof.
  induction n as [|n IH]; [reflexivity|].
  rewrite !for_loop_S, IH. reflexivity.
Qed.

(** The length [createBuffer] gives the buffer: the whole frames. *)
Lemma frameCount_trunc (a n : nat) :
  (0 < n)%nat ->
  Z.to_nat (Z.quot (Qnum (frameCountOf a n)) (Zpos (Qden (frameCountOf a n))))
  = (a / n)%nat.
Proof.
  intros Hn. unfold frameCountOf, Qdiv, Qinv, inject_Z. cbn [Qnum].
  destruct (Z.of_nat n) as [|p|p] eqn:E; [lia| |lia].
  cbn [Qmult Qnum Qden]. rewrite Z.mul_1_r, Pos.mul_1_l, <- E. clear E.
  rewrite Z.quot_div_nonneg by lia. rewrite <- Nat2Z.inj_div. apply Nat2Z.id.
Qed.

(** The loop over the frames visits every whole frame. *)
Lemma frameCount_iterations (a n : nat) :
  (0 < n)%nat -> (a / n <= iterations (frameCountOf a n))%nat.
Proof.
  intros Hn. unfold iterations, Qceiling, Qfloor, frameCountOf, Qdiv, Qinv, inject_Z.
  cbn [Qnum].
  destruct (Z.of_nat n) as [|p|p] eqn:E; [lia| |lia].
  cbn [Qmult Qnum Qden Qopp]. rewrite Z.mul_1_r, Pos.mul_1_l, <- E. clear E.
  pose proof (Nat.Div0.mul_div_le a n) as Hq.
  assert (Hle : - Z.of_nat a <= (- Z.of_nat (a / n)) * Z.of_nat n) by nia.
  apply (Z.div_le_mono _ _ (Z.of_nat n)) in Hle; [|lia].
  rewrite Z.div_mul in Hle by lia. lia.
Qed.

(** An even number of bytes holding at least one frame decodes to the
    planar layout of its samples. *)
Lemma decodeAudioData_planar (data : list byte) (rate : Q) (n : nat) :
  Nat.even (length data) = true -> (0 < n)%nat -> (2 * n <= length data)%nat ->
  decodeAudioData data rate n = Ok (mkAudioBuffer rate (planar (int16_pairs data) n)).
Proof.
  intros Heven Hn Hlen. unfold decodeAudioData, Int16Array_of_buffer.
  rewrite Heven. cbn [mbind result_bind].
  assert (Hframes : (0 < length (int16_pairs data) / n)%nat).
  { rewrite int16_pairs_length. apply Nat.div_str_pos. split; [assumption|].
    apply Nat.div_le_lower_bound; lia. }
  unfold createBuffer. rewrite frameCount_trunc by assumption.
  replace (n =? 0)%nat with false by (symmetry; apply Nat.eqb_neq; lia).
  replace (length (int16_pairs data) / n =? 0)%nat with false
    by (symmetry; apply Nat.eqb_neq; lia).
  cbn [orb mbind result_bind mret result_ret]. f_equal.
  rewrite (for_loop_channels rate (fill_channel (int16_pairs data) n)). f_equal.
  rewrite (for_loop_fill_read (fill_channel (int16_pairs data) n) []).
  replace (Nat.min n n) with n by lia. rewrite Nat.sub_diag, app_nil_r.
  unfold planar. apply map_ext. intros c. unfold fill_channel.
  apply for_loop_fill_all, frameCount_iterations. assumption.
Qed.

Lemma decodeAudioData_odd (data : list byte) (rate : Q) (n : nat) :
  Nat.odd (length data) = true -> decodeAudioData data rate n = Throw RangeError.
Proof.
  intros H. unfold decodeAudioData, Int16Array_of_buffer.
  rewrite <- Nat.negb_odd, H. reflexivity.
Qed.

(** Fewer bytes than one frame: the buffer would be empty. *)
Lemma decodeAudioData_short (data : list byte) (rate : Q) (n : nat) :
  Nat.even (length data) = true -> (0 < n)%nat -> (length data < 2 * n)%nat ->
  decodeAudioData data rate n = Throw NotSupportedError.
Proof.
  intros Heven Hn Hlen. unfold decodeAudioData, Int16Array_of_buffer.
  rewrite Heven. cbn [mbind result_bind].
  unfold createBuffer. rewrite frameCount_trunc by assumption.
  replace (length (int16_pairs data) / n =? 0)%nat with true.
  - rewrite orb_true_r. reflexivity.
  - symmetry. apply Nat.eqb_eq. rewrite int16_pairs_length.
    apply Nat.div_small. apply Nat.Div0.div_lt_upper_bound. lia.
Qed.

(** Every sample of the planar layout is a 16-bit value over 32768. *)
Lemma planar_sample (l : list Z) (n c i : nat) :
  (c < n)%nat -> (i < length l / n)%nat ->
  exists z, l !! (i * n + c)%nat = Some z
            /\ planar l n !! c ≫= (fun ch => ch !! i) = Some (Fin (inject_Z z / 32768)).
Proof.
  intros Hc Hi.
  assert (Hlt : (i * n + c < length l)%nat).
  { pose proof (Nat.Div0.mul_div_le (length l) n). nia. }
  destruct (lookup_lt_is_Some_2 l _ Hlt) as [z Hz]. exists z. split; [exact Hz|].
  unfold planar. rewrite list_lookup_fmap, lookup_seq_lt by assumption. cbn.
  rewrite list_lookup_fmap, lookup_seq_lt by assumption. cbn. rewrite Hz. reflexivity.
Qed.

Lemma planar_mono (l : list Z) :
  planar l 1 = [map (fun z => Fin (inject_Z z / 32768)) l].
Proof.
  unfold planar. cbn [seq map]. rewrite Nat.div_1_r. f_equal.
  rewrite <- (map_lookup_seq sample_of). apply map_ext. intros i.
  rewrite Nat.mul_1_r, Nat.add_0_r. reflexivity.
Qed.

(** C7, amended. [decodeAudioData] throws a RangeError whenever the byte
    length is odd, and a NotSupportedError when an even length holds less
    than one frame; on every other input, a multiple of 2 x channels or
    not, it returns the planar buffer of the whole frames, each sample a
    16-bit value divided by 32768. *)
Theorem decodeAudioData_spec (data : list byte) (rate : Q) (n : nat) :
  (Nat.odd (length data) = true -> decodeAudioData data rate n = Throw RangeError)
  /\ (Nat.even (length data) = true -> (0 < n)%nat -> (length data < 2 * n)%nat ->
      decodeAudioData data rate n = Throw NotSupportedError)
  /\ (Nat.even (length data) = true -> (0 < n)%nat -> (2 * n <= length data)%nat ->
      decodeAudioData data rate n = Ok (mkAudioBuffer rate (planar (int16_pairs data) n))
      /\ forall c i, (c < n)%nat -> (i < length data / (2 * n))%nat ->
           exists z, int16_pairs data !! (i * n + c)%nat = Some z
                     /\ planar (int16_pairs data) n !! c ≫= (fun ch => ch !! i)
                        = Some (Fin (inject_Z z / 32768))).
Proof.
  split; [apply decodeAudioData_odd|]. split; [apply decodeAudioData_short|].
  intros Heven Hn Hlen. split; [apply decodeAudioData_planar; assumption|].
  intros c i Hc Hi. apply planar_sample; [assumption|].
  rewrite int16_pairs_length, Nat.Div0.div_div. exact Hi.
Qed.

Lemma decodeAudioData_spec_witness :
  decodeAudioData [x01; x00; xff; xff; x00; x80; xff; x7f] 24000 2
  = Ok (mkAudioBuffer 24000
          (planar (int16_pairs [x01; x00; xff; xff; x00; x80; xff; x7f]) 2)).
Proof.
  apply (decodeAudioData_spec [x01; x00; xff; xff; x00; x80; xff; x7f] 24000 2);
    [reflexivity|lia|simpl; lia].
Defined.

(** C7: six bytes on two channels are one frame and a half; the call
    succeeds and drops the half. *)
Lemma decodeAudioData_partial_frame :
  (length [x01; x00; x02; x00; x03; x00] mod (2 * 2) <> 0)%nat
  /\ decodeAudioData [x01; x00; x02; x00; x03; x00] 24000 2
     = Ok (mkAudioBuffer 24000 [[Fin (1 # 32768)]; [Fin (2 # 32768)]])
  /\ (forall e, decodeAudioData [x01; x00; x02; x00; x03; x00] 24000 2 <> Throw e).
Proof. split; [discriminate|]. split; [reflexivity|discriminate]. Qed.

(** *** The round trip of a frame *)

Lemma trunc_bounds (a b : Z) :
  0 < b ->
  b * Z.quot a b <= a < b * Z.quot a b + b \/ b * Z.quot a b - b < a <= b * Z.quot a b.
Proof.
  intros Hb. pose proof (Z.quot_rem' a b) as E.
  destruct (Z_le_gt_dec 0 a) as [Ha|Ha].
  - left. pose proof (Z.rem_bound_pos a b Ha Hb). lia.
  - right. pose proof (Z.rem_bound_neg_pos a b) as Hr. lia.
Qed.

(** Below full scale nothing wraps: the value sent is the truncation. *)
Lemma ToInt16_in_range (x : Q) :
  (-1 <= x)%Q -> (x < 1)%Q ->
  ToInt16 (x * 32768) = Z.quot (Qnum x * 32768) (Zpos (Qden x)).
Proof.
  destruct x as [p q]. unfold Qle, Qlt, ToInt16. cbn [Qnum Qden Qmult].
  rewrite Pos.mul_1_r. intros Hlo Hhi.
  pose proof (trunc_bounds (p * 32768) (Zpos q) ltac:(lia)) as Ht.
  set (t := Z.quot (p * 32768) (Z.pos q)) in *.
  assert (Hr : -32768 <= t <= 32767) by nia.
  cbv zeta. destruct (Z.leb_spec 32768 (t mod 65536)); euclid.
Qed.

Lemma quantize_error (x : Q) :
  (-1 <= x)%Q -> (x < 1)%Q -> (Qabs (quantize x - x) <= 1 # 32768)%Q.
Proof.
  intros Hlo Hhi. unfold quantize. rewrite ToInt16_in_range by assumption.
  destruct x as [p q]. cbn [Qnum Qden].
  pose proof (trunc_bounds (p * 32768) (Zpos q) ltac:(lia)) as Ht.
  set (t := Z.quot (p * 32768) (Z.pos q)) in *.
  apply Qabs_Qle_condition.
  unfold Qle, Qminus, Qplus, Qopp, Qdiv, Qinv, Qmult, inject_Z. cbn [Qnum Qden].
  rewrite ?Pos.mul_1_l, ?Pos.mul_1_r, ?Z.mul_1_r, ?Pos2Z.inj_mul.
  split; nia.
Qed.

Lemma onaudioprocess_bytes (samples : list Q) :
  onaudioprocess samples
  = encode (Uint8Array_of_Int16Array (map (fun x => ToInt16 (x * 32768)) samples)).
Proof.
  unfold onaudioprocess. do 2 f_equal.
  rewrite (for_loop_fill_all
             (fun i => ToInt16 (default 0%Q (samples !! i) * 32768))) by lia.
  apply (map_lookup_seq (fun o => ToInt16 (default 0%Q o * 32768))).
Qed.

(** A frame comes back as its quantized samples. *)
Lemma roundtrip_quantize (samples : list Q) :
  samples <> [] ->
  roundtrip samples = Ok (mkAudioBuffer 24000 [map (fun x => Fin (quantize x)) samples]).
Proof.
  intros Hne. unfold roundtrip. rewrite onaudioprocess_bytes.
  set (int16s := map (fun x => ToInt16 (x * 32768)) samples).
  destruct (transport_lossless (Uint8Array_of_Int16Array int16s)) as (pcm & -> & Hrt).
  cbn [mbind result_bind]. rewrite Hrt. cbn [mbind result_bind].
  assert (Hlen : length int16s = length samples) by apply length_map.
  rewrite decodeAudioData_planar.
  - rewrite int16_pairs_bytes, planar_mono.
    + unfold int16s. rewrite map_map. reflexivity.
    + apply Forall_forall. intros z Hz. apply list_elem_of_fmap in Hz.
      destruct Hz as (x & -> & _). apply ToInt16_range.
  - rewrite Uint8Array_length. apply Nat.even_spec. exists (length int16s). lia.
  - lia.
  - rewrite Uint8Array_length, Hlen. destruct samples; [congruence|]. cbn [length]. lia.
Qed.

(** C6, amended. For every non-empty sequence of samples each in
    [-1, 1), encoding followed by decoding yields a sample sequence of the
    same length whose per-sample absolute error is at most 1/32768. *)
Theorem roundtrip_error (samples : list Q) :
  samples <> [] ->
  Forall (fun x => (-1 <= x)%Q /\ (x < 1)%Q) samples ->
  exists out,
    roundtrip samples = Ok (mkAudioBuffer 24000 [map Fin out])
    /\ length out = length samples
    /\ Forall2 (fun x y => (Qabs (y - x) <= 1 # 32768)%Q) samples out.
Proof.
  intros Hne Hrange. exists (map quantize samples). split; [|split].
  - rewrite roundtrip_quantize by assumption. rewrite map_map. reflexivity.
  - apply length_map.
  - apply Forall2_fmap_r, Forall_Forall2_diag.
    eapply Forall_impl; [exact Hrange|]. intros x [Hlo Hhi].
    apply quantize_error; assumption.
Qed.

Lemma roundtrip_error_witness :
  exists out,
    roundtrip [(1 # 2)%Q; (-1)%Q] = Ok (mkAudioBuffer 24000 [map Fin out])
    /\ length out = 2%nat
    /\ Forall2 (fun x y => (Qabs (y - x) <= 1 # 32768)%Q) [(1 # 2)%Q; (-1)%Q] out.
Proof.
  apply (roundtrip_error [(1 # 2)%Q; (-1)%Q]).
  - discriminate.
  - repeat apply Forall_cons_2; try apply Forall_nil_2; split; unfold Qle, Qlt; simpl; lia.
Defined.

(** C6: the full-scale sample 1 scales to 32768, which wraps to -32768
    and comes back as -1. *)
Lemma roundtrip_full_scale :
  Forall (fun x => (-1 <= x)%Q /\ (x <= 1)%Q) [1%Q]
  /\ roundtrip [1%Q] = Ok (mkAudioBuffer 24000 [[Fin (-32768 # 32768)]])
  /\ ~ (Qabs ((-32768 # 32768) - 1) <= 1 # 32768)%Q.
Proof.
  split; [|split].
  - apply Forall_cons_2; [|apply Forall_nil_2]. split; unfold Qle; simpl; lia.
  - vm_compute. reflexivity.
  - unfold Qle. simpl. lia.
Qed.

(** ** Cleanup: [stopSession] *)

Lemma forEach_track_stop (st : MediaStream) (s : App) :
  forEach st track_stop s
  = (Ok tt,
     mkApp (react s) (refs s)
       (mkPlatform (contexts (plat s)) (stop_all st (tracks (plat s))) (sessions (plat s))
          (nodes (plat s)) (calls (plat s) ++ map TrackStop st))).
Proof.
  revert s. induction st as [|t st IH]; intros [r f [c tr se n cl]].
  - cbn. rewrite app_nil_r. reflexivity.
  - cbn [forEach]. unfold mbind, M_bind. cbn [track_stop modify_plat modify].
    rewrite IH. cbn. rewrite <- app_assoc. reflexivity.
Qed.

Lemma stop_all_lookup (st : MediaStream) (tr : list bool) (i : nat) :
  stop_all st tr !! i = (fun b => if bool_decide (i ∈ st) then false else b) <$> tr !! i.
Proof.
  revert tr. induction st as [|t st IH]; intros tr; cbn [stop_all fold_left].
  - destruct (tr !! i); reflexivity.
  - fold (stop_all st (<[t := false]> tr)). rewrite IH.
    destruct (decide (i = t)) as [->|Hne].
    + rewrite (bool_decide_eq_true_2 (t ∈ t :: st)) by apply list_elem_of_here.
      destruct (decide (t < length tr)%nat) as [Hlt|Hge].
      * rewrite list_lookup_insert_eq by assumption.
        destruct (lookup_lt_is_Some_2 tr t Hlt) as [b ->]. cbn.
        case_bool_decide; reflexivity.
      * rewrite list_insert_ge by lia. rewrite (lookup_ge_None_2 tr t) by lia. reflexivity.
    + rewrite list_lookup_insert_ne by auto.
      rewrite (bool_decide_ext (i ∈ t :: st) (i ∈ st)); [reflexivity|].
      rewrite elem_of_cons. tauto.
Qed.

(** Stopping ended tracks changes nothing. *)
Lemma stop_all_idemp (st : MediaStream) (tr : list bool) :
  stop_all st (stop_all st tr) = stop_all st tr.
Proof.
  apply list_eq. intros i. rewrite !stop_all_lookup.
  destruct (tr !! i); [|reflexivity]. cbn.
  case_bool_decide; reflexivity.
Qed.

(** What [stopSession] does, in one step. *)
Lemma stopSession_eq (render : ReactState) (s : App) :
  stopSession render s
  = (Ok tt,
     let p := plat s in
     let r := react s in
     let st := default [] (stream render) in
     mkApp
       (mkReact (sourceLang r) (targetLang r) (gender r) Klar false (transcript r)
          (translation r) (history r)
          (match stream render with Some _ => None | None => stream r end))
       (mkRefs None None (outputAudioContextRef (refs s)) (nextStartTimeRef (refs s))
          (sourcesRef (refs s)))
       (mkPlatform
          (match inputAudioContextRef (refs s) with
           | Some c => <[c := false]> (contexts p)
           | None => contexts p
           end)
          (stop_all st (tracks p))
          (match sessionRef (refs s) with
           | Some h => <[h := false]> (sessions p)
           | None => sessions p
           end)
          (nodes p)
          (calls p
           ++ match sessionRef (refs s) with Some h => [SessionClose h] | None => [] end
           ++ map TrackStop st
           ++ match inputAudioContextRef (refs s) with
              | Some c => [ContextClose c]
              | None => []
              end))).
Proof.
  destruct s as [r [se ic oc nx so] [c tr ss n cl]].
  unfold stopSession, mbind, M_bind.
  destruct se as [h|], (stream render) as [st|], ic as [i|];
    cbn -[forEach]; rewrite ?forEach_track_stop; cbn;
    rewrite ?app_nil_r, <- ?app_assoc; reflexivity.
Qed.

(** C8, amended. Calling [stopSession] twice in a row produces no error
    and leaves the state, the refs and every platform object as the first
    call left them; on the session handle and the input audio context the
    second call performs no release. The media stream is the one its
    callback captured: through the same callback the second call repeats
    [track.stop()] on the ended tracks of that stream, and nothing else;
    through the callback of the re-rendered component, after a first call
    that saw the current stream, it performs no release at all. *)
Theorem stopSession_twice (render : ReactState) (s : App) :
  let s1 := snd (stopSession render s) in
  let s2 := snd (stopSession render s1) in
  fst (stopSession render s) = Ok tt
  /\ fst (stopSession render s1) = Ok tt
  /\ react s2 = react s1 /\ refs s2 = refs s1
  /\ contexts (plat s2) = contexts (plat s1)
  /\ tracks (plat s2) = tracks (plat s1)
  /\ sessions (plat s2) = sessions (plat s1)
  /\ nodes (plat s2) = nodes (plat s1)
  /\ calls (plat s2) = calls (plat s1) ++ map TrackStop (default [] (stream render))
  /\ (stream render = stream (react s) -> stopSession (react s1) s1 = (Ok tt, s1)).
Proof.
  cbv zeta. rewrite !stopSession_eq. cbn [fst snd].
  destruct s as [r [se ic oc nx so] [c tr ss n cl]]. cbn.
  rewrite stop_all_idemp, app_nil_r.
  repeat split; try (destruct (stream render); reflexivity).
  intros <-. destruct (stream render) as [st|]; cbn; rewrite !app_nil_r; reflexivity.
Qed.

Lemma stopSession_twice_witness :
  let s := snd (startSession FirstVariant granted initialApp) in
  let s1 := snd (stopSession (react s) s) in
  stream (react s) = stream (react s) /\ stopSession (react s1) s1 = (Ok tt, s1).
Proof.
  split; [reflexivity|].
  apply (stopSession_twice
           (react (snd (startSession FirstVariant granted initialApp)))
           (snd (startSession FirstVariant granted initialApp))).
  reflexivity.
Defined.

(** C8: through one callback, the second of two calls in a row stops the
    track of the stream again. *)
Lemma stopSession_twice_same_callback :
  let s := snd (startSession FirstVariant granted initialApp) in
  let s1 := snd (stopSession (react s) s) in
  let s2 := snd (stopSession (react s) s1) in
  stream (react s) = Some [0%nat]
  /\ calls (plat s1) = [SessionClose 0; TrackStop 0; ContextClose 0]
  /\ calls (plat s2) = [SessionClose 0; TrackStop 0; ContextClose 0; TrackStop 0]
  /\ calls (plat s2) <> calls (plat s1).
Proof. vm_compute. repeat split; discriminate. Qed.

(** ** Start: [startSession] *)

(** C2: after a refused microphone the status is ['Error'] and both audio
    contexts are still open, held by their refs. *)
Lemma startSession_denied :
  let s := snd (startSession FirstVariant denied initialApp) in
  status (react s) = Error
  /\ inputAudioContextRef (refs s) = Some 0%nat
  /\ outputAudioContextRef (refs s) = Some 1%nat
  /\ contexts (plat s) = [true; true]
  /\ ~ Forall (fun open => open = false) (contexts (plat s)).
Proof.
  vm_compute. repeat split. intros H. inversion H. discriminate.
Qed.

(** C2, amended. If an awaited step of [startSession] throws after the
    two audio contexts have been created, the call itself does not throw,
    the status afterwards is ['Error'], and the output context created by
    the call is open; when the step is a [resume()] or the microphone
    request, the stream and the tracks are those of before the call. *)
Theorem startSession_fails (v : Variant) (env : StartEnv) (s : App) :
  start_fails v env = true ->
  let s' := snd (startSession v env s) in
  fst (startSession v env s) = Ok tt
  /\ status (react s') = Error
  /\ contexts (plat s') !! S (length (contexts (plat s))) = Some true
  /\ (fails_acquiring v env = true ->
      stream (react s') = stream (react s) /\ tracks (plat s') = tracks (plat s)).
Proof.
  destruct s as [r [se ic oc nx so] [c tr ss n cl]].
  destruct env as [ri ro gum con]. unfold start_fails, fails_acquiring.
  cbn [resumeInput resumeOutput getUserMedia connect].
  intros H.
  assert (Hctx : forall l : list bool, (l ++ [true] ++ [true]) !! S (length l) = Some true).
  { intros l. rewrite lookup_app_r by lia.
    replace (S (length l) - length l)%nat with 1%nat by lia. reflexivity. }
  destruct v, ri as [[]|?], ro as [[]|?], gum as [k|?], con as [[]|?];
    try discriminate H; unfold startSession, try_catch, mbind, M_bind; cbn;
    rewrite <- ?app_assoc, ?Hctx;
    repeat split; try reflexivity; try discriminate.
Qed.

Lemma startSession_fails_witness :
  let s' := snd (startSession FirstVariant denied initialApp) in
  fst (startSession FirstVariant denied initialApp) = Ok tt
  /\ status (react s') = Error
  /\ contexts (plat s') !! 1%nat = Some true
  /\ (fails_acquiring FirstVariant denied = true ->
      stream (react s') = None /\ tracks (plat s') = []).
Proof.
  apply (startSession_fails FirstVariant denied initialApp). reflexivity.
Defined.

(** ** Binary64 arithmetic *)

(** The sum of two times is a time that is not below the first, and the
    quotient of a time by a positive finite value is a time. Both are
    read off the rounding of [SpecFloat]: the mantissa is aligned to the
    canonical exponent, rounded up or down, and aligned once more. *)

Lemma fexp_eq (k : Z) : fexp prec emax k = Z.max (k - 53) (-1074).
Proof. reflexivity. Qed.

Lemma digits2_size (p : positive) : digits2_pos p = Pos.size p.
Proof. induction p; cbn; congruence. Qed.

Lemma digits2_log2 (p : positive) : Zpos (digits2_pos p) = Z.log2 (Zpos p) + 1.
Proof.
  rewrite digits2_size. destruct p; cbn [Z.log2 Pos.size]; rewrite ?Pos2Z.inj_succ; lia.
Qed.

Lemma Zdigits2_log2 (z : Z) : 0 < z -> Zdigits2 z = Z.log2 z + 1.
Proof. destruct z; try lia. intros _. apply digits2_log2. Qed.

Lemma shr_1_m (mrs : shr_record) :
  0 <= shr_m mrs -> shr_m (shr_1 mrs) = Z.shiftr (shr_m mrs) 1.
Proof.
  destruct mrs as [m r s]. cbn [shr_m]. intros H.
  rewrite Z.shiftr_div_pow2 by lia. change (2 ^ 1) with 2.
  destruct m as [|[p|p|]|p]; try lia; cbn [shr_1 shr_m].
  - reflexivity.
  - apply Z.div_unique with 1; lia.
  - apply Z.div_unique with 0; lia.
  - reflexivity.
Qed.

Lemma iter_shr_m (n : positive) (mrs : shr_record) :
  0 <= shr_m mrs -> shr_m (SpecFloat.iter_pos shr_1 n mrs) = Z.shiftr (shr_m mrs) (Zpos n).
Proof.
  revert mrs. induction n as [n IH|n IH|]; intros mrs H; cbn [SpecFloat.iter_pos].
  - assert (H1 : 0 <= shr_m (shr_1 mrs))
      by (rewrite shr_1_m by lia; apply Z.shiftr_nonneg; lia).
    assert (H2 : 0 <= shr_m (SpecFloat.iter_pos shr_1 n (shr_1 mrs)))
      by (rewrite IH by lia; apply Z.shiftr_nonneg; lia).
    rewrite IH, IH, shr_1_m by lia. rewrite !Z.shiftr_shiftr by lia. f_equal. lia.
  - assert (H2 : 0 <= shr_m (SpecFloat.iter_pos shr_1 n mrs))
      by (rewrite IH by lia; apply Z.shiftr_nonneg; lia).
    rewrite IH, IH by lia. rewrite Z.shiftr_shiftr by lia. f_equal. lia.
  - apply shr_1_m, H.
Qed.

Lemma shr_fexp_spec (m e : Z) (l : location) :
  0 <= m ->
  let n := Z.max 0 (fexp prec emax (Zdigits2 m + e) - e) in
  snd (shr_fexp prec emax m e l) = e + n
  /\ shr_m (fst (shr_fexp prec emax m e l)) = Z.shiftr m n.
Proof.
  intros H. cbv zeta. unfold shr_fexp, shr.
  assert (Hm : shr_m (shr_record_of_loc m l) = m) by (destruct l as [|[]]; reflexivity).
  destruct (fexp prec emax (Zdigits2 m + e) - e) as [|p|p] eqn:E; cbn [fst snd].
  - rewrite Z.max_l by lia. rewrite Hm, Z.shiftr_0_r. split; lia.
  - rewrite Z.max_r by lia. rewrite iter_shr_m by lia. rewrite Hm. split; reflexivity.
  - rewrite Z.max_l by lia. rewrite Hm, Z.shiftr_0_r. split; lia.
Qed.

Lemma round_nearest_even_bounds (m : Z) (l : location) :
  m <= round_nearest_even m l <= m + 1.
Proof. destruct l as [|[]]; cbn; try destruct (Z.even m); lia. Qed.

Lemma log2_shiftr_pos (m n : Z) :
  0 < m -> 0 <= n -> n <= Z.log2 m ->
  0 < Z.shiftr m n /\ Z.log2 (Z.shiftr m n) = Z.log2 m - n.
Proof.
  intros Hm Hn Hle. split.
  - destruct (Z.eq_dec (Z.shiftr m n) 0) as [E|E].
    + apply Z.shiftr_eq_0_iff in E. lia.
    + pose proof (proj2 (Z.shiftr_nonneg m n)). lia.
  - rewrite Z.log2_shiftr by lia. lia.
Qed.

(** The second alignment of [binary_round_aux]. *)
Lemma shr_fexp_canonical (m E : Z) :
  0 < m -> -1074 <= E -> E <= fexp prec emax (Zdigits2 m + E) ->
  exists m' : positive,
    shr_m (fst (shr_fexp prec emax m E loc_Exact)) = Zpos m'
    /\ canonical_mantissa prec emax m' (snd (shr_fexp prec emax m E loc_Exact)) = true
    /\ E <= snd (shr_fexp prec emax m E loc_Exact)
    /\ (snd (shr_fexp prec emax m E loc_Exact) = E -> Zpos m' = m).
Proof.
  intros Hm HE Hn.
  destruct (shr_fexp_spec m E loc_Exact) as [He' Hm']; [lia|].
  rewrite He', Hm'. clear He' Hm'.
  rewrite Zdigits2_log2 in * by lia. rewrite fexp_eq in *.
  set (n := Z.max 0 (Z.max (Z.log2 m + 1 + E - 53) (-1074) - E)).
  assert (Hle : n <= Z.log2 m) by (pose proof (Z.log2_nonneg m); lia).
  destruct (log2_shiftr_pos m n) as [Hpos Hlog]; [lia..|].
  destruct (Z.shiftr m n) as [|m'|] eqn:Es; try lia.
  exists m'. split; [reflexivity|]. split; [|split].
  - unfold canonical_mantissa. rewrite digits2_log2, Hlog, fexp_eq. apply Z.eqb_eq. lia.
  - lia.
  - intros H0. assert (n = 0) by lia. rewrite <- Es. replace n with 0. apply Z.shiftr_0_r.
Qed.

Lemma fexp_mono (a b : Z) : a <= b -> fexp prec emax a <= fexp prec emax b.
Proof. rewrite !fexp_eq. lia. Qed.

Lemma Zdigits2_mono (a b : Z) : 0 <= a -> a <= b -> Zdigits2 a <= Zdigits2 b.
Proof.
  intros Ha Hab. destruct (Z.eq_dec a 0) as [->|Hne].
  - destruct b; cbn; lia.
  - rewrite !Zdigits2_log2 by lia. pose proof (Z.log2_le_mono a b Hab). lia.
Qed.

(** What [binary_round_aux] returns for a mantissa that is not negative
    at an exponent that is not above the canonical one: a time, which is
    not below the mantissa rounded down at the canonical exponent. *)
Lemma binary_round_aux_spec (mx ex : Z) (lx : location) :
  0 <= mx -> ex <= fexp prec emax (Zdigits2 mx + ex) ->
  let E := fexp prec emax (Zdigits2 mx + ex) in
  let m' := Z.shiftr mx (E - ex) in
  let r := binary_round_aux prec emax false mx ex lx in
  is_time r = true
  /\ (0 < m' ->
      r = S754_infinity false
      \/ exists m e, r = S754_finite false m e /\ E <= e /\ (e = E -> m' <= Zpos m)).
Proof.
  intros Hmx Hex. cbv zeta. unfold binary_round_aux.
  destruct (shr_fexp_spec mx ex lx Hmx) as [He' Hm'].
  destruct (shr_fexp prec emax mx ex lx) as [mrs' e'] eqn:E1. cbn [fst snd] in He', Hm'.
  rewrite Z.max_r in He', Hm' by lia.
  replace (ex + (fexp prec emax (Zdigits2 mx + ex) - ex))
    with (fexp prec emax (Zdigits2 mx + ex)) in He' by lia.
  set (E := fexp prec emax (Zdigits2 mx + ex)) in *.
  set (m' := Z.shiftr mx (E - ex)) in *.
  assert (Hm'0 : 0 <= m') by (apply Z.shiftr_nonneg; lia).
  pose proof (round_nearest_even_bounds (shr_m mrs') (loc_of_shr_record mrs')) as Hr.
  set (mr := round_nearest_even (shr_m mrs') (loc_of_shr_record mrs')) in *.
  rewrite Hm' in Hr. subst e'.
  assert (HE : -1074 <= E) by (unfold E; rewrite fexp_eq; lia).
  destruct (Z.eq_dec mr 0) as [Hz|Hnz].
  - rewrite Hz.
    destruct (shr_fexp_spec 0 E loc_Exact) as [_ Hs]; [lia|].
    destruct (shr_fexp prec emax 0 E loc_Exact) as [mrs'' e'']. cbn [fst] in Hs.
    rewrite Hs, Z.shiftr_0_l. split; [reflexivity|]. lia.
  - assert (Hcan : E <= fexp prec emax (Zdigits2 mr + E)).
    { destruct (Z.eq_dec m' 0) as [Hm0|Hm0].
      - assert (mr = 1) by lia. subst mr. replace (round_nearest_even _ _) with 1.
        cbn [Zdigits2 digits2_pos]. rewrite fexp_eq.
        assert (E <= -1074); [|lia].
        unfold m' in Hm0. apply Z.shiftr_eq_0_iff in Hm0. unfold E in *.
        rewrite fexp_eq in *.
        destruct Hm0 as [->|[Hpos Hlt]]; [cbn [Zdigits2] in *; lia|].
        rewrite Zdigits2_log2 in * by lia. lia.
      - assert (Hc1 : fexp prec emax (Zdigits2 m' + E) = E).
        { unfold m'. destruct (Z.eq_dec (E - ex) 0) as [H0|H0].
          - rewrite H0, Z.shiftr_0_r. unfold E at 2. f_equal. lia.
          - assert (Hmx0 : 0 < mx).
            { destruct (Z.eq_dec mx 0) as [->|]; [|lia].
              unfold m' in Hm0. rewrite Z.shiftr_0_l in Hm0. lia. }
            assert (Hle : E - ex <= Z.log2 mx).
            { destruct (Z_le_gt_dec (E - ex) (Z.log2 mx)); [assumption|].
              exfalso. apply Hm0. apply Z.shiftr_eq_0; lia. }
            destruct (log2_shiftr_pos mx (E - ex)) as [Hp Hl]; [lia..|].
            rewrite Zdigits2_log2 by lia. rewrite Hl. unfold E at 3.
            rewrite Zdigits2_log2 by lia. f_equal. lia. }
        rewrite <- Hc1 at 1. apply fexp_mono.
        pose proof (Zdigits2_mono m' mr). lia. }
    destruct (shr_fexp_canonical mr E) as (m'' & Hs & Hc & Hge & Heq); [lia..|].
    destruct (shr_fexp prec emax mr E loc_Exact) as [mrs'' e'']. cbn [fst snd] in *.
    rewrite Hs. destruct (e'' <=? emax - prec) eqn:Hb.
    + split.
      * cbn [is_time negb andb]. unfold bounded. rewrite Hc, Hb. reflexivity.
      * intros _. right. exists m'', e''. split; [reflexivity|]. split; [exact Hge|].
        intros H. rewrite (Heq H). lia.
    + split; [reflexivity|]. intros _. left. reflexivity.
Qed.

Lemma iter_xO (m d : positive) : Zpos (Pos.iter xO m d) = Zpos m * 2 ^ Zpos d.
Proof.
  induction d as [|d IH] using Pos.peano_ind.
  - cbn [Pos.iter]. lia.
  - rewrite Pos.iter_succ, Pos2Z.inj_succ, Z.pow_succ_r by lia. lia.
Qed.

Lemma shl_align_spec (m : positive) (e e' : Z) :
  let r := shl_align m e e' in
  snd r = Z.min e e' /\ Zpos (fst r) = Zpos m * 2 ^ (e - snd r).
Proof.
  cbv zeta. unfold shl_align. destruct (e' - e) as [|p|p] eqn:E; cbn [fst snd].
  - rewrite Z.min_l by lia. rewrite Z.sub_diag. lia.
  - rewrite Z.min_l by lia. rewrite Z.sub_diag. lia.
  - rewrite Z.min_r by lia. rewrite iter_xO. split; [reflexivity|]. f_equal. f_equal. lia.
Qed.

Lemma log2_mul_pow2 (m k : Z) : 0 < m -> 0 <= k -> Z.log2 (m * 2 ^ k) = Z.log2 m + k.
Proof. intros. rewrite Z.log2_mul_pow2 by lia. lia. Qed.

(** What [binary_round] returns: a time, and one that is not below any
    canonical value that the rounded value is not below. *)
Lemma binary_round_spec (m : positive) (e : Z) :
  let r := binary_round prec emax false m e in
  is_time r = true
  /\ forall mx ex, canonical_mantissa prec emax mx ex = true ->
       e <= ex -> Zpos mx * 2 ^ (ex - e) <= Zpos m ->
       fle (S754_finite false mx ex) r.
Proof.
  cbv zeta. unfold binary_round.
  set (E := fexp prec emax (Zpos (digits2_pos m) + e)).
  destruct (shl_align_spec m e E) as [Hs Hf].
  destruct (shl_align m e E) as [mz ez]. cbn [fst snd] in Hs, Hf.
  assert (Hd : Zdigits2 (Zpos mz) + ez = Zpos (digits2_pos m) + e).
  { cbn [Zdigits2]. rewrite !digits2_log2, Hf, log2_mul_pow2 by lia. lia. }
  assert (Hpre : ez <= fexp prec emax (Zdigits2 (Zpos mz) + ez)) by (rewrite Hd; fold E; lia).
  destruct (binary_round_aux_spec (Zpos mz) ez loc_Exact) as [Ht Hv]; [lia|exact Hpre|].
  rewrite Hd in Hv. fold E in Hv.
  split; [exact Ht|]. intros mx ex Hc He Hle.
  unfold canonical_mantissa in Hc. apply Z.eqb_eq in Hc.
  assert (Hlog : Z.log2 (Zpos mx) + (ex - e) <= Z.log2 (Zpos m)).
  { rewrite <- log2_mul_pow2 by lia. apply Z.log2_le_mono, Hle. }
  assert (HEx : ex <= E).
  { rewrite <- Hc. apply fexp_mono. rewrite !digits2_log2. lia. }
  assert (Hez : ez = e) by lia. rewrite Hez in *. clear Hez.
  assert (Hmz : mz = m) by (rewrite Z.sub_diag in Hf; cbn in Hf; lia).
  rewrite Hmz in *. clear Hmz.
  assert (Hex : -1074 <= ex) by (rewrite <- Hc, fexp_eq; lia).
  assert (Hpos : 0 < Z.shiftr (Zpos m) (E - e)).
  { apply log2_shiftr_pos; [lia..|].
    unfold E in *. rewrite digits2_log2, fexp_eq in *.
    pose proof (Z.log2_nonneg (Zpos mx)). lia. }
  destruct (Hv Hpos) as [->|(m2 & e2 & -> & Hge & Heq)]; [reflexivity|].
  unfold fle, SFleb, SFcompare.
  destruct (Z.compare_spec ex e2) as [Heq'|Hlt|Hgt]; [|reflexivity|lia].
  assert (Hm2 : Zpos mx <= Zpos m2).
  { assert (HE : E = ex) by lia. specialize (Heq ltac:(lia)).
    etransitivity; [|exact Heq]. rewrite Z.shiftr_div_pow2 by lia.
    apply Z.div_le_lower_bound; [apply Z.pow_pos_nonneg; lia|].
    rewrite HE, Z.mul_comm. exact Hle. }
  change (Pos.compare_cont Eq mx m2) with (mx ?= m2)%positive.
  destruct (Pos.compare_spec mx m2); [reflexivity|reflexivity|lia].
Qed.

Lemma double_of_Z_time (z : Z) : 0 <= z -> is_time (double_of_Z z) = true.
Proof.
  intros H. destruct z as [|p|p]; [reflexivity| |lia].
  apply (binary_round_spec p 0).
Qed.

Lemma fle_refl (t : double) : is_time t = true -> fle t t.
Proof.
  destruct t as [[]|[]| |[] m e]; try discriminate; intros _; try reflexivity.
  unfold fle, SFleb, SFcompare. rewrite Z.compare_refl.
  change (Pos.compare_cont Eq m m) with (m ?= m)%positive. rewrite Pos.compare_refl.
  reflexivity.
Qed.

(** The sum of two times is a time, not below the first. *)
Lemma fadd_spec (x d : double) :
  is_time x = true -> is_time d = true ->
  is_time (fadd x d) = true /\ fle x (fadd x d).
Proof.
  intros Hx Hd.
  destruct x as [[]|[]| |[] mx ex]; try discriminate;
    destruct d as [[]|[]| |[] md ed]; try discriminate;
    try (split; [assumption || reflexivity|reflexivity]);
    try (split; [assumption|apply fle_refl; assumption]).
  unfold fadd, SFadd. cbn [cond_Zopp].
  destruct (shl_align_spec mx ex (Z.min ex ed)) as [Hs1 Hf1].
  destruct (shl_align_spec md ed (Z.min ex ed)) as [Hs2 Hf2].
  rewrite (Z.min_r ex (Z.min ex ed)) in Hs1 by lia.
  rewrite (Z.min_r ed (Z.min ex ed)) in Hs2 by lia.
  rewrite Hs1 in Hf1. rewrite Hs2 in Hf2.
  set (a := fst (shl_align mx ex (Z.min ex ed))) in *.
  set (b := fst (shl_align md ed (Z.min ex ed))) in *.
  cbn [Z.add binary_normalize].
  destruct (binary_round_spec (a + b) (Z.min ex ed)) as [Ht Hle].
  split; [exact Ht|]. apply Hle.
  - cbn [is_time negb andb] in Hx. unfold bounded in Hx.
    apply andb_prop in Hx. apply Hx.
  - lia.
  - rewrite Pos2Z.inj_add, Hf1. lia.
Qed.

Lemma log2_div_lower (a b : Z) :
  0 < b -> 0 < a / b -> Z.log2 a - Z.log2 b <= Z.log2 (a / b) + 1.
Proof.
  intros Hb Hq.
  assert (Ha : 0 < a).
  { destruct (Z_lt_le_dec 0 a) as [|Hle]; [assumption|].
    pose proof (Z.div_le_upper_bound a b 0 Hb). lia. }
  destruct (Z_le_gt_dec (Z.log2 a - Z.log2 b) 1) as [Hsmall|Hbig].
  - pose proof (Z.log2_nonneg (a / b)). lia.
  - assert (H : 2 ^ (Z.log2 a - Z.log2 b - 1) <= a / b).
    { apply Z.div_le_lower_bound; [exact Hb|].
      destruct (Z.log2_spec a Ha) as [Ha1 _]. destruct (Z.log2_spec b Hb) as [_ Hb2].
      assert (Hp : 0 < 2 ^ (Z.log2 a - Z.log2 b - 1)) by (apply Z.pow_pos_nonneg; lia).
      assert (He : 2 ^ Z.succ (Z.log2 b) * 2 ^ (Z.log2 a - Z.log2 b - 1) = 2 ^ Z.log2 a).
      { rewrite <- Z.pow_add_r by (pose proof (Z.log2_nonneg b); lia). f_equal. lia. }
      nia. }
    apply Z.log2_le_pow2 in H; lia.
Qed.

(** The quotient of a time by a positive finite value is a time. *)
Lemma fdiv_time (x : double) (my : positive) (ey : Z) :
  is_time x = true -> is_time (fdiv x (S754_finite false my ey)) = true.
Proof.
  intros Hx. destruct x as [[]|[]| |[] mx ex]; try discriminate; try reflexivity.
  unfold fdiv, SFdiv, SFdiv_core_binary. cbn [xorb Zdigits2].
  set (e' := Z.min (fexp prec emax (Zpos (digits2_pos mx) + ex - (Zpos (digits2_pos my) + ey)))
               (ex - ey)).
  set (s := ex - ey - e').
  assert (Hs : 0 <= s) by (unfold s, e'; lia).
  set (m' := match s with
             | 0 => Zpos mx
             | Zpos _ => Z.shiftl (Zpos mx) s
             | Zneg _ => 0
             end).
  assert (Hm' : m' = Zpos mx * 2 ^ s).
  { unfold m'. destruct s as [|p|p] eqn:E; [cbn; lia| |lia].
    rewrite Z.shiftl_mul_pow2 by lia. reflexivity. }
  clearbody m'.
  assert (Hsd : s = ex - ey - e') by reflexivity.
  assert (Hed : e' = Z.min (fexp prec emax (Zpos (digits2_pos mx) + ex
                                             - (Zpos (digits2_pos my) + ey))) (ex - ey))
    by reflexivity.
  clearbody s e'. rewrite !digits2_log2, !fexp_eq in Hed.
  pose proof (Z_div_mod m' (Zpos my) ltac:(lia)) as Hdiv.
  unfold Z.div in *.
  assert (Hq : fst (Z.div_eucl m' (Zpos my)) = m' / Zpos my) by reflexivity.
  destruct (Z.div_eucl m' (Zpos my)) as [q r]. cbn [fst] in Hq.
  assert (Hp : 0 < 2 ^ s) by (apply Z.pow_pos_nonneg; lia).
  assert (Hq0 : 0 <= q) by (rewrite Hq; apply Z.div_pos; nia).
  apply binary_round_aux_spec; [exact Hq0|].
  destruct (Z.eq_dec q 0) as [->|Hne].
  - cbn [Zdigits2]. rewrite Z.add_0_l.
    assert (Hlt : m' < Zpos my) by lia.
    assert (Hl : Z.log2 (Zpos mx) + s <= Z.log2 (Zpos my)).
    { rewrite <- log2_mul_pow2 by lia. rewrite <- Hm'. apply Z.log2_le_mono. lia. }
    rewrite fexp_eq. lia.
  - pose proof (log2_div_lower m' (Zpos my) ltac:(lia) ltac:(lia)) as Hl.
    rewrite <- Hq, Hm', log2_mul_pow2 in Hl by lia.
    rewrite Zdigits2_log2 by lia. rewrite fexp_eq. lia.
Qed.

(** The order of the numbers, and [Math.max]. *)
Lemma fle_trans (a b c : double) : fle a b -> fle b c -> fle a c.
Proof.
  unfold fle, SFleb, SFcompare.
  destruct a as [[]|[]| |[] ma ea], b as [[]|[]| |[] mb eb], c as [[]|[]| |[] mc ec];
    try discriminate; try reflexivity;
    change (Pos.compare_cont Eq) with Pos.compare;
    repeat match goal with
           | |- context [Z.compare ?x ?y] => destruct (Z.compare_spec x y)
           | |- context [Pos.compare ?x ?y] => destruct (Pos.compare_spec x y)
           end; cbn [CompOpp]; try discriminate; try reflexivity; lia.
Qed.

Lemma Math_max_time (a b : double) :
  is_time a = true -> is_time b = true -> is_time (Math_max a b) = true.
Proof.
  destruct a as [[]|[]| |[] ma ea], b as [[]|[]| |[] mb eb]; try discriminate;
    intros Ha Hb; try reflexivity; unfold Math_max;
    match goal with |- context [SFltb ?x ?y] => destruct (SFltb x y) end; assumption.
Qed.

Lemma fle_max_l (a b : double) : is_time a = true -> is_time b = true -> fle a (Math_max a b).
Proof.
  intros Ha Hb.
  destruct a as [[]|[]| |[] ma ea], b as [[]|[]| |[] mb eb]; try discriminate;
    try reflexivity; unfold Math_max;
    match goal with |- context [SFltb ?x ?y] => destruct (SFltb x y) eqn:E end;
    try (apply fle_refl; assumption);
    unfold fle, SFleb; unfold SFltb in E;
    match goal with |- context [SFcompare ?x ?y] => destruct (SFcompare x y) as [[]|] end;
    try discriminate; reflexivity.
Qed.

Lemma fle_max_r (a b : double) : is_time a = true -> is_time b = true -> fle b (Math_max a b).
Proof.
  intros Ha Hb.
  destruct a as [[]|[]| |[] ma ea], b as [[]|[]| |[] mb eb]; try discriminate;
    try reflexivity; unfold Math_max;
    match goal with |- context [SFltb ?x ?y] => destruct (SFltb x y) eqn:E end;
    try (apply fle_refl; assumption); try discriminate.
  unfold fle, SFleb, SFltb, SFcompare in *. change (Pos.compare_cont Eq) with Pos.compare in *.
  destruct (Z.compare_spec ea eb), (Z.compare_spec eb ea); try lia; try discriminate;
    try reflexivity.
  destruct (Pos.compare_spec ma mb), (Pos.compare_spec mb ma); try lia; try discriminate;
    reflexivity.
Qed.

(** [Math.max] of two times is the first when the second is not above it,
    the second when the first is not above it. *)
Lemma Math_max_l (a b : double) :
  is_time a = true -> is_time b = true -> fle b a -> Math_max a b = a.
Proof.
  intros Ha Hb.
  destruct a as [[]|[]| |[] ma ea], b as [[]|[]| |[] mb eb]; try discriminate;
    try reflexivity; unfold Math_max, fle, SFleb, SFltb, SFcompare;
    change (Pos.compare_cont Eq) with Pos.compare; try discriminate.
  destruct (Z.compare_spec ea eb), (Z.compare_spec eb ea); try lia; try discriminate;
    try reflexivity.
  destruct (Pos.compare_spec ma mb), (Pos.compare_spec mb ma); try lia; try discriminate;
    try reflexivity.
Qed.

Lemma Math_max_r (a b : double) :
  is_time a = true -> is_time b = true -> fle a b -> Math_max a b = b.
Proof.
  intros Ha Hb.
  destruct a as [[]|[]| |[] ma ea], b as [[]|[]| |[] mb eb]; try discriminate;
    try reflexivity; unfold Math_max, fle, SFleb, SFltb, SFcompare;
    change (Pos.compare_cont Eq) with Pos.compare; try discriminate.
  destruct (Z.compare_spec ea eb), (Z.compare_spec eb ea); try lia; try discriminate;
    try reflexivity.
  destruct (Pos.compare_spec ma mb), (Pos.compare_spec mb ma); try lia; try discriminate;
    try reflexivity; intros _; f_equal; lia.
Qed.

Lemma Math_max_zero (t : double) : is_time t = true -> Math_max zero t = t.
Proof. destruct t as [[]|[]| |[] m e]; try discriminate; reflexivity. Qed.

Lemma is_clock_time (t : double) : is_clock t = true -> is_time t = true.
Proof. unfold is_clock. intros H. apply andb_prop in H. apply H. Qed.

(** The later of a finite time and a clock value is accepted by [start]. *)
Lemma accepted_max (a b : double) :
  is_time a = true -> is_finite a = true -> is_clock b = true ->
  accepted (Math_max a b) = true.
Proof.
  intros Ha Hf Hb. apply andb_prop in Hb. destruct Hb as [Hb Hg].
  destruct a as [[]|[]| |[] ma ea], b as [[]|[]| |[] mb eb]; try discriminate;
    try reflexivity; unfold Math_max;
    match goal with |- context [SFltb ?x ?y] => destruct (SFltb x y) end; reflexivity.
Qed.

(** When [start] refuses the later of the anchor and a clock value, the
    anchor was not finite, and is that later value. *)
Lemma refused_max (a b : double) :
  is_clock b = true -> accepted (Math_max a b) = false -> Math_max a b = a.
Proof.
  intros Hb. apply andb_prop in Hb. destruct Hb as [Hb Hg].
  destruct a as [[]|[]| |[] ma ea], b as [[]|[]| |[] mb eb]; try discriminate;
    try reflexivity; unfold Math_max;
    match goal with |- context [SFltb ?x ?y] => destruct (SFltb x y) eqn:E end;
    try reflexivity; try discriminate;
    unfold SFltb, SFcompare in E; discriminate.
Qed.

(** ** The message handler *)

Lemma handleTranscriptions_eq (v : Variant) (message : LiveServerMessage) (s : App) :
  exists t t',
    handleTranscriptions v message s
    = (Ok tt,
       let r := react s in
       mkApp (mkReact (sourceLang r) (targetLang r) (gender r) (status r) (isRecording r)
                t t' (history r) (stream r))
         (refs s) (plat s)).
Proof.
  destruct s as [[? ? ? ? ? tr tl ? ?] f p], message as [[i|] [o|] ? ? ?], v;
    unfold handleTranscriptions, mbind, M_bind; cbn; eauto.
Qed.

Lemma decodeAudioData_rate (data : list byte) (rate : Q) (n : nat) (b : AudioBuffer) :
  decodeAudioData data rate n = Ok b -> sampleRate b = rate.
Proof.
  unfold decodeAudioData. destruct (Int16Array_of_buffer data) as [d|]; [|discriminate].
  cbn [mbind result_bind].
  destruct (createBuffer n _ rate) as [b0|] eqn:E; [|discriminate].
  cbn [mbind result_bind mret result_ret]. intros [= <-].
  unfold createBuffer in E. destruct (_ || _); [discriminate|]. injection E as <-.
  rewrite (for_loop_channels rate (fill_channel d n)). reflexivity.
Qed.

(** The duration of a buffer at 24000 Hz is a time. *)
Lemma duration_time (b : AudioBuffer) : sampleRate b = 24000%Q -> is_time (duration b) = true.
Proof.
  intros E. unfold duration. rewrite E.
  replace (double_of_Q 24000) with (S754_finite false 6597069766656000 (-38))
    by (vm_compute; reflexivity).
  apply fdiv_time, double_of_Z_time. lia.
Qed.

Lemma audioDataOf_TypeError (message : LiveServerMessage) (e : exn) :
  audioDataOf message = Throw e -> e = TypeError.
Proof.
  unfold audioDataOf. destruct (modelTurn message) as [[[ps|]]|]; cbn; intros H; congruence.
Qed.

Lemma handleAudioOutput_outcome (message : LiveServerMessage) (env : MessageEnv) (s : App) :
  audio_outcome env s (handleAudioOutput message env s).
Proof.
  destruct s as [r [se ic oc nx so] [c tr ss n cl]].
  unfold handleAudioOutput, mbind, M_bind. cbn [lift].
  destruct (audioDataOf message) as [audioData|e] eqn:Ea.
  2:{ apply audioDataOf_TypeError in Ea. subst e. apply audio_unread. }
  cbn [gets refs outputAudioContextRef].
  destruct (truthy audioData && bool_decide (is_Some oc)); cbn [when];
    [|apply audio_skipped].
  cbn [gets refs nextStartTimeRef set_nextStartTimeRef modify_refs modify lift].
  destruct (decode _) as [bytes|e]; [|apply audio_failed].
  destruct (decodeAudioData bytes 24000 1) as [b|e] eqn:E; [|apply audio_failed].
  unfold source_start. cbn [plat refs nextStartTimeRef].
  destruct (accepted (Math_max nx (currentTime env))); [|apply audio_failed].
  assert (Hd : is_time (duration b) = true)
    by (apply duration_time; eapply decodeAudioData_rate, E).
  exact (audio_scheduled env (mkApp r (mkRefs se ic oc nx so) (mkPlatform c tr ss n cl))
           (duration b) Hd).
Qed.

Lemma handleTurnComplete_eq (v : Variant) (render : ReactState)
    (message : LiveServerMessage) (env : MessageEnv) (s : App) :
  exists st h,
    handleTurnComplete v render message env s
    = (Ok tt,
       let r := react s in
       mkApp (mkReact (sourceLang r) (targetLang r) (gender r) st (isRecording r)
                (transcript r) (translation r) h (stream r))
         (refs s) (plat s)).
Proof.
  destruct s as [[? ? ? ? ? tr tl ? ?] f p].
  unfold handleTurnComplete, mbind, M_bind.
  destruct (turnComplete message); cbn [when]; [|cbn; eauto].
  destruct v; [cbn; eauto|].
  destruct (truthy (transcript render) && truthy (translation render)); cbn; eauto.
Qed.

Lemma forEach_source_stop (l : list nat) (s : App) :
  forEach l source_stop s
  = (Ok tt,
     mkApp (react s) (refs s)
       (mkPlatform (contexts (plat s)) (tracks (plat s)) (sessions (plat s))
          (nodes (plat s)) (calls (plat s) ++ map SourceStop l))).
Proof.
  revert s. induction l as [|t l IH]; intros [r f [c tr se n cl]].
  - cbn. rewrite app_nil_r. reflexivity.
  - cbn [forEach]. unfold mbind, M_bind. cbn [source_stop modify_plat modify].
    rewrite IH. cbn. rewrite <- app_assoc. reflexivity.
Qed.

Lemma handleInterrupted_eq (message : LiveServerMessage) (s : App) :
  handleInterrupted message s
  = (Ok tt,
     if interrupted message then
       let p := plat s in
       mkApp (react s)
         (mkRefs (sessionRef (refs s)) (inputAudioContextRef (refs s))
            (outputAudioContextRef (refs s)) zero ∅)
         (mkPlatform (contexts p) (tracks p) (sessions p) (nodes p)
            (calls p ++ map SourceStop (elements (sourcesRef (refs s)))))
     else s).
Proof.
  destruct s as [r [se ic oc nx so] [c tr ss n cl]].
  unfold handleInterrupted, mbind, M_bind.
  destruct (interrupted message); cbn -[forEach elements]; [|reflexivity].
  rewrite forEach_source_stop. reflexivity.
Qed.

(** The shape of a whole message: the transcripts, then the audio part;
    when that part throws the handler ends there, otherwise the history
    and the interruption are handled. *)
Lemma onmessage_shape (v : Variant) (render : ReactState)
    (message : LiveServerMessage) (env : MessageEnv) (s : App) :
  exists s1 ra s2,
    display_only s s1 /\ handleAudioOutput message env s1 = (ra, s2)
    /\ match ra with
       | Throw e => onmessage v render message env s = (Throw e, s2)
       | Ok _ =>
           exists s3, display_only s2 s3
                      /\ onmessage v render message env s = handleInterrupted message s3
       end.
Proof.
  destruct (handleTranscriptions_eq v message s) as (t & t' & E1).
  unfold onmessage, mbind, M_bind. rewrite E1. cbv zeta.
  match goal with |- context [handleAudioOutput message env ?x] => set (s1 := x) end.
  destruct (handleAudioOutput message env s1) as [ra s2] eqn:E2.
  exists s1, ra, s2. split; [split; reflexivity|]. split; [exact E2|].
  destruct ra as [[]|e]; [|reflexivity].
  destruct (handleTurnComplete_eq v render message env s2) as (st & h & E3).
  rewrite E3. eexists. split; [|reflexivity]. split; reflexivity.
Qed.

(** An interruption whose handler completes: every source that was
    active is stopped, the set is empty and the anchor is zero. *)
Lemma interrupted_effect (v : Variant) (render : ReactState)
    (message : LiveServerMessage) (env : MessageEnv) (s : App) :
  interrupted message = true ->
  fst (onmessage v render message env s) = Ok tt ->
  let s' := snd (onmessage v render message env s) in
  sourcesRef (refs s') = ∅
  /\ nextStartTimeRef (refs s') = zero
  /\ (forall n, n ∈ sourcesRef (refs s) -> SourceStop n ∈ calls (plat s')).
Proof.
  intros Hi Hok.
  destruct (onmessage_shape v render message env s) as (s1 & ra & s2 & [D1 _] & E2 & H).
  pose proof (handleAudioOutput_outcome message env s1) as Ha. rewrite E2 in Ha.
  destruct ra as [[]|e]; [|rewrite H in Hok; discriminate].
  destruct H as (s3 & [D3 D3'] & E). cbv zeta. rewrite E, handleInterrupted_eq, Hi.
  cbn [snd refs plat sourcesRef nextStartTimeRef calls]. split; [reflexivity|].
  split; [reflexivity|]. intros n Hn.
  apply elem_of_app. right. apply list_elem_of_fmap. exists n. split; [reflexivity|].
  apply elem_of_elements. rewrite D3.
  inversion Ha; subst; cbn [refs sourcesRef]; rewrite ?D1; set_solver.
Qed.

(** A message whose payload decodes, handled while an output context is
    held, starts one node when the later of the anchor and the clock is
    accepted: the decoded buffer, at that time. *)
Lemma onmessage_enqueues (v : Variant) (render : ReactState)
    (message : LiveServerMessage) (env : MessageEnv) (s : App) (b : AudioBuffer) :
  is_Some (outputAudioContextRef (refs s)) ->
  audioBufferOf message = Ok (Some b) ->
  accepted (Math_max (nextStartTimeRef (refs s)) (currentTime env)) = true ->
  nodes (plat (snd (onmessage v render message env s)))
  = nodes (plat s)
    ++ [(Math_max (nextStartTimeRef (refs s)) (currentTime env), duration b)].
Proof.
  intros Hctx Hb Hacc. unfold audioBufferOf in Hb.
  destruct (audioDataOf message) as [audioData|] eqn:Ea; [|discriminate].
  cbn [mbind result_bind] in Hb.
  destruct (truthy audioData) eqn:Ht; [|discriminate].
  destruct (decode (default [] audioData)) as [bytes|] eqn:Ed; [|discriminate].
  cbn [mbind result_bind] in Hb.
  destruct (decodeAudioData bytes 24000 1) as [b'|] eqn:Eb; [|discriminate].
  injection Hb as ->.
  destruct (handleTranscriptions_eq v message s) as (t & t' & E1).
  unfold onmessage, mbind, M_bind. rewrite E1. cbv zeta.
  destruct s as [r [se ic oc nx so] [c tr ss n cl]].
  cbn [refs outputAudioContextRef] in Hctx.
  unfold handleAudioOutput, mbind, M_bind. rewrite Ea.
  cbn [lift gets refs outputAudioContextRef react plat].
  rewrite Ht, (bool_decide_eq_true_2 _ Hctx). cbn [andb when].
  cbn [gets refs nextStartTimeRef set_nextStartTimeRef modify_refs modify lift].
  rewrite Ed, Eb. cbn [refs nextStartTimeRef] in Hacc.
  unfold source_start. cbn [plat refs nextStartTimeRef]. rewrite Hacc.
  cbn [plat react refs nodes contexts tracks sessions calls gets
       set_nextStartTimeRef set_sourcesRef modify_refs modify setStatus modify_react
       sessionRef inputAudioContextRef outputAudioContextRef nextStartTimeRef sourcesRef].
  match goal with
  | |- context [handleTurnComplete v render message env ?x] =>
      destruct (handleTurnComplete_eq v render message env x) as (st & h & ->)
  end.
  rewrite handleInterrupted_eq. destruct (interrupted message); reflexivity.
Qed.

(** What a message does to the anchor: it stays a time while the clock
    is one. *)
Lemma onmessage_anchor (v : Variant) (render : ReactState)
    (message : LiveServerMessage) (env : MessageEnv) (s : App) :
  is_clock (currentTime env) = true ->
  is_time (nextStartTimeRef (refs s)) = true ->
  is_time (nextStartTimeRef (refs (snd (onmessage v render message env s)))) = true.
Proof.
  intros Hnow Hnext. apply is_clock_time in Hnow.
  destruct (onmessage_shape v render message env s) as (s1 & ra & s2 & [D1 D1'] & E2 & H).
  pose proof (handleAudioOutput_outcome message env s1) as Ha. rewrite E2 in Ha.
  assert (Hs : is_time (nextStartTimeRef (refs s2)) = true).
  { inversion Ha; subst; cbn [refs nextStartTimeRef]; rewrite ?D1; try assumption.
    - apply Math_max_time; assumption.
    - subst start. rewrite D1. apply fadd_spec; [apply Math_max_time|]; assumption. }
  destruct ra as [[]|e]; [|rewrite H; exact Hs].
  destruct H as (s3 & [D3 D3'] & ->). rewrite handleInterrupted_eq. cbn [snd].
  destruct (interrupted message); [reflexivity|]. rewrite D3. exact Hs.
Qed.

(** C3, amended. On processing an interrupted event (the handler having
    reached it: the audio part of the same message did not throw), every
    source that was active is stopped, the active set is cleared and the
    playback anchor is reset to zero; the buffer of a next message is
    then started at the output clock's time at that message, a finite
    time. *)
Theorem interrupted_resets (v : Variant) (render : ReactState)
    (message : LiveServerMessage) (env : MessageEnv) (s : App) :
  interrupted message = true ->
  fst (onmessage v render message env s) = Ok tt ->
  let s' := snd (onmessage v render message env s) in
  sourcesRef (refs s') = ∅
  /\ nextStartTimeRef (refs s') = zero
  /\ (forall n, n ∈ sourcesRef (refs s) -> SourceStop n ∈ calls (plat s'))
  /\ (forall render' message' env' b,
        is_clock (currentTime env') = true ->
        is_Some (outputAudioContextRef (refs s')) ->
        audioBufferOf message' = Ok (Some b) ->
        nodes (plat (snd (onmessage v render' message' env' s')))
        = nodes (plat s') ++ [(currentTime env', duration b)]).
Proof.
  intros Hi Hok. cbv zeta.
  destruct (interrupted_effect v render message env s Hi Hok) as (Hs & Hn & Hc).
  split; [exact Hs|]. split; [exact Hn|]. split; [exact Hc|].
  intros render' message' env' b Hnow Hctx Hb.
  rewrite (onmessage_enqueues v render' message' env' _ b Hctx Hb).
  - rewrite Hn, Math_max_zero by (apply is_clock_time, Hnow). reflexivity.
  - rewrite Hn. apply accepted_max; [reflexivity|reflexivity|exact Hnow].
Qed.

Lemma interrupted_resets_witness :
  let s := snd (onmessage FirstVariant initialReact (audio "AAA=") (at_time 5)
                  (snd (startSession FirstVariant granted initialApp))) in
  let s' := snd (onmessage FirstVariant initialReact barge_in (at_time 5) s) in
  0%nat ∈ sourcesRef (refs s)
  /\ sourcesRef (refs s') = ∅
  /\ nextStartTimeRef (refs s') = zero
  /\ SourceStop 0 ∈ calls (plat s')
  /\ nodes (plat (snd (onmessage FirstVariant initialReact (audio "AAAAAA==") (at_time 7) s')))
     = nodes (plat s')
       ++ [(currentTime (at_time 7),
            duration (mkAudioBuffer 24000 [[Fin (0 # 32768); Fin (0 # 32768)]]))].
Proof.
  cbv zeta.
  assert (H0 : 0%nat ∈ sourcesRef (refs
            (snd (onmessage FirstVariant initialReact (audio "AAA=") (at_time 5)
                    (snd (startSession FirstVariant granted initialApp))))))
    by (apply (bool_decide_unpack _); vm_compute; exact I).
  destruct (interrupted_resets FirstVariant initialReact barge_in (at_time 5)
              (snd (onmessage FirstVariant initialReact (audio "AAA=") (at_time 5)
                      (snd (startSession FirstVariant granted initialApp))))
              eq_refl eq_refl) as (Hs & Hn & Hc & He).
  split; [exact H0|]. split; [exact Hs|]. split; [exact Hn|]. split; [exact (Hc 0%nat H0)|].
  apply (He initialReact (audio "AAAAAA==") (at_time 7)
           (mkAudioBuffer 24000 [[Fin (0 # 32768); Fin (0 # 32768)]])).
  - vm_compute. reflexivity.
  - vm_compute. eexists. reflexivity.
  - vm_compute. reflexivity.
Defined.

(** C3: with the output clock at 5 an interruption leaves the anchor at
    zero, not at the clock. *)
Lemma interrupted_anchor_zero :
  let s := snd (onmessage FirstVariant initialReact (audio "AAA=") (at_time 5)
                  (snd (startSession FirstVariant granted initialApp))) in
  let s' := snd (onmessage FirstVariant initialReact barge_in (at_time 5) s) in
  fst (onmessage FirstVariant initialReact barge_in (at_time 5) s) = Ok tt
  /\ currentTime (at_time 5) = double_of_Z 5
  /\ nextStartTimeRef (refs s') = zero
  /\ SFeqb (nextStartTimeRef (refs s')) (currentTime (at_time 5)) = false.
Proof. vm_compute. repeat split; reflexivity. Qed.

(** ** The schedule *)

Lemma onmessage_schedule (v : Variant) (render : ReactState)
    (message : LiveServerMessage) (env : MessageEnv) (s : App) :
  interrupted message = false ->
  schedule_step (currentTime env) (schedule s)
    (schedule (snd (onmessage v render message env s))).
Proof.
  intros Hi.
  destruct (onmessage_shape v render message env s) as (s1 & ra & s2 & [D1 D1'] & E2 & H).
  pose proof (handleAudioOutput_outcome message env s1) as Ha. rewrite E2 in Ha.
  assert (Hs : schedule_step (currentTime env) (schedule s) (schedule s2)).
  { unfold schedule. rewrite <- D1, <- D1'.
    inversion Ha; subst; cbn [plat refs nodes nextStartTimeRef].
    - apply schedule_kept.
    - apply schedule_kept.
    - apply schedule_raised.
    - apply schedule_appended. assumption. }
  destruct ra as [[]|e]; [|rewrite H; exact Hs].
  destruct H as (s3 & [D3 D3'] & ->). rewrite handleInterrupted_eq, Hi. cbn [snd].
  unfold schedule in *. rewrite D3, D3'. exact Hs.
Qed.

Lemma ordered_snoc (ns : list (double * double)) (b : double * double) :
  ordered ns ->
  Forall (fun a => fle (fst a) (fst b) /\ fle (fadd (fst a) (snd a)) (fst b)) ns ->
  ordered (ns ++ [b]).
Proof.
  intros Ho Hb i a c Ha Hc.
  destruct (decide (S i < length ns)%nat) as [Hlt|Hge].
  - rewrite lookup_app_l in Ha by lia. rewrite lookup_app_l in Hc by lia. eauto.
  - assert (Hi : S i = length ns).
    { apply lookup_lt_Some in Hc. rewrite length_app in Hc. cbn in Hc. lia. }
    rewrite lookup_app_l in Ha by lia.
    rewrite Hi, lookup_app_r, Nat.sub_diag in Hc by lia. injection Hc as <-.
    rewrite Forall_forall in Hb. apply Hb. eapply list_elem_of_lookup_2, Ha.
Qed.

Lemma schedule_step_since (now : double) (base : nat)
    (sch sch' : list (double * double) * double) :
  is_clock now = true ->
  schedule_step now sch sch' -> scheduled_since base sch -> scheduled_since base sch'.
Proof.
  intros Hnow Hstep (Hb & Ht & Ho & Hf). apply is_clock_time in Hnow.
  unfold scheduled_since.
  destruct Hstep as [ns next|ns next|ns next d Hd]; cbn [fst snd] in *.
  - split; [|split; [|split]]; assumption.
  - pose proof (fle_max_l next now Ht Hnow) as Hm.
    split; [assumption|]. split; [apply Math_max_time; assumption|].
    split; [assumption|].
    eapply Forall_impl; [exact Hf|]. intros [x y] [H1 H2]. cbn [fst snd] in *.
    split; eapply fle_trans; eassumption.
  - pose proof (fle_max_l next now Ht Hnow) as Hm.
    pose proof (Math_max_time next now Ht Hnow) as Hmt.
    destruct (fadd_spec (Math_max next now) d Hmt Hd) as [Hat Hle].
    split; [rewrite length_app; lia|]. split; [exact Hat|].
    rewrite drop_app_le by assumption. split.
    + apply ordered_snoc; [assumption|].
      eapply Forall_impl; [exact Hf|]. intros [x y] [H1 H2]. cbn [fst snd] in *.
      split; eapply fle_trans; eassumption.
    + apply Forall_app. split.
      * eapply Forall_impl; [exact Hf|]. intros [x y] [H1 H2]. cbn [fst snd] in *.
        split; (eapply fle_trans; [eassumption|]); eapply fle_trans; eassumption.
      * apply Forall_cons_2; [|apply Forall_nil_2]. cbn [fst snd].
        split; [exact Hle|apply fle_refl, Hat].
Qed.

Lemma stopSession_schedule (render : ReactState) (s : App) :
  schedule (snd (stopSession render s)) = schedule s.
Proof. rewrite stopSession_eq. reflexivity. Qed.

Lemma startSession_schedule (v : Variant) (env : StartEnv) (s : App) :
  schedule (snd (startSession v env s)) = schedule s.
Proof.
  destruct s as [r [se ic oc nx so] [c tr ss n cl]], env as [ri ro gum con].
  destruct v, ri as [[]|?], ro as [[]|?], gum as [k|?], con as [[]|?];
    reflexivity.
Qed.

Lemma onerror_schedule (render : ReactState) (s : App) :
  schedule (snd (onerror render s)) = schedule s.
Proof.
  unfold onerror, mbind, M_bind. cbn [setStatus modify_react modify].
  rewrite stopSession_eq. reflexivity.
Qed.

Lemma step_since (v : Variant) (base : nat) (l : Live) (e : event) :
  no_interrupt e -> clocked e ->
  scheduled_since base (schedule (app l)) ->
  scheduled_since base (schedule (app (step v l e))).
Proof.
  intros He Hc H. destruct e as [env|message env|source| |]; cbn [step app].
  - destruct (isRecording (react (app l))); cbn [app].
    + rewrite stopSession_schedule. exact H.
    + rewrite startSession_schedule. exact H.
  - eapply schedule_step_since; [exact Hc| |exact H]. apply onmessage_schedule, He.
  - exact H.
  - rewrite stopSession_schedule. exact H.
  - rewrite onerror_schedule. exact H.
Qed.

Lemma run_since (v : Variant) (base : nat) (es : list event) (l : Live) :
  Forall no_interrupt es -> Forall clocked es ->
  scheduled_since base (schedule (app l)) ->
  scheduled_since base (schedule (app (run v es l))).
Proof.
  intros Hes. revert l. induction Hes as [|e es He _ IH]; intros l Hc H; [exact H|].
  apply Forall_cons in Hc. destruct Hc as [Hc Hcs].
  cbn [run fold_left]. apply IH; [exact Hcs|]. apply step_since; assumption.
Qed.

(** Along every run the anchor stays a time while the clocks are. *)
Lemma step_anchor (v : Variant) (l : Live) (e : event) :
  clocked e ->
  is_time (nextStartTimeRef (refs (app l))) = true ->
  is_time (nextStartTimeRef (refs (app (step v l e)))) = true.
Proof.
  intros Hc H. destruct e as [env|message env|source| |]; cbn [step app].
  - destruct (isRecording (react (app l))); cbn [app].
    + pose proof (stopSession_schedule (react (app l)) (app l)) as E.
      unfold schedule in E. injection E as _ ->. exact H.
    + pose proof (startSession_schedule v env (app l)) as E.
      unfold schedule in E. injection E as _ ->. exact H.
  - apply onmessage_anchor; assumption.
  - exact H.
  - pose proof (stopSession_schedule (sessionRender l) (app l)) as E.
    unfold schedule in E. injection E as _ ->. exact H.
  - pose proof (onerror_schedule (sessionRender l) (app l)) as E.
    unfold schedule in E. injection E as _ ->. exact H.
Qed.

Lemma run_anchor (v : Variant) (es : list event) (l : Live) :
  Forall clocked es ->
  is_time (nextStartTimeRef (refs (app l))) = true ->
  is_time (nextStartTimeRef (refs (app (run v es l)))) = true.
Proof.
  intros Hes. revert l. induction Hes as [|e es He _ IH]; intros l H; [exact H|].
  cbn [run fold_left]. apply IH, step_anchor; assumption.
Qed.

(** C4, amended. After an interrupted event is processed to its end (the
    audio part of the same message did not throw) the active playback set
    is empty; and whatever happens next, the buffer of a message handled
    afterwards, the anchor being finite, is enqueued with a start that is
    not before the output clock's time at that message. *)
Theorem enqueue_after_interrupt (v : Variant) (render : ReactState)
    (message : LiveServerMessage) (env : MessageEnv) (s : App) :
  interrupted message = true ->
  fst (onmessage v render message env s) = Ok tt ->
  let s1 := snd (onmessage v render message env s) in
  sourcesRef (refs s1) = ∅
  /\ (forall es render' message' env' b,
        Forall clocked es ->
        let s2 := app (run v es (mkLive s1 render)) in
        is_clock (currentTime env') = true ->
        is_finite (nextStartTimeRef (refs s2)) = true ->
        is_Some (outputAudioContextRef (refs s2)) ->
        audioBufferOf message' = Ok (Some b) ->
        exists start,
          nodes (plat (snd (onmessage v render' message' env' s2)))
          = nodes (plat s2) ++ [(start, duration b)]
          /\ fle (currentTime env') start).
Proof.
  intros Hi Hok. cbv zeta.
  destruct (interrupted_effect v render message env s Hi Hok) as (Hs & Hn & _).
  split; [exact Hs|]. intros es render' message' env' b Hes Hnow Hfin Hctx Hb.
  assert (Ht : is_time (nextStartTimeRef
                          (refs (app (run v es
                             (mkLive (snd (onmessage v render message env s)) render)))))
               = true).
  { apply run_anchor; [exact Hes|]. cbn [app]. rewrite Hn. reflexivity. }
  eexists. split.
  - apply onmessage_enqueues; [assumption..|]. apply accepted_max; assumption.
  - apply fle_max_r; [exact Ht|apply is_clock_time, Hnow].
Qed.

Lemma enqueue_after_interrupt_witness :
  let s := snd (onmessage FirstVariant initialReact (audio "AAA=") (at_time 5)
                  (snd (startSession FirstVariant granted initialApp))) in
  let s1 := snd (onmessage FirstVariant initialReact barge_in (at_time 5) s) in
  let s2 := app (run FirstVariant [Message (heard "Hi") (at_time 6)]
                   (mkLive s1 initialReact)) in
  size (sourcesRef (refs s)) = 1%nat
  /\ sourcesRef (refs s1) = ∅
  /\ exists start,
       nodes (plat (snd (onmessage FirstVariant initialReact (audio "AAAAAA==") (at_time 7) s2)))
       = nodes (plat s2)
         ++ [(start, duration (mkAudioBuffer 24000 [[Fin (0 # 32768); Fin (0 # 32768)]]))]
       /\ fle (currentTime (at_time 7)) start.
Proof.
  cbv zeta. split; [vm_compute; reflexivity|].
  destruct (enqueue_after_interrupt FirstVariant initialReact barge_in (at_time 5)
              (snd (onmessage FirstVariant initialReact (audio "AAA=") (at_time 5)
                      (snd (startSession FirstVariant granted initialApp))))
              eq_refl eq_refl) as (Hs & He).
  split; [exact Hs|].
  apply (He [Message (heard "Hi") (at_time 6)] initialReact (audio "AAAAAA==") (at_time 7)
           (mkAudioBuffer 24000 [[Fin (0 # 32768); Fin (0 # 32768)]])).
  - apply Forall_cons_2; [vm_compute; reflexivity|apply Forall_nil_2].
  - vm_compute. reflexivity.
  - vm_compute. reflexivity.
  - vm_compute. eexists. reflexivity.
  - vm_compute. reflexivity.
Defined.

(** C4: an interrupted message whose audio part throws (a payload that
    does not decode, or a model turn without parts) leaves the active
    set as it was, here with the one source that is playing. *)
Lemma interrupted_not_reached :
  let s := snd (onmessage FirstVariant initialReact (audio "AAA=") (at_time 5)
                  (snd (startSession FirstVariant granted initialApp))) in
  let undecodable := mkMessage None None (playing "AAAA") false true in
  let partless := mkMessage None None no_parts false true in
  size (sourcesRef (refs s)) = 1%nat
  /\ interrupted undecodable = true
  /\ fst (onmessage FirstVariant initialReact undecodable (at_time 6) s) = Throw RangeError
  /\ sourcesRef (refs (snd (onmessage FirstVariant initialReact undecodable (at_time 6) s)))
     = sourcesRef (refs s)
  /\ interrupted partless = true
  /\ fst (onmessage FirstVariant initialReact partless (at_time 6) s) = Throw TypeError
  /\ sourcesRef (refs (snd (onmessage FirstVariant initialReact partless (at_time 6) s)))
     = sourcesRef (refs s).
Proof. vm_compute. repeat split; reflexivity. Qed.

(** C5, amended. Along every run without an interruption, the clock
    values being finite times, the buffers enqueued by the message
    handler are started in order: each starts no earlier than the one
    before it, and no earlier than the sum of the start and the duration
    of the one before it as the handler computes it, in double
    precision. *)
Theorem schedule_ordered (v : Variant) (es : list event) (l : Live) :
  Forall no_interrupt es -> Forall clocked es ->
  is_time (nextStartTimeRef (refs (app l))) = true ->
  ordered (drop (length (nodes (plat (app l)))) (nodes (plat (app (run v es l))))).
Proof.
  intros Hes Hcs Ht.
  apply (run_since v (length (nodes (plat (app l)))) es l Hes Hcs).
  unfold scheduled_since, schedule. cbn [fst snd]. rewrite drop_all.
  split; [lia|]. split; [exact Ht|]. split; [|apply Forall_nil_2].
  intros i a b Ha. discriminate Ha.
Qed.

Lemma schedule_ordered_witness :
  ordered
    (drop (length (nodes (plat (app initialLive))))
       (nodes (plat (app (run FirstVariant
          [Toggle granted; Message (audio "AAAAAA==") (at_time 5);
           Message (audio "AAA=") (at_time 5)] initialLive))))).
Proof.
  apply (schedule_ordered FirstVariant).
  - repeat apply Forall_cons_2; try apply Forall_nil_2; exact I || reflexivity.
  - repeat apply Forall_cons_2; try apply Forall_nil_2; exact I || (vm_compute; reflexivity).
  - reflexivity.
Defined.

(** Two buffers arriving at the same clock time play one after the other. *)
Example schedule_two :
  nodes (plat (app (run FirstVariant
     [Toggle granted; Message (audio "AAAAAA==") (at_time 5);
      Message (audio "AAA=") (at_time 5)] initialLive)))
  = [(double_of_Z 5, fdiv (double_of_Z 2) (double_of_Z 24000));
     (fadd (double_of_Z 5) (fdiv (double_of_Z 2) (double_of_Z 24000)),
      fdiv (double_of_Z 1) (double_of_Z 24000))].
Proof. vm_compute. reflexivity. Qed.

(** C5: the sum that moves the anchor is rounded. With the clock at 5,
    the second of two buffers of one frame is started at the double
    nearest to 5 + 1/24000, which is below it: before the real number at
    which the first buffer ends, whether its duration is taken as the
    number the handler adds or as one frame at 24000 Hz. *)
Lemma schedule_overlap :
  let ns := nodes (plat (app (run FirstVariant
              [Toggle granted; Message (audio "AAA=") (at_time 5);
               Message (audio "AAA=") (at_time 5)] initialLive))) in
  exists a b start_a duration_a start_b,
    ns = [a; b]
    /\ exact (fst a) = Some start_a /\ exact (snd a) = Some duration_a
    /\ exact (fst b) = Some start_b
    /\ (start_a == 5)%Q
    /\ (start_b < start_a + duration_a)%Q
    /\ (start_b < start_a + (1 # 24000))%Q.
Proof.
  cbv zeta. eexists _, _, _, _, _.
  split; [vm_compute; reflexivity|].
  split; [vm_compute; reflexivity|]. split; [vm_compute; reflexivity|].
  split; [vm_compute; reflexivity|]. split; [vm_compute; reflexivity|].
  split; vm_compute; reflexivity.
Qed.

(** ** The history *)

(** C1. The history does not follow the transcripts of the turn. In the
    first variant a session started from the initial state records a turn
    whose texts are both empty; in the guarded variant the turn heard as
    "Hello" and translated as "Hola" is not recorded: the handler reads
    the transcripts of the render that started the session. *)
Theorem history_stale_transcripts :
  history (react (app (run FirstVariant
    [Toggle granted; Message turn_complete (at_time 1)] initialLive)))
  = [mkHistoryItem 0 (Some []) (Some []) (lit "Auto") (lit "English")]
  /\ let l := run GuardedVariant
       [Toggle granted; Message (heard "Hello") (at_time 1);
        Message (said "Hola") (at_time 2); Message turn_complete (at_time 3)]
       initialLive in
     transcript (react (app l)) = Some (lit "Hello")
     /\ translation (react (app l)) = Some (lit "Hola")
     /\ history (react (app l)) = [].
Proof. vm_compute. auto. Qed.

(** ** [translateText] *)

(** C9. [translateText] never throws. For a text that is blank it
    returns the empty string; otherwise it returns the text of the
    backend's response, trimmed, when there is any, ['Translation failed']
    when the response has no text or only white space, and ['Error in
    translation service'] when the backend call throws. *)
Theorem translateText_total (generateContent : jsstring -> jsstring -> result text)
    (text targetLang modelName : jsstring) :
  let out := translateText generateContent text targetLang modelName in
  let response := generateContent modelName (prompt text targetLang) in
  (exists translated, out = Ok translated)
  /\ (trim text = [] -> out = Ok [])
  /\ (trim text <> [] ->
      (forall t, response = Ok (Some t) -> trim t <> [] -> out = Ok (trim t))
      /\ (forall t, response = Ok (Some t) -> trim t = [] ->
            out = Ok (lit "Translation failed"))
      /\ (response = Ok None -> out = Ok (lit "Translation failed"))
      /\ (forall e, response = Throw e -> out = Ok (lit "Error in translation service"))).
Proof.
  cbv zeta. unfold translateText.
  destruct (trim text) as [|c t0] eqn:Et.
  - split; [eauto|]. split; [reflexivity|]. intros H. congruence.
  - split.
    { destruct (generateContent modelName (prompt text targetLang)) as [[t|]|e];
        cbn; [destruct (trim t)|..]; eauto. }
    split; [discriminate|]. intros _.
    split; [|split; [|split]].
    + intros t -> Ht. cbn. destruct (trim t); [congruence|reflexivity].
    + intros t -> Ht. cbn. rewrite Ht. reflexivity.
    + intros ->. reflexivity.
    + intros e ->. reflexivity.
Qed.

Lemma translateText_total_witness :
  translateText (answering (Some (lit " Hola "))) (lit "Hello") (lit "Dansk")
    (lit "gemini-3-flash-preview")
  = Ok (trim (lit " Hola ")).
Proof.
  apply (translateText_total (answering (Some (lit " Hola "))) (lit "Hello")
           (lit "Dansk") (lit "gemini-3-flash-preview")) with (t := lit " Hola ");
    [discriminate|reflexivity|discriminate].
Defined.

Example translateText_trims :
  translateText (answering (Some (lit " Hola "))) (lit "Hello") (lit "Dansk")
    (lit "gemini-3-flash-preview")
  = Ok (lit "Hola").
Proof. reflexivity. Qed.

(** * Further properties *)

(** ** The transport *)

Lemma encode_units_length (l : list N) :
  length (Base64.encode_units l) = (4 * ((length l + 2) / 3))%nat.
Proof.
  induction l as [|a|a b|a b c l IH] using Base64Facts.list_ind3; try reflexivity.
  cbn [Base64.encode_units length]. rewrite IH.
  replace (S (S (S (length l))) + 2)%nat with (length l + 2 + 1 * 3)%nat by lia.
  rewrite Nat.div_add by lia. lia.
Qed.

(** X1. [encode] never throws, and the string it returns has four
    characters for every three bytes, the last group rounded up. *)
Theorem encode_length (b : list byte) :
  exists base64,
    encode b = Ok base64 /\ length base64 = (4 * ((length b + 2) / 3))%nat.
Proof.
  exists (Base64.encode_units (map Byte.to_N b)). split.
  - rewrite encode_binary. apply Base64Facts.atob_btoa, binary_small.
  - rewrite encode_units_length, length_map. reflexivity.
Qed.

Lemma removelast_keeps (d : list N) (x : N) :
  x ∈ d -> x <> Base64.pad -> Base64.ends_with_pad d = true -> x ∈ removelast d.
Proof.
  intros Hx Hne He. destruct d as [|y d _] using rev_ind; [inversion Hx|].
  rewrite removelast_last. unfold Base64.ends_with_pad in He.
  rewrite last_snoc in He. apply bool_decide_eq_true in He. injection He as ->.
  apply elem_of_app in Hx. destruct Hx as [Hx|Hx]; [exact Hx|].
  apply list_elem_of_singleton in Hx. contradiction.
Qed.

Lemma strip_padding_keeps (d : list N) (x : N) :
  x ∈ d -> x <> Base64.pad -> x ∈ Base64.strip_padding d.
Proof.
  intros Hx Hne. unfold Base64.strip_padding.
  destruct (_ =? 0)%N; cbn [andb]; [|exact Hx].
  destruct (Base64.ends_with_pad d) eqn:E1; [|exact Hx].
  pose proof (removelast_keeps d x Hx Hne E1) as Hx1.
  destruct (Base64.ends_with_pad (removelast d)) eqn:E2; [|exact Hx1].
  apply removelast_keeps; assumption.
Qed.

(** X2. [decode] throws on a string that holds a character which is
    neither of the base64 alphabet nor white space nor [=]. *)
Theorem decode_rejects (base64 : jsstring) (c : N) :
  c ∈ base64 ->
  Base64.is_ascii_whitespace c = false -> c <> Base64.pad -> Base64.index_of c = None ->
  decode base64 = Throw InvalidCharacterError.
Proof.
  intros Hc Hws Hpad Hidx. unfold decode, Base64.atob.
  set (d := Base64.strip_padding _).
  assert (Hd : c ∈ d).
  { apply strip_padding_keeps; [|assumption].
    apply list_elem_of_In, filter_In. split; [apply list_elem_of_In, Hc|].
    rewrite Hws. reflexivity. }
  destruct (_ =? 1)%N; [reflexivity|].
  destruct (mapM Base64.index_of d) as [sx|] eqn:E; [|reflexivity].
  assert (Hall : Forall (fun x => is_Some (Base64.index_of x)) d).
  { apply mapM_is_Some. rewrite E. eauto. }
  rewrite Forall_forall in Hall. specialize (Hall c Hd). rewrite Hidx in Hall.
  destruct Hall as [? [=]].
Qed.

Lemma decode_rejects_witness : decode (lit "AA!A") = Throw InvalidCharacterError.
Proof.
  apply (decode_rejects (lit "AA!A") 33%N); [|reflexivity|discriminate|reflexivity].
  apply list_elem_of_In. simpl. auto.
Defined.

(** ** Quantization *)

Lemma ToInt16_sample (z : Z) : int16 z -> ToInt16 (inject_Z z / 32768 * 32768) = z.
Proof.
  intros Hz. unfold int16 in Hz. unfold ToInt16, Qdiv, Qinv, Qmult, inject_Z.
  cbn [Qnum Qden]. rewrite Z.mul_1_r.
  change (Z.pos (1 * 32768 * 1)) with 32768.
  rewrite Z.quot_mul by lia. cbv zeta.
  destruct (Z.leb_spec 32768 (z mod 65536)); euclid.
Qed.

Lemma quantize_idemp (x : Q) : quantize (quantize x) = quantize x.
Proof.
  unfold quantize at 1 3. f_equal. f_equal. unfold quantize.
  apply ToInt16_sample, ToInt16_range.
Qed.

(** X3. A second cycle of encoding and decoding reproduces the outcome
    of the first exactly, whatever the samples: what was lost is lost by
    the first. In particular silence stays silence. *)
Theorem roundtrip_stable (samples : list Q) :
  samples <> [] ->
  roundtrip (map quantize samples) = roundtrip samples
  /\ roundtrip samples = Ok (mkAudioBuffer 24000 [map (fun x => Fin (quantize x)) samples]).
Proof.
  intros Hne. split; [|apply roundtrip_quantize, Hne].
  rewrite !roundtrip_quantize; [|assumption|destruct samples; [congruence|discriminate]].
  rewrite map_map. do 3 f_equal. apply map_ext. intros x.
  rewrite quantize_idemp. reflexivity.
Qed.

Lemma roundtrip_stable_witness :
  roundtrip (map quantize [0%Q; (1 # 3)%Q]) = roundtrip [0%Q; (1 # 3)%Q]
  /\ roundtrip [0%Q; (1 # 3)%Q]
     = Ok (mkAudioBuffer 24000 [map (fun x => Fin (quantize x)) [0%Q; (1 # 3)%Q]]).
Proof. apply (roundtrip_stable [0%Q; (1 # 3)%Q]). discriminate. Defined.

(** X4. Below full scale the sample that comes back lies between zero
    and the sample sent: truncation is toward zero, never away from it. *)
Theorem quantize_toward_zero (x : Q) :
  (-1 <= x)%Q -> (x < 1)%Q ->
  ((0 <= x)%Q -> (0 <= quantize x)%Q /\ (quantize x <= x)%Q)
  /\ ((x <= 0)%Q -> (x <= quantize x)%Q /\ (quantize x <= 0)%Q).
Proof.
  intros Hlo Hhi. unfold quantize. rewrite ToInt16_in_range by assumption.
  destruct x as [p q]. cbn [Qnum Qden].
  pose proof (trunc_bounds (p * 32768) (Zpos q) ltac:(lia)) as Ht.
  pose proof (Z.quot_pos (p * 32768) (Zpos q)) as Hpos.
  pose proof (Z.quot_opp_l (p * 32768) (Zpos q) ltac:(lia)) as Hopp.
  pose proof (Z.quot_pos (- (p * 32768)) (Zpos q)) as Hneg.
  set (t := Z.quot (p * 32768) (Z.pos q)) in *.
  unfold Qle, Qdiv, Qinv, Qmult, inject_Z. cbn [Qnum Qden].
  rewrite ?Pos.mul_1_l, ?Pos.mul_1_r, ?Z.mul_1_r, ?Pos2Z.inj_mul.
  split; intros Hs; split; nia.
Qed.

Lemma quantize_toward_zero_witness :
  ((0 <= 1 # 3)%Q -> (0 <= quantize (1 # 3))%Q /\ (quantize (1 # 3) <= 1 # 3)%Q)
  /\ ((1 # 3 <= 0)%Q -> (1 # 3 <= quantize (1 # 3))%Q /\ (quantize (1 # 3) <= 0)%Q).
Proof.
  apply (quantize_toward_zero (1 # 3)); unfold Qle, Qlt; simpl; lia.
Defined.

(** X5. A sample from full scale up to, but not including, twice full
    scale wraps: it comes back two below its value, within 1/32768. *)
Theorem quantize_wraps (x : Q) :
  (1 <= x)%Q -> (x < 2)%Q -> (Qabs (quantize x - (x - 2)) <= 1 # 32768)%Q.
Proof.
  destruct x as [p q]. intros Hlo Hhi.
  assert (E : ToInt16 ((p # q) * 32768) = Z.quot (p * 32768) (Zpos q) - 65536).
  { unfold Qle, Qlt in Hlo, Hhi. unfold ToInt16. cbn [Qnum Qden Qmult] in *.
    rewrite Pos.mul_1_r.
    pose proof (trunc_bounds (p * 32768) (Zpos q) ltac:(lia)) as Ht.
    set (t := Z.quot (p * 32768) (Z.pos q)) in *.
    assert (Hr : 32768 <= t <= 65535) by nia.
    cbv zeta. destruct (Z.leb_spec 32768 (t mod 65536)); euclid. }
  unfold quantize. rewrite E.
  pose proof (trunc_bounds (p * 32768) (Zpos q) ltac:(lia)) as Ht.
  set (t := Z.quot (p * 32768) (Z.pos q)) in *.
  apply Qabs_Qle_condition.
  unfold Qle, Qminus, Qplus, Qopp, Qdiv, Qinv, Qmult, inject_Z. cbn [Qnum Qden].
  rewrite ?Pos.mul_1_l, ?Pos.mul_1_r, ?Z.mul_1_r, ?Pos2Z.inj_mul.
  split; nia.
Qed.

Lemma quantize_wraps_witness : (Qabs (quantize (3 # 2) - ((3 # 2) - 2)) <= 1 # 32768)%Q.
Proof. apply (quantize_wraps (3 # 2)); unfold Qle, Qlt; simpl; lia. Defined.

(** ** The decoded buffer *)

Lemma decodeAudioData_no_channel (data : list byte) (rate : Q) :
  exists e, decodeAudioData data rate 0 = Throw e.
Proof.
  unfold decodeAudioData, Int16Array_of_buffer.
  destruct (Nat.even (length data)); cbn; eauto.
Qed.

(** X6. Whenever [decodeAudioData] succeeds, the buffer has the sample
    rate asked for and as many channels as asked for, all of the same
    length, which is the number of whole frames of the input and is not
    zero; on one channel at 24000 Hz its duration is the quotient, in
    double precision, of that number of samples by 24000, and is a time. *)
Theorem decodeAudioData_shape (data : list byte) (rate : Q) (n : nat) (b : AudioBuffer) :
  decodeAudioData data rate n = Ok b ->
  sampleRate b = rate
  /\ length (channels b) = n
  /\ Forall (fun ch => length ch = (length data / (2 * n))%nat) (channels b)
  /\ frames b = (length data / (2 * n))%nat
  /\ (0 < frames b)%nat
  /\ (n = 1%nat -> rate = 24000%Q ->
      duration b = fdiv (double_of_Z (Z.of_nat (length data / 2))) (double_of_Z 24000)
      /\ is_time (duration b) = true).
Proof.
  intros E.
  destruct (Nat.even (length data)) eqn:Heven.
  2:{ rewrite decodeAudioData_odd in E by (rewrite <- Nat.negb_even, Heven; reflexivity).
      discriminate. }
  destruct (decide (n = 0%nat)) as [->|Hn].
  { destruct (decodeAudioData_no_channel data rate) as [e He]. congruence. }
  destruct (decide (length data < 2 * n)%nat) as [Hshort|Hlong].
  { rewrite decodeAudioData_short in E by (assumption || lia). discriminate. }
  rewrite decodeAudioData_planar in E by (assumption || lia). injection E as <-.
  assert (Hframes : (length (int16_pairs data) / n = length data / (2 * n))%nat)
    by (rewrite int16_pairs_length, Nat.Div0.div_div; reflexivity).
  assert (Hpos : (0 < length data / (2 * n))%nat)
    by (apply Nat.div_str_pos; lia).
  assert (Hch : Forall (fun ch => length ch = (length data / (2 * n))%nat)
                  (planar (int16_pairs data) n)).
  { apply Forall_forall. intros ch Hin. unfold planar in Hin.
    apply list_elem_of_fmap in Hin. destruct Hin as (c & -> & _).
    rewrite length_map, length_seq. exact Hframes. }
  assert (Hfr : frames (mkAudioBuffer rate (planar (int16_pairs data) n))
                = (length data / (2 * n))%nat).
  { unfold frames. cbn [channels]. destruct n as [|n]; [lia|].
    unfold planar. cbn [seq map lookup list_lookup default from_option id].
    rewrite length_map, length_seq. exact Hframes. }
  cbn [sampleRate channels]. split; [reflexivity|].
  split; [unfold planar; rewrite length_map, length_seq; reflexivity|].
  split; [exact Hch|]. split; [exact Hfr|]. split; [rewrite Hfr; exact Hpos|].
  intros -> ->. split; [|apply duration_time; reflexivity].
  unfold duration. rewrite Hfr. cbn [sampleRate].
  rewrite Nat.mul_1_r. reflexivity.
Qed.

Lemma decodeAudioData_shape_witness :
  sampleRate (mkAudioBuffer 24000 (planar (int16_pairs [x01; x00; xff; x7f]) 1)) = 24000%Q
  /\ length (channels (mkAudioBuffer 24000 (planar (int16_pairs [x01; x00; xff; x7f]) 1)))
     = 1%nat
  /\ duration (mkAudioBuffer 24000 (planar (int16_pairs [x01; x00; xff; x7f]) 1))
     = fdiv (double_of_Z 2) (double_of_Z 24000).
Proof.
  pose proof (decodeAudioData_shape [x01; x00; xff; x7f] 24000 1
                (mkAudioBuffer 24000 (planar (int16_pairs [x01; x00; xff; x7f]) 1))
                eq_refl) as H.
  split; [apply H|]. split; [apply H|].
  apply H; reflexivity.
Defined.

(** ** Start and stop together *)

(** A start whose requests are all granted, in one step. *)
Lemma startSession_granted (v : Variant) (env : StartEnv) (k : nat) (s : App) :
  all_granted env k ->
  startSession v env s
  = (Ok tt,
     let r := react s in
     let p := plat s in
     mkApp
       (mkReact (sourceLang r) (targetLang r) (gender r) Lytter true (transcript r)
          (translation r) (history r) (Some (seq (length (tracks p)) k)))
       (mkRefs (Some (length (sessions p))) (Some (length (contexts p)))
          (Some (S (length (contexts p)))) (nextStartTimeRef (refs s))
          (sourcesRef (refs s)))
       (mkPlatform ((contexts p ++ [true]) ++ [true]) (tracks p ++ replicate k true)
          (sessions p ++ [true]) (nodes p) (calls p))).
Proof.
  destruct s as [r [se ic oc nx so] [c tr ss n cl]], env as [ri ro gum con].
  intros (H1 & H2 & H3 & H4). cbn in H1, H2, H3, H4. subst.
  destruct v; unfold startSession, try_catch, mbind, M_bind; cbn;
    rewrite ?length_app; cbn; rewrite ?Nat.add_1_r; reflexivity.
Qed.

Lemma two_contexts (l : list bool) :
  ((l ++ [true]) ++ [true]) !! length l = Some true
  /\ ((l ++ [true]) ++ [true]) !! S (length l) = Some true.
Proof.
  rewrite <- app_assoc. split.
  - rewrite lookup_app_r, Nat.sub_diag by lia. reflexivity.
  - rewrite lookup_app_r by lia.
    replace (S (length l) - length l)%nat with 1%nat by lia. reflexivity.
Qed.

Lemma stop_all_fresh (tr : list bool) (k t : nat) :
  (length tr <= t < length tr + k)%nat ->
  stop_all (seq (length tr) k) (tr ++ replicate k true) !! t = Some false.
Proof.
  intros Ht. rewrite stop_all_lookup.
  rewrite (bool_decide_eq_true_2 (t ∈ seq (length tr) k)) by (apply elem_of_seq; lia).
  rewrite lookup_app_r by lia.
  rewrite lookup_replicate_2 by lia. reflexivity.
Qed.

(** X7. A start whose requests are all granted, followed by the user's
    stop, releases what the start acquired, except the output context:
    the session and the input context are closed, every track of the
    stream is ended, the refs and the stream are cleared, the status is
    ['Klar']; the output context is open and still held. *)
Theorem start_then_stop (v : Variant) (env env' : StartEnv) (k : nat) (l : Live) :
  isRecording (react (app l)) = false ->
  all_granted env k ->
  let s := app l in
  let s' := app (run v [Toggle env; Toggle env'] l) in
  isRecording (react s') = false /\ status (react s') = Klar
  /\ stream (react s') = None
  /\ sessionRef (refs s') = None /\ inputAudioContextRef (refs s') = None
  /\ sessions (plat s') !! length (sessions (plat s)) = Some false
  /\ contexts (plat s') !! length (contexts (plat s)) = Some false
  /\ (forall t, (length (tracks (plat s)) <= t < length (tracks (plat s)) + k)%nat ->
        tracks (plat s') !! t = Some false)
  /\ outputAudioContextRef (refs s') = Some (S (length (contexts (plat s))))
  /\ contexts (plat s') !! S (length (contexts (plat s))) = Some true.
Proof.
  intros Hrec Hg. cbv zeta. cbn [run fold_left step]. rewrite Hrec. cbn [app].
  rewrite (startSession_granted v env k) by assumption. cbn [snd react isRecording].
  rewrite stopSession_eq. cbn.
  destruct (two_contexts (contexts (plat (app l)))) as [Hin Hout].
  repeat split.
  - rewrite list_lookup_insert_eq; [reflexivity|]. rewrite length_app. cbn. lia.
  - rewrite list_lookup_insert_eq; [reflexivity|]. rewrite !length_app. cbn. lia.
  - intros t Ht. apply stop_all_fresh, Ht.
  - rewrite list_lookup_insert_ne by lia. exact Hout.
Qed.

Lemma start_then_stop_witness :
  let s' := app (run FirstVariant [Toggle granted; Toggle granted] initialLive) in
  isRecording (react s') = false /\ status (react s') = Klar
  /\ stream (react s') = None
  /\ sessionRef (refs s') = None /\ inputAudioContextRef (refs s') = None
  /\ sessions (plat s') !! 0%nat = Some false
  /\ contexts (plat s') !! 0%nat = Some false
  /\ (forall t, (0 <= t < 0 + 1)%nat -> tracks (plat s') !! t = Some false)
  /\ outputAudioContextRef (refs s') = Some 1%nat
  /\ contexts (plat s') !! 1%nat = Some true.
Proof.
  apply (start_then_stop FirstVariant granted granted 1 initialLive);
    [reflexivity|repeat split].
Defined.

(** X8. When the backend closes a session that was started while no
    stream was held, the cleanup runs through the callback of the render
    that started the session, whose [stream] is null: the session and the
    input context are closed, but the tracks of the microphone stay live
    and the stream stays in the state. *)
Theorem close_keeps_microphone (v : Variant) (env : StartEnv) (k : nat) (l : Live) :
  isRecording (react (app l)) = false ->
  stream (react (app l)) = None ->
  all_granted env k ->
  let s := app l in
  let s' := app (run v [Toggle env; Closed] l) in
  isRecording (react s') = false /\ status (react s') = Klar
  /\ sessions (plat s') !! length (sessions (plat s)) = Some false
  /\ contexts (plat s') !! length (contexts (plat s)) = Some false
  /\ stream (react s') = Some (seq (length (tracks (plat s))) k)
  /\ (forall t, (length (tracks (plat s)) <= t < length (tracks (plat s)) + k)%nat ->
        tracks (plat s') !! t = Some true).
Proof.
  intros Hrec Hstream Hg. cbv zeta. cbn [run fold_left step]. rewrite Hrec.
  cbn [app sessionRender].
  rewrite (startSession_granted v env k) by assumption. cbn [snd].
  rewrite stopSession_eq, Hstream. cbn.
  repeat split.
  - rewrite list_lookup_insert_eq; [reflexivity|]. rewrite length_app. cbn. lia.
  - rewrite list_lookup_insert_eq; [reflexivity|]. rewrite !length_app. cbn. lia.
  - intros t Ht. rewrite lookup_app_r by lia. apply lookup_replicate_2. lia.
Qed.

Lemma close_keeps_microphone_witness :
  let s' := app (run FirstVariant [Toggle granted; Closed] initialLive) in
  isRecording (react s') = false /\ status (react s') = Klar
  /\ sessions (plat s') !! 0%nat = Some false
  /\ contexts (plat s') !! 0%nat = Some false
  /\ stream (react s') = Some [0%nat]
  /\ (forall t, (0 <= t < 0 + 1)%nat -> tracks (plat s') !! t = Some true).
Proof.
  apply (close_keeps_microphone FirstVariant granted 1 initialLive);
    [reflexivity|reflexivity|repeat split].
Defined.

(** X9. [onerror] ends as [onclose] does: the ['Error'] status it sets
    is overwritten by the ['Klar'] of [stopSession], so that after a
    transport error the status is ['Klar']. *)
Theorem onerror_as_onclose (render : ReactState) (s : App) :
  onerror render s = stopSession render s
  /\ status (react (snd (onerror render s))) = Klar.
Proof.
  unfold onerror, mbind, M_bind. cbn [setStatus modify_react modify].
  rewrite !stopSession_eq. split; reflexivity.
Qed.

(** ** More on the message handler *)

Lemma handleTurnComplete_exact (v : Variant) (render : ReactState)
    (message : LiveServerMessage) (env : MessageEnv) (s : App) :
  handleTurnComplete v render message env s
  = (Ok tt,
     if turnComplete message then
       let r := react s in
       mkApp
         (mkReact (sourceLang r) (targetLang r) (gender r) Lytter (isRecording r)
            (transcript r) (translation r)
            (if match v with
                | FirstVariant => true
                | GuardedVariant =>
                    truthy (transcript render) && truthy (translation render)
                end
             then mkHistoryItem (date env) (transcript render) (translation render)
                    (sourceLabel render) (LANGUAGE_NAMES (targetLang render))
                  :: history r
             else history r)
            (stream r))
         (refs s) (plat s)
     else s).
Proof.
  destruct s as [[? ? ? ? ? tr tl ? ?] f p].
  unfold handleTurnComplete, mbind, M_bind.
  destruct (turnComplete message); cbn [when]; [|reflexivity].
  destruct v; [reflexivity|].
  destruct (truthy (transcript render) && truthy (translation render)); reflexivity.
Qed.

(** A message leaves the session, the contexts, the stream and the
    recording flag alone, and adds to the history at most one item, and
    only when it completes a turn. *)
Lemma onmessage_frame (v : Variant) (render : ReactState)
    (message : LiveServerMessage) (env : MessageEnv) (s : App) :
  let s' := snd (onmessage v render message env s) in
  same_resources s s'
  /\ history_step (turnComplete message) (history (react s)) (history (react s')).
Proof.
  destruct (handleTranscriptions_eq v message s) as (t & t' & E1).
  unfold onmessage, mbind, M_bind. rewrite E1. cbv zeta.
  match goal with |- context [handleAudioOutput message env ?x] => set (s1 := x) end.
  pose proof (handleAudioOutput_outcome message env s1) as Ha.
  destruct (handleAudioOutput message env s1) as [ra s2].
  unfold same_resources, history_step.
  inversion Ha; subst; cbn [snd];
    try (cbn; repeat split; auto; fail);
    rewrite handleTurnComplete_exact, handleInterrupted_eq;
    destruct (turnComplete message), (interrupted message); cbn;
    repeat split; auto;
    match goal with
    | |- context [if ?c then _ :: _ else _] => destruct c; eauto
    end.
Qed.

Lemma startSession_frame (v : Variant) (env : StartEnv) (s : App) :
  let s' := snd (startSession v env s) in
  history (react s') = history (react s)
  /\ transcript (react s') = transcript (react s)
  /\ translation (react s') = translation (react s).
Proof.
  destruct s as [r [se ic oc nx so] [c tr ss n cl]], env as [ri ro gum con].
  destruct v, ri as [[]|?], ro as [[]|?], gum as [k|?], con as [[]|?];
    repeat split; reflexivity.
Qed.

Lemma step_history (v : Variant) (l : Live) (e : event) :
  history_step (match e with
                | Message message _ => turnComplete message
                | _ => false
                end)
    (history (react (app l))) (history (react (app (step v l e)))).
Proof.
  destruct e as [env|message env|source| |]; cbn [step app].
  - destruct (isRecording (react (app l))); cbn [app]; left.
    + rewrite stopSession_eq. reflexivity.
    + apply startSession_frame.
  - apply onmessage_frame.
  - left. reflexivity.
  - left. rewrite stopSession_eq. reflexivity.
  - left. unfold onerror, mbind, M_bind. cbn [setStatus modify_react modify].
    rewrite stopSession_eq. reflexivity.
Qed.

(** X10. Along every run the history only grows, and at the front: what
    was recorded stays, in its order, and the items added are at most as
    many as the turn-complete messages of the run. *)
Theorem history_grows (v : Variant) (es : list event) (l : Live) :
  exists added,
    history (react (app (run v es l))) = added ++ history (react (app l))
    /\ (length added <= turns es)%nat.
Proof.
  revert l. induction es as [|e es IH]; intros l.
  - exists []. split; [reflexivity|]. cbn. lia.
  - cbn [run fold_left]. destruct (IH (step v l e)) as (added & E & Hlen).
    fold (run v es (step v l e)) in E. fold (run v es (step v l e)). rewrite E.
    unfold turns in *. cbn [List.filter].
    destruct (step_history v l e) as [->|(Hg & item & ->)].
    + exists added. split; [reflexivity|].
      destruct e as [?|m ?|?| |]; try exact Hlen.
      destruct (turnComplete m); cbn [length]; lia.
    + exists (added ++ [item]). split; [rewrite <- app_assoc; reflexivity|].
      destruct e as [?|m ?|?| |]; try discriminate Hg.
      rewrite Hg, length_app. cbn [length]. lia.
Qed.

Lemma same_resources_output_kept (s s' : App) :
  same_resources s s' -> output_kept s -> output_kept s'.
Proof.
  intros (Hc & _ & _ & _ & Hi & Ho & _) H o. rewrite Hc, Hi, Ho. apply H.
Qed.

Lemma stopSession_output_kept (render : ReactState) (s : App) :
  output_kept s -> output_kept (snd (stopSession render s)).
Proof.
  intros H o. rewrite stopSession_eq. cbn. intros Ho.
  destruct (H o Ho) as [Hopen Hne]. split; [|discriminate].
  destruct (inputAudioContextRef (refs s)) as [c|]; [|exact Hopen].
  rewrite list_lookup_insert_ne by congruence. exact Hopen.
Qed.

Lemma startSession_output_kept (v : Variant) (env : StartEnv) (s : App) :
  output_kept s -> output_kept (snd (startSession v env s)).
Proof.
  destruct s as [r [se ic oc nx so] [c tr ss n cl]], env as [ri ro gum con].
  unfold output_kept. cbn [refs plat outputAudioContextRef inputAudioContextRef contexts].
  intros H. destruct (two_contexts c) as [_ Hout].
  destruct v, ri as [[]|?], ro as [[]|?], gum as [k|?], con as [[]|?];
    unfold startSession, try_catch, mbind, M_bind; cbn;
    rewrite ?length_app; cbn [length]; rewrite ?Nat.add_1_r;
    intros o Ho.
  all: try (injection Ho as <-; split; [exact Hout|intros [=]; lia]).
  all: destruct (H o Ho) as [Hopen Hne]; split; [|exact Hne].
  all: rewrite <- app_assoc; apply lookup_app_l_Some, Hopen.
Qed.

Lemma step_output_kept (v : Variant) (l : Live) (e : event) :
  output_kept (app l) -> output_kept (app (step v l e)).
Proof.
  intros H. destruct e as [env|message env|source| |]; cbn [step app].
  - destruct (isRecording (react (app l))); cbn [app].
    + apply stopSession_output_kept, H.
    + apply startSession_output_kept, H.
  - eapply same_resources_output_kept; [apply onmessage_frame|exact H].
  - exact H.
  - apply stopSession_output_kept, H.
  - unfold onerror, mbind, M_bind. cbn [setStatus modify_react modify].
    apply stopSession_output_kept. exact H.
Qed.

(** X11. Along every run from the initial state, the output context the
    component holds is open: no start, stop, close, error or message ever
    closes it. *)
Theorem output_context_kept (v : Variant) (es : list event) :
  forall o,
    outputAudioContextRef (refs (app (run v es initialLive))) = Some o ->
    contexts (plat (app (run v es initialLive))) !! o = Some true.
Proof.
  assert (H : forall l, output_kept (app l) -> output_kept (app (run v es l))).
  { induction es as [|e es IH]; intros l Hl; [exact Hl|].
    cbn [run fold_left]. apply IH, step_output_kept, Hl. }
  intros o Ho. apply (H initialLive); [|exact Ho].
  intros o' [=].
Qed.

Lemma output_context_kept_witness :
  contexts (plat (app (run FirstVariant [Toggle granted; Closed; Toggle denied] initialLive)))
    !! 3%nat = Some true.
Proof.
  apply (output_context_kept FirstVariant [Toggle granted; Closed; Toggle denied] 3%nat).
  reflexivity.
Defined.

(** X12. A message whose audio payload does not decode, while an output
    context is held, makes the handler throw before it reaches the
    history and the interruption: nothing is scheduled, stopped or
    recorded, the status and the active set are as before, and the
    anchor has been raised to the clock. Only the transcripts may have
    changed. *)
Theorem undecodable_audio (v : Variant) (render : ReactState)
    (message : LiveServerMessage) (env : MessageEnv) (s : App)
    (audioData : text) (e : exn) :
  is_Some (outputAudioContextRef (refs s)) ->
  audioDataOf message = Ok audioData ->
  truthy audioData = true ->
  decode (default [] audioData)
    ≫= (fun bytes => decodeAudioData bytes 24000 1) = Throw e ->
  let s' := snd (onmessage v render message env s) in
  fst (onmessage v render message env s) = Throw e
  /\ plat s' = plat s
  /\ history (react s') = history (react s)
  /\ status (react s') = status (react s)
  /\ sourcesRef (refs s') = sourcesRef (refs s)
  /\ nextStartTimeRef (refs s')
     = Math_max (nextStartTimeRef (refs s)) (currentTime env).
Proof.
  intros Hctx Hread Haudio Hdec.
  destruct (handleTranscriptions_eq v message s) as (t & t' & E1).
  unfold onmessage, mbind, M_bind. rewrite E1. cbv zeta.
  destruct s as [r [se ic oc nx so] [c tr ss n cl]].
  cbn [refs outputAudioContextRef] in Hctx.
  unfold handleAudioOutput, mbind, M_bind. rewrite Hread.
  cbn [lift gets refs outputAudioContextRef react plat].
  rewrite Haudio, (bool_decide_eq_true_2 _ Hctx). cbn [andb when].
  cbn [gets refs nextStartTimeRef set_nextStartTimeRef modify_refs modify lift].
  destruct (decode (default [] audioData)) as [bytes|e0];
    cbn [mbind result_bind] in Hdec.
  - rewrite Hdec. cbn. repeat split; reflexivity.
  - injection Hdec as ->. cbn. repeat split; reflexivity.
Qed.

Lemma undecodable_audio_witness :
  let s := snd (startSession FirstVariant granted initialApp) in
  let message := mkMessage None None (playing "AAAA") true true in
  let s' := snd (onmessage FirstVariant initialReact message (at_time 5) s) in
  fst (onmessage FirstVariant initialReact message (at_time 5) s) = Throw RangeError
  /\ plat s' = plat s
  /\ history (react s') = history (react s)
  /\ status (react s') = status (react s)
  /\ sourcesRef (refs s') = sourcesRef (refs s)
  /\ nextStartTimeRef (refs s')
     = Math_max (nextStartTimeRef (refs s)) (currentTime (at_time 5)).
Proof.
  apply (undecodable_audio FirstVariant initialReact
           (mkMessage None None (playing "AAAA") true true) (at_time 5)
           (snd (startSession FirstVariant granted initialApp))
           (Some (lit "AAAA")) RangeError).
  - vm_compute. eexists. reflexivity.
  - reflexivity.
  - reflexivity.
  - vm_compute. reflexivity.
Defined.

(** X22. A message whose model turn has no parts makes the handler throw
    a TypeError when it reads the payload, after the transcripts were
    set: the refs, the platform, the history and the status are as
    before, so a turn-complete or an interruption carried by the same
    message is not handled. *)
Theorem partless_message (v : Variant) (render : ReactState)
    (message : LiveServerMessage) (env : MessageEnv) (s : App) (content : Content) :
  modelTurn message = Some content ->
  parts content = None ->
  let s' := snd (onmessage v render message env s) in
  fst (onmessage v render message env s) = Throw TypeError
  /\ refs s' = refs s /\ plat s' = plat s
  /\ history (react s') = history (react s)
  /\ status (react s') = status (react s).
Proof.
  intros Hturn Hparts.
  destruct (handleTranscriptions_eq v message s) as (t & t' & E1).
  unfold onmessage, mbind, M_bind. rewrite E1. cbv zeta.
  unfold handleAudioOutput, mbind, M_bind, audioDataOf. rewrite Hturn, Hparts.
  cbn. repeat split; reflexivity.
Qed.

Lemma partless_message_witness :
  let s := snd (onmessage FirstVariant initialReact (audio "AAA=") (at_time 5)
                  (snd (startSession FirstVariant granted initialApp))) in
  let message := mkMessage None None no_parts true true in
  let s' := snd (onmessage FirstVariant initialReact message (at_time 6) s) in
  fst (onmessage FirstVariant initialReact message (at_time 6) s) = Throw TypeError
  /\ refs s' = refs s /\ plat s' = plat s
  /\ history (react s') = history (react s)
  /\ status (react s') = status (react s).
Proof.
  apply (partless_message FirstVariant initialReact
           (mkMessage None None no_parts true true) (at_time 6)
           (snd (onmessage FirstVariant initialReact (audio "AAA=") (at_time 5)
                   (snd (startSession FirstVariant granted initialApp))))
           (mkContent None)); reflexivity.
Defined.

(** X13. A buffer enqueued by a message, the anchor and the clock being
    times, starts exactly at the anchor when the clock has not passed it
    (no gap after the buffer before), exactly at the clock when it has,
    and the anchor moves to the sum, in double precision, of its start
    and its duration. *)
Theorem enqueue_gapless (v : Variant) (render : ReactState)
    (message : LiveServerMessage) (env : MessageEnv) (s : App) (a d : double) :
  interrupted message = false ->
  is_time (nextStartTimeRef (refs s)) = true ->
  is_time (currentTime env) = true ->
  let s' := snd (onmessage v render message env s) in
  nodes (plat s') = nodes (plat s) ++ [(a, d)] ->
  (fle (currentTime env) (nextStartTimeRef (refs s)) -> a = nextStartTimeRef (refs s))
  /\ (fle (nextStartTimeRef (refs s)) (currentTime env) -> a = currentTime env)
  /\ nextStartTimeRef (refs s') = fadd a d.
Proof.
  intros Hi Hnext Hnow. cbv zeta. intros Hn.
  pose proof (onmessage_schedule v render message env s Hi) as Hs.
  unfold schedule in Hs. rewrite Hn in Hs.
  remember (nodes (plat s) ++ [(a, d)], nextStartTimeRef (refs (snd (onmessage v render message env s)))) as after eqn:Ea.
  remember (nodes (plat s), nextStartTimeRef (refs s)) as before eqn:Eb.
  destruct Hs as [ns next|ns next|ns next d0 Hd]; injection Eb as -> ->;
    injection Ea as E1 E2.
  - apply (f_equal length) in E1. rewrite length_app in E1. cbn in E1. lia.
  - apply (f_equal length) in E1. rewrite length_app in E1. cbn in E1. lia.
  - apply app_inv_head in E1. injection E1 as <- <-.
    split; [|split].
    + intros H. apply Math_max_l; assumption.
    + intros H. apply Math_max_r; assumption.
    + symmetry. exact E2.
Qed.

Lemma enqueue_gapless_witness :
  let s := snd (onmessage FirstVariant initialReact (audio "AAAAAA==") (at_time 5)
                  (snd (startSession FirstVariant granted initialApp))) in
  let s' := snd (onmessage FirstVariant initialReact (audio "AAA=") (at_time 5) s) in
  fle (currentTime (at_time 5)) (nextStartTimeRef (refs s))
  /\ nodes (plat s')
     = nodes (plat s)
       ++ [(nextStartTimeRef (refs s), fdiv (double_of_Z 1) (double_of_Z 24000))]
  /\ nextStartTimeRef (refs s')
     = fadd (nextStartTimeRef (refs s)) (fdiv (double_of_Z 1) (double_of_Z 24000)).
Proof.
  cbv zeta. split; [vm_compute; reflexivity|]. split; [vm_compute; reflexivity|].
  apply (enqueue_gapless FirstVariant initialReact (audio "AAA=") (at_time 5)
           (snd (onmessage FirstVariant initialReact (audio "AAAAAA==") (at_time 5)
                   (snd (startSession FirstVariant granted initialApp)))));
    vm_compute; reflexivity.
Defined.

(** ** The displayed texts *)

Lemma handleTranscriptions_first (message : LiveServerMessage) (s : App) :
  handleTranscriptions FirstVariant message s
  = (Ok tt,
     let r := react s in
     mkApp
       (mkReact (sourceLang r) (targetLang r) (gender r) (status r) (isRecording r)
          (match inputTranscription message with
           | Some t => or_else t (transcript r)
           | None => transcript r
           end)
          (match outputTranscription message with
           | Some t => or_else t (translation r)
           | None => translation r
           end)
          (history r) (stream r))
       (refs s) (plat s)).
Proof.
  destruct s as [[? ? ? ? ? tr tl ? ?] f p], message as [[i|] [o|] ? ? ?];
    reflexivity.
Qed.

Lemma or_else_truthy (t prev : text) : truthy prev = true -> truthy (or_else t prev) = true.
Proof. intros H. unfold or_else. destruct (truthy t) eqn:E; assumption. Qed.

Lemma onmessage_first_texts (render : ReactState)
    (message : LiveServerMessage) (env : MessageEnv) (s : App) :
  let s' := snd (onmessage FirstVariant render message env s) in
  (truthy (transcript (react s)) = true -> truthy (transcript (react s')) = true)
  /\ (truthy (translation (react s)) = true -> truthy (translation (react s')) = true).
Proof.
  unfold onmessage, mbind, M_bind. rewrite handleTranscriptions_first. cbv zeta.
  match goal with |- context [handleAudioOutput message env ?x] => set (s1 := x) end.
  pose proof (handleAudioOutput_outcome message env s1) as Ha.
  destruct (handleAudioOutput message env s1) as [ra s2].
  assert (H1 : (truthy (transcript (react s)) = true ->
                truthy (transcript (react s1)) = true)
               /\ (truthy (translation (react s)) = true ->
                   truthy (translation (react s1)) = true)).
  { unfold s1. cbn [react transcript translation].
    destruct (inputTranscription message), (outputTranscription message);
      split; intros H; try apply or_else_truthy; exact H. }
  inversion Ha; subst; cbn [snd]; try exact H1;
    rewrite handleTurnComplete_exact, handleInterrupted_eq;
    destruct (turnComplete message), (interrupted message); exact H1.
Qed.

(** X14. The first variant never blanks the texts it displays: along
    every run, once the transcript (or the translation) is a non-empty
    string it stays one, across turns, stops and new sessions. *)
Theorem texts_never_blanked (es : list event) (l : Live) :
  (truthy (transcript (react (app l))) = true ->
   truthy (transcript (react (app (run FirstVariant es l)))) = true)
  /\ (truthy (translation (react (app l))) = true ->
      truthy (translation (react (app (run FirstVariant es l)))) = true).
Proof.
  revert l. induction es as [|e es IH]; intros l; [split; auto|].
  cbn [run fold_left].
  assert (Hstep : (truthy (transcript (react (app l))) = true ->
                   truthy (transcript (react (app (step FirstVariant l e)))) = true)
                  /\ (truthy (translation (react (app l))) = true ->
                      truthy (translation (react (app (step FirstVariant l e)))) = true)).
  { destruct e as [env|message env|source| |]; cbn [step app].
    - destruct (isRecording (react (app l))); cbn [app].
      + rewrite stopSession_eq. split; auto.
      + destruct (startSession_frame FirstVariant env (app l)) as (_ & -> & ->).
        split; auto.
    - apply onmessage_first_texts.
    - split; auto.
    - rewrite stopSession_eq. split; auto.
    - unfold onerror, mbind, M_bind. cbn [setStatus modify_react modify].
      rewrite stopSession_eq. split; auto. }
  destruct (IH (step FirstVariant l e)) as [IH1 IH2]. destruct Hstep as [S1 S2].
  split; intros H; [apply IH1, S1, H|apply IH2, S2, H].
Qed.

Lemma texts_never_blanked_witness :
  let l := run FirstVariant [Toggle granted; Message (heard "Hello") (at_time 1)]
             initialLive in
  truthy (transcript (react (app l))) = true
  /\ truthy (transcript (react (app (run FirstVariant
        [Message (mkMessage (Some (Some [])) None None true false) (at_time 2);
         Toggle granted] l)))) = true.
Proof.
  split; [reflexivity|].
  apply (texts_never_blanked
           [Message (mkMessage (Some (Some [])) None None true false) (at_time 2);
            Toggle granted]
           (run FirstVariant [Toggle granted; Message (heard "Hello") (at_time 1)]
              initialLive)).
  vm_compute. reflexivity.
Defined.

(** ** The second revision *)

Lemma handleAudioOutput2_outcome (message : LiveServerMessage) (env : MessageEnv2)
    (s : App) :
  audio_outcome2 env s (handleAudioOutput2 message env s).
Proof.
  destruct s as [r [se ic oc nx so] [c tr ss n cl]].
  unfold handleAudioOutput2, mbind, M_bind. cbn [lift].
  destruct (audioDataOf message) as [audioData|e]; [|apply audio2_failed].
  cbn [gets refs outputAudioContextRef].
  destruct (truthy audioData && bool_decide (is_Some oc)); cbn [when];
    [|apply audio2_skipped].
  destruct (suspended env); cbn [when lift mret M_ret];
    [destruct (resume env) as [[]|e]; [|apply audio2_failed]|].
  all: destruct (decode _) as [bytes|e]; [|apply audio2_failed].
  all: destruct (decodeAudioData bytes 24000 1) as [b|e] eqn:E; [|apply audio2_failed].
  all: cbn [gets refs nextStartTimeRef set_nextStartTimeRef modify_refs modify].
  all: unfold source_start; cbn [plat refs nextStartTimeRef].
  all: destruct (accepted (Math_max nx (currentTime (base env)))) eqn:Hacc;
    [|exact (audio2_refused env
               (mkApp r (mkRefs se ic oc nx so) (mkPlatform c tr ss n cl)) _ Hacc)].
  all: assert (Hd : is_time (duration b) = true)
    by (apply duration_time; eapply decodeAudioData_rate, E).
  all: exact (audio2_scheduled env
                (mkApp r (mkRefs se ic oc nx so) (mkPlatform c tr ss n cl))
                (duration b) Hd).
Qed.

Lemma handleTurnComplete2_exact (render : ReactState)
    (message : LiveServerMessage) (env : MessageEnv2) (s : App) :
  exists h,
    handleTurnComplete2 render message env s
    = (Ok tt,
       let r := react s in
       mkApp (mkReact (sourceLang r) (targetLang r) (gender r) (status r) (isRecording r)
                (transcript r) (translation r) h (stream r))
         (refs s) (plat s)).
Proof.
  destruct s as [[? ? ? ? ? tr tl ? ?] f p].
  unfold handleTurnComplete2.
  destruct (turnComplete message); cbn [when]; [|cbn; eauto].
  destruct (truthy (transcript render) && truthy (translation render)); cbn; eauto.
Qed.

Lemma handleInterrupted2_eq (message : LiveServerMessage) (s : App) :
  handleInterrupted2 message s
  = (Ok tt,
     if interrupted message then
       let p := plat s in
       let r := react s in
       mkApp
         (mkReact (sourceLang r) (targetLang r) (gender r) Lytter (isRecording r)
            (transcript r) (translation r) (history r) (stream r))
         (mkRefs (sessionRef (refs s)) (inputAudioContextRef (refs s))
            (outputAudioContextRef (refs s)) zero ∅)
         (mkPlatform (contexts p) (tracks p) (sessions p) (nodes p)
            (calls p ++ map SourceStop (elements (sourcesRef (refs s)))))
     else s).
Proof.
  destruct s as [r [se ic oc nx so] [c tr ss n cl]].
  unfold handleInterrupted2, mbind, M_bind.
  destruct (interrupted message); cbn -[forEach elements]; [|reflexivity].
  rewrite forEach_source_stop. reflexivity.
Qed.

(** X15. In the second revision the payload is decoded before the
    anchor is touched: a message whose handler throws (the model turn
    has no parts, the context does not resume, the payload does not
    decode, or the start is refused), the clock being a finite time,
    leaves the refs, the platform, the history and the status exactly as
    they were. *)
Theorem onmessage2_throws (render : ReactState) (message : LiveServerMessage)
    (env : MessageEnv2) (s : App) (e : exn) :
  is_clock (currentTime (base env)) = true ->
  fst (onmessage2 render message env s) = Throw e ->
  let s' := snd (onmessage2 render message env s) in
  refs s' = refs s /\ plat s' = plat s
  /\ history (react s') = history (react s)
  /\ status (react s') = status (react s).
Proof.
  intros Hnow.
  destruct (handleTranscriptions_eq GuardedVariant message s) as (t & t' & E1).
  unfold onmessage2, mbind, M_bind. rewrite E1. cbv zeta.
  match goal with |- context [handleAudioOutput2 message env ?x] => set (s1 := x) end.
  pose proof (handleAudioOutput2_outcome message env s1) as Ha.
  destruct (handleAudioOutput2 message env s1) as [ra s2].
  inversion Ha; subst.
  - destruct (handleTurnComplete2_exact render message env s1) as (h & ->).
    rewrite handleInterrupted2_eq. cbn [fst]. discriminate.
  - intros _. cbn. repeat split; reflexivity.
  - intros _. cbn [snd refs plat react history status].
    match goal with
    | H : accepted _ = false |- _ =>
        unfold s1 in H; cbn [refs] in H; rewrite (refused_max _ _ Hnow H)
    end.
    destruct (refs s). repeat split; reflexivity.
  - match goal with
    | |- context [handleTurnComplete2 render message env ?x] =>
        destruct (handleTurnComplete2_exact render message env x) as (h & ->)
    end.
    rewrite handleInterrupted2_eq. cbn [fst]. discriminate.
Qed.

Lemma onmessage2_throws_witness :
  let s := snd (startSession GuardedVariant granted initialApp) in
  let env := mkMessageEnv2 (at_time 5) false (Ok tt) in
  let message := mkMessage None None (playing "AAAA") true true in
  let s' := snd (onmessage2 initialReact message env s) in
  refs s' = refs s /\ plat s' = plat s
  /\ history (react s') = history (react s)
  /\ status (react s') = status (react s).
Proof.
  apply (onmessage2_throws initialReact
           (mkMessage None None (playing "AAAA") true true)
           (mkMessageEnv2 (at_time 5) false (Ok tt))
           (snd (startSession GuardedVariant granted initialApp)) RangeError);
    vm_compute; reflexivity.
Defined.

(** X16. In the second revision too a message starts at most one
    buffer, which starts at the later of the anchor and the clock: never
    before the clock of the message and never before the anchor, these
    being times; its duration is a time, so it is not negative. *)
Theorem onmessage2_enqueue (render : ReactState) (message : LiveServerMessage)
    (env : MessageEnv2) (s : App) :
  let s' := snd (onmessage2 render message env s) in
  (length (nodes (plat s')) <= S (length (nodes (plat s))))%nat
  /\ forall a, a ∈ drop (length (nodes (plat s))) (nodes (plat s')) ->
       fst a = Math_max (nextStartTimeRef (refs s)) (currentTime (base env))
       /\ is_time (snd a) = true
       /\ (is_time (nextStartTimeRef (refs s)) = true ->
           is_time (currentTime (base env)) = true ->
           fle (currentTime (base env)) (fst a)
           /\ fle (nextStartTimeRef (refs s)) (fst a)).
Proof.
  destruct (handleTranscriptions_eq GuardedVariant message s) as (t & t' & E1).
  unfold onmessage2, mbind, M_bind. rewrite E1. cbv zeta.
  match goal with |- context [handleAudioOutput2 message env ?x] => set (s1 := x) end.
  pose proof (handleAudioOutput2_outcome message env s1) as Ha.
  destruct (handleAudioOutput2 message env s1) as [ra s2].
  assert (Hnil : forall a : double * double,
            a ∈ drop (length (nodes (plat s))) (nodes (plat s)) ->
            fst a = Math_max (nextStartTimeRef (refs s)) (currentTime (base env))
            /\ is_time (snd a) = true
            /\ (is_time (nextStartTimeRef (refs s)) = true ->
                is_time (currentTime (base env)) = true ->
                fle (currentTime (base env)) (fst a)
                /\ fle (nextStartTimeRef (refs s)) (fst a))).
  { intros a Hin. rewrite drop_all in Hin. inversion Hin. }
  inversion Ha; subst.
  - destruct (handleTurnComplete2_exact render message env s1) as (h & ->).
    rewrite handleInterrupted2_eq. cbn [snd].
    destruct (interrupted message); cbn; (split; [lia|exact Hnil]).
  - cbn. split; [lia|exact Hnil].
  - cbn. split; [lia|exact Hnil].
  - match goal with
    | |- context [handleTurnComplete2 render message env ?x] =>
        destruct (handleTurnComplete2_exact render message env x) as (h & ->)
    end.
    rewrite handleInterrupted2_eq. cbn [snd].
    assert (Hone : forall a : double * double,
              a ∈ drop (length (nodes (plat s)))
                    (nodes (plat s) ++ [(Math_max (nextStartTimeRef (refs s))
                                           (currentTime (base env)), d)]) ->
              fst a = Math_max (nextStartTimeRef (refs s)) (currentTime (base env))
              /\ is_time (snd a) = true
              /\ (is_time (nextStartTimeRef (refs s)) = true ->
                  is_time (currentTime (base env)) = true ->
                  fle (currentTime (base env)) (fst a)
                  /\ fle (nextStartTimeRef (refs s)) (fst a))).
    { intros a Hin. rewrite drop_app_length in Hin.
      apply list_elem_of_singleton in Hin. subst a. cbn [fst snd].
      split; [reflexivity|]. split; [assumption|]. intros Hnext Hnow.
      split; [apply fle_max_r|apply fle_max_l]; assumption. }
    destruct (interrupted message); cbn; rewrite length_app; cbn;
      (split; [lia|exact Hone]).
Qed.

(** [onended] of the second revision: the source leaves the active set,
    and the status goes back to ['Lytter...'] when the set is then empty. *)
Lemma onended2_status (source : nat) (s : App) :
  let s' := snd (onended2 source s) in
  sourcesRef (refs s') = sourcesRef (refs s) ∖ {[source]}
  /\ status (react s')
     = if bool_decide (size (sourcesRef (refs s) ∖ {[source]}) = 0%nat)
       then Lytter else status (react s).
Proof.
  destruct s as [[? ? ? ? ? tr tl ? ?] [se ic oc nx so] p].
  unfold onended2, mbind, M_bind. cbn -[size difference].
  destruct (bool_decide _); split; reflexivity.
Qed.

(** ** [translateText] and the speech variant *)

Lemma translateText_ok (generateContent : jsstring -> jsstring -> result text)
    (text targetLang modelName : jsstring) :
  exists out, translateText generateContent text targetLang modelName = Ok out
              /\ (out = [] <-> trim text = []).
Proof.
  unfold translateText. destruct (trim text) as [|c t0] eqn:Et.
  - exists []. split; [reflexivity|]. split; reflexivity.
  - destruct (generateContent modelName (prompt text targetLang)) as [[t|]|e]; cbn.
    + destruct (trim t) as [|c' t'].
      * eexists. split; [reflexivity|]. split; discriminate.
      * eexists. split; [reflexivity|]. split; discriminate.
    + eexists. split; [reflexivity|]. split; discriminate.
    + eexists. split; [reflexivity|]. split; discriminate.
Qed.

(** X17. [translateText] returns the empty string exactly for a blank
    text: for any other text the result is a non-empty string, whatever
    the backend does. *)
Theorem translateText_empty_iff_blank
    (generateContent : jsstring -> jsstring -> result text)
    (text targetLang modelName : jsstring) :
  translateText generateContent text targetLang modelName = Ok [] <-> trim text = [].
Proof.
  destruct (translateText_ok generateContent text targetLang modelName)
    as (out & E & Hiff).
  rewrite E. split.
  - intros [= ->]. apply Hiff. reflexivity.
  - intros H. apply Hiff in H. subst. reflexivity.
Qed.

(** *** The transcripts of a recognition event *)

Lemma fold_lookup_offset {A T : Type} (g : option A -> T -> T) (l pre : list A) (init : T) :
  fold_left (fun s i => g ((pre ++ l) !! i) s) (seq (length pre) (length l)) init
  = fold_left (fun s x => g (Some x) s) l init.
Proof.
  revert pre init. induction l as [|x l IH]; intros pre init; [reflexivity|].
  cbn [length seq fold_left].
  rewrite lookup_app_r, Nat.sub_diag by lia. cbn [lookup list_lookup].
  replace (pre ++ x :: l) with ((pre ++ [x]) ++ l) by (rewrite <- app_assoc; reflexivity).
  replace (S (length pre)) with (length (pre ++ [x])) by (rewrite length_app; cbn; lia).
  apply IH.
Qed.

Lemma for_range_drop {A T : Type} (g : option A -> T -> T) (l : list A) (a : nat)
    (init : T) :
  for_range a (length l) (fun i s => g (l !! i) s) init
  = fold_left (fun s x => g (Some x) s) (drop a l) init.
Proof.
  unfold for_range. destruct (decide (a <= length l)%nat) as [Hle|Hgt].
  - pose proof (fold_lookup_offset g (drop a l) (take a l) init) as H.
    rewrite take_drop, length_take, length_drop in H.
    replace (Nat.min a (length l)) with a in H by lia. exact H.
  - replace (length l - a)%nat with 0%nat by lia.
    rewrite drop_ge by lia. reflexivity.
Qed.

Lemma collect_fold (rs : list SpeechRecognitionResult) (interim final : jsstring) :
  fold_left
    (fun acc r =>
       if isFinal r then (fst acc, snd acc ++ resultTranscript r)
       else (fst acc ++ resultTranscript r, snd acc))
    rs (interim, final)
  = (interim ++ concat (map resultTranscript (List.filter (fun r => negb (isFinal r)) rs)),
     final ++ concat (map resultTranscript (List.filter isFinal rs))).
Proof.
  revert interim final. induction rs as [|r rs IH]; intros interim final.
  - cbn. rewrite !app_nil_r. reflexivity.
  - cbn [fold_left List.filter]. destruct (isFinal r); cbn [negb fst snd];
      rewrite IH; cbn [map concat]; rewrite <- ?app_assoc; reflexivity.
Qed.

(** X18. The loop of [onresult] reads the results from [resultIndex]
    on, and only those: the final transcript is the concatenation, in
    order, of the transcripts of the final results among them, the
    interim transcript that of the others. *)
Theorem collectTranscripts_spec (event : SpeechRecognitionEvent) :
  let fresh := drop (resultIndex event) (results event) in
  collectTranscripts event
  = (concat (map resultTranscript (List.filter (fun r => negb (isFinal r)) fresh)),
     concat (map resultTranscript (List.filter isFinal fresh))).
Proof.
  cbv zeta. unfold collectTranscripts.
  rewrite (for_range_drop
             (fun o acc =>
                match o with
                | Some r =>
                    if isFinal r then (fst acc, snd acc ++ resultTranscript r)
                    else (fst acc ++ resultTranscript r, snd acc)
                | None => acc
                end)).
  apply collect_fold.
Qed.

(** *** [onresult] *)

(** X19. [onresult] never throws. Without a final transcript it leaves
    the history and the translation alone and speaks nothing. With one,
    it shows it, translates it, shows the translation and puts exactly
    one item in front of the history, holding the transcript of this
    event (never an empty one) and its translation, which is empty only
    when the transcript is blank; what it speaks is that translation. *)
Theorem onresult_records (toLowerCase : jsstring -> jsstring)
    (generateContent : jsstring -> jsstring -> result text)
    (render : ReactState) (model : jsstring) (synthesis : option (list Voice))
    (event : SpeechRecognitionEvent) (now : Z) (s : App) :
  let final := snd (collectTranscripts event) in
  let out := onresult toLowerCase generateContent render model synthesis event now s in
  refs (snd out) = refs s /\ plat (snd out) = plat s
  /\ (final = [] ->
      fst out = Ok None
      /\ history (react (snd out)) = history (react s)
      /\ translation (react (snd out)) = translation (react s))
  /\ (final <> [] ->
      exists translated,
        translateText generateContent final (LANGUAGE_NAMES (targetLang render)) model
        = Ok translated
        /\ (translated = [] <-> trim final = [])
        /\ fst out = Ok (speak toLowerCase render synthesis translated)
        /\ transcript (react (snd out)) = Some final
        /\ translation (react (snd out)) = Some translated
        /\ history (react (snd out))
           = mkHistoryItem now (Some final) (Some translated)
               (match sourceLang render with
                | None => lit "Auto-detected"
                | Some l => LANGUAGE_NAMES l
                end)
               (LANGUAGE_NAMES (targetLang render)) :: history (react s)).
Proof.
  cbv zeta. unfold onresult.
  destruct (collectTranscripts event) as [interim final]. cbn [fst snd].
  destruct s as [[? ? ? ? ? tr tl ? ?] f p].
  destruct (translateText_ok generateContent final (LANGUAGE_NAMES (targetLang render))
              model) as (translated & Et & Hiff).
  unfold mbind, M_bind.
  destruct interim as [|ci interim], final as [|cf final];
    cbn [truthy when]; cbn -[translateText speak trim LANGUAGE_NAMES];
    try rewrite Et; cbn -[translateText speak trim LANGUAGE_NAMES];
    (split; [reflexivity|]); (split; [reflexivity|]);
    (split; [intros H; try discriminate H; repeat split; reflexivity|]);
    intros H; try congruence;
    exists translated; repeat split; try reflexivity; try apply Hiff; eauto.
Qed.

Lemma onresult_records_witness :
  let event := mkSpeechEvent 1
                 [mkSpeechResult true (lit "old"); mkSpeechResult true (lit "Hello")] in
  let out := onresult (fun s => s) (answering (Some (lit "Hej"))) initialReact
               (lit "gemini-3-flash-preview") None event 7 initialApp in
  exists translated,
    translateText (answering (Some (lit "Hej"))) (snd (collectTranscripts event))
      (LANGUAGE_NAMES (targetLang initialReact)) (lit "gemini-3-flash-preview")
    = Ok translated
    /\ (translated = [] <-> trim (snd (collectTranscripts event)) = [])
    /\ fst out = Ok (speak (fun s => s) initialReact None translated)
    /\ transcript (react (snd out)) = Some (snd (collectTranscripts event))
    /\ translation (react (snd out)) = Some translated
    /\ history (react (snd out))
       = mkHistoryItem 7 (Some (snd (collectTranscripts event))) (Some translated)
           (match sourceLang initialReact with
            | None => lit "Auto-detected"
            | Some l => LANGUAGE_NAMES l
            end)
           (LANGUAGE_NAMES (targetLang initialReact)) :: history (react initialApp).
Proof.
  apply (onresult_records (fun s => s) (answering (Some (lit "Hej"))) initialReact
           (lit "gemini-3-flash-preview") None
           (mkSpeechEvent 1
              [mkSpeechResult true (lit "old"); mkSpeechResult true (lit "Hello")])
           7 initialApp).
  vm_compute. discriminate.
Defined.

(** *** The voice *)

Section VoiceFacts.
Variable toLowerCase : jsstring -> jsstring.

(** X20. The voice [speak] chooses is one of the voices offered and of
    the target language; one is chosen whenever a voice of the target
    language is offered, and when none is the utterance has no voice. *)
Theorem pickVoice_language (targetLang : Language) (g : Gender) (voices : list Voice) :
  (forall v, pickVoice toLowerCase targetLang g voices = Some v ->
     In v voices /\ matchesLanguage targetLang v = true)
  /\ (pickVoice toLowerCase targetLang g voices = None <->
      forall v, In v voices -> matchesLanguage targetLang v = false).
Proof.
  unfold pickVoice. split.
  - intros v. destruct (List.find _ voices) as [w|] eqn:E1.
    + intros [= <-]. apply find_some in E1. destruct E1 as [Hin Hm].
      apply andb_true_iff in Hm. tauto.
    + intros E2. apply find_some in E2. exact E2.
  - destruct (List.find (fun v => matchesLanguage targetLang v && _) voices)
      as [w|] eqn:E1.
    + split; [discriminate|]. intros Hall. apply find_some in E1.
      destruct E1 as [Hin Hm]. apply andb_true_iff in Hm.
      rewrite (Hall w Hin) in Hm. destruct Hm. discriminate.
    + split.
      * intros E2 v Hin. exact (find_none _ _ E2 v Hin).
      * intros Hall. destruct (List.find (matchesLanguage targetLang) voices)
          as [w|] eqn:E2; [|reflexivity].
        apply find_some in E2. destruct E2 as [Hin Hm].
        rewrite (Hall w Hin) in Hm. discriminate.
Qed.

Lemma includes_cons (c : N) (s sub : jsstring) :
  includes s sub = true -> includes (c :: s) sub = true.
Proof. intros H. cbn [includes]. rewrite H. apply orb_true_r. Qed.

Lemma includes_prefix (s sub : jsstring) :
  startsWith s sub = true -> includes s sub = true.
Proof. intros H. destruct s; cbn [includes]; rewrite H; reflexivity. Qed.

Lemma female_includes_male (s : jsstring) :
  includes s (lit "female") = true -> includes s (lit "male") = true.
Proof.
  change (lit "female") with [102; 101; 109; 97; 108; 101]%N.
  change (lit "male") with [109; 97; 108; 101]%N.
  induction s as [|c s IH]; [discriminate|].
  intros H. cbn [includes] in H. apply orb_true_iff in H. destruct H as [H|H].
  - destruct s as [|c2 [|c3 [|c4 [|c5 [|c6 rest]]]]];
      cbn [startsWith] in H; rewrite ?andb_false_r in H; try discriminate H.
    repeat (apply andb_true_iff in H; destruct H as [? H]).
    repeat match goal with
           | E : (_ =? _)%N = true |- _ => apply N.eqb_eq in E; subst
           end.
    do 2 apply includes_cons. apply includes_prefix.
    cbn [startsWith]. rewrite !N.eqb_refl. exact H.
  - apply includes_cons, IH, H.
Qed.

(** X21. A voice that passes the test of [speak] for the gender
    ['female'] passes the one for ['male'] as well, since "female"
    contains "male"; so where every voice of the target language is
    named as female, both genders get the same voice. *)
Theorem female_voice_passes_male (targetLang : Language) (voices : list Voice) :
  (forall v, matchesGender toLowerCase female v = true ->
             matchesGender toLowerCase male v = true)
  /\ ((forall v, In v voices -> matchesLanguage targetLang v = true ->
                 matchesGender toLowerCase female v = true) ->
      pickVoice toLowerCase targetLang male voices
      = pickVoice toLowerCase targetLang female voices).
Proof.
  assert (Hfm : forall v, matchesGender toLowerCase female v = true ->
                          matchesGender toLowerCase male v = true).
  { intros v. unfold matchesGender. apply female_includes_male. }
  split; [exact Hfm|]. intros Hall. unfold pickVoice.
  assert (E : forall l, (forall v, In v l -> In v voices) ->
            List.find (fun v => matchesLanguage targetLang v
                                && matchesGender toLowerCase male v) l
            = List.find (fun v => matchesLanguage targetLang v
                                  && matchesGender toLowerCase female v) l).
  { induction l as [|v l IH]; intros Hsub; [reflexivity|]. cbn [List.find].
    destruct (matchesLanguage targetLang v) eqn:Hl; cbn [andb].
    - pose proof (Hall v (Hsub v (or_introl eq_refl)) Hl) as Hf.
      rewrite Hf, (Hfm v Hf). reflexivity.
    - apply IH. intros w Hw. apply Hsub. right. exact Hw. }
  rewrite (E voices) by auto. reflexivity.
Qed.

End VoiceFacts.

Lemma pickVoice_language_witness :
  In (mkVoice (lit "de-AT") (lit "anna"))
     [mkVoice (lit "en-GB") (lit "bob male"); mkVoice (lit "de-AT") (lit "anna")]
  /\ matchesLanguage German (mkVoice (lit "de-AT") (lit "anna")) = true.
Proof.
  apply (pickVoice_language (fun s => s) German male
           [mkVoice (lit "en-GB") (lit "bob male"); mkVoice (lit "de-AT") (lit "anna")]).
  reflexivity.
Defined.

Lemma female_voice_passes_male_witness :
  pickVoice (fun s => s) German male [mkVoice (lit "de-DE") (lit "anna female")]
  = pickVoice (fun s => s) German female [mkVoice (lit "de-DE") (lit "anna female")].
Proof.
  apply (female_voice_passes_male (fun s => s) German
           [mkVoice (lit "de-DE") (lit "anna female")]).
  intros v [<-|[]] _. reflexivity.
Defined.
